(** * notte: DOM node graph and selector resolution

    A shallow embedding of [notte/browser/dom_tree.py] and
    [notte/pipe/resolution.py], together with the properties of the node
    graph (sub-tree ids, text aggregation, filtering, coercion to interaction
    nodes) and of the locator-resolution pipeline.

    Conventions of the embedding.
    - Python [str] is [string], a character being a code point below 256;
      [X | None] is [option X]; a [raise] is the left summand of
      [error + A].
    - A [DomNode] is an immutable value.  The single object that the program
      mutates after construction, [ComputedDomAttributes] (through
      [set_selectors]), lives in a heap and nodes hold a reference to it, so
      that the sharing between a node and the copies made by
      [subtree_filter] and [to_interaction_node] is kept.
    - Calls to the browser driver go through a record of oracles and are
      recorded, in order, in a trace. *)

From Stdlib Require Import Ascii String ZArith DecimalString.
From stdpp Require Import base option list strings gmap.

#[local] Set Warnings "-clear-no-such-hyp".

(** ** Roles, categories and node kinds *)

(** [NodeType] of [notte/browser/node_type.py], as used by [dom_tree.py]. *)
Inductive NodeType := TEXT | INTERACTION | OTHER.

#[global] Instance NodeType_eq_dec : EqDecision NodeType.
Proof. solve_decision. Defined.

(** Modelled from the spec: [NodeCategory] is declared in
    [notte/browser/node_type.py], which is not part of the sources at hand.
    The code only compares a category with [TEXT], [INTERACTION] and [IMAGE];
    every other category is [CatOther]. *)
Inductive NodeCategory := CatText | CatInteraction | CatImage | CatOther.

#[global] Instance NodeCategory_eq_dec : EqDecision NodeCategory.
Proof. solve_decision. Defined.

(** Modelled from the spec: the enumeration [NodeRole] is declared in
    [notte/browser/node_type.py], which is not part of the sources at hand.
    The tree code uses three things of it: the string [value] of a member,
    its [category()], and [NodeRole.from_value], which returns the member
    for a recognised string and the string itself otherwise
    ("role: Known(enum) | Unknown(string)").  [from_value_known] is the
    recognising part of [from_value]. *)
Class RoleTable (NodeRole : Type) := {
  role_eq_dec :: EqDecision NodeRole;
  role_value : NodeRole → string;
  role_category : NodeRole → NodeCategory;
  from_value_known : string → option NodeRole;
}.

(** The type [NodeRole | str] of the field [DomNode.role]. *)
Inductive Role (NodeRole : Type) :=
  | Known (r : NodeRole)
  | Unknown (s : string).
Arguments Known {NodeRole} r.
Arguments Unknown {NodeRole} s.

#[global] Instance Role_eq_dec `{RoleTable NodeRole} : EqDecision (Role NodeRole).
Proof. solve_decision. Defined.

(** ** Attribute records *)

(** [NodeSelectors]; the dataclass is frozen. *)
Record NodeSelectors := {
  css_selector : string;
  xpath_selector : string;
  notte_selector : string;
  in_iframe : bool;
  in_shadow_root : bool;
  iframe_parent_css_selectors : list string;
  playwright_selector : option string;
}.

#[global] Instance NodeSelectors_eq_dec : EqDecision NodeSelectors.
Proof. solve_decision. Defined.

(** [NodeSelectors.selectors]: the candidate list, built by successive
    [append]s. *)
Definition selectors_list (self : NodeSelectors) : list string :=
  let l := [] in
  let l := match playwright_selector self with
           | Some p => l ++ [p]
           | None => l
           end in
  let l := l ++ [css_selector self] in
  let l := l ++ [xpath_selector self] in
  l.

(** [DomAttributes].  The dataclass has some seventy optional fields; the
    tree algorithms below read three of them, [hidden], [visible] and
    [enabled], and these are the fields kept.  [DomAttributes.init] fills a
    field with the raw value of the key of the same name and with [None]
    when the key is absent (none of the three names is renamed or dropped by
    the key normalisation). *)
Record DomAttributes := {
  visible : option bool;
  enabled : option bool;
  hidden : option bool;
}.

#[global] Instance DomAttributes_eq_dec : EqDecision DomAttributes.
Proof. solve_decision. Defined.

(** [ComputedDomAttributes]; [selectors] is the one field that
    [set_selectors] overwrites after construction. *)
Record ComputedDomAttributes := {
  in_viewport : bool;
  is_interactive : bool;
  is_top_element : bool;
  ca_is_editable : bool;
  shadow_root : bool;
  highlight_index : option Z;
  selectors : option NodeSelectors;
}.

#[global] Instance ComputedDomAttributes_eq_dec : EqDecision ComputedDomAttributes.
Proof. solve_decision. Defined.

(** The dataclass defaults. *)
#[global] Instance ComputedDomAttributes_inhabited : Inhabited ComputedDomAttributes :=
  populate {| in_viewport := false; is_interactive := false;
              is_top_element := false; ca_is_editable := false;
              shadow_root := false; highlight_index := None;
              selectors := None |}.

(** [ComputedDomAttributes.set_selectors] on the object itself. *)
Definition with_selectors (ca : ComputedDomAttributes) (s : NodeSelectors)
  : ComputedDomAttributes :=
  {| in_viewport := in_viewport ca; is_interactive := is_interactive ca;
     is_top_element := is_top_element ca; ca_is_editable := ca_is_editable ca;
     shadow_root := shadow_root ca; highlight_index := highlight_index ca;
     selectors := Some s |}.

(** ** The heap of computed-attribute objects *)

(** A reference to a [ComputedDomAttributes] object is its index in the
    heap; allocation appends. *)
Abbreviation ref := nat (only parsing).
Abbreviation Heap := (list ComputedDomAttributes) (only parsing).

Definition heap_alloc (ca : ComputedDomAttributes) (h : Heap) : ref * Heap :=
  (length h, h ++ [ca]).

Definition heap_get (h : Heap) (r : ref) : ComputedDomAttributes := h !!! r.

Definition set_selectors (r : ref) (s : NodeSelectors) (h : Heap) : Heap :=
  <[r := with_selectors (heap_get h r) s]> h.

(** ** Strings *)

(** [str.isspace] on the characters below 256, a character being its code
    point: tab, line feed, vertical tab, form feed, carriage return, the four
    separators 28 to 31, space, next line (133) and no-break space (160). *)
Definition py_isspace (c : ascii) : bool :=
  let n := nat_of_ascii c in
  ((9 <=? n) && (n <=? 13)) || ((28 <=? n) && (n <=? 32))
  || (n =? 133) || (n =? 160).

Fixpoint lstrip (s : string) : string :=
  match s with
  | EmptyString => EmptyString
  | String c s' => if py_isspace c then lstrip s' else s
  end.

Fixpoint rstrip (s : string) : string :=
  match s with
  | EmptyString => EmptyString
  | String c s' =>
      match rstrip s' with
      | EmptyString => if py_isspace c then EmptyString else String c EmptyString
      | r => String c r
      end
  end.

(** [str.strip()]. *)
Definition strip (s : string) : string := rstrip (lstrip s).

(** [s.split(":")[0]]: the part of [s] before its first colon. *)
Fixpoint split_colon_head (s : string) : string :=
  match s with
  | EmptyString => EmptyString
  | String c s' =>
      if Ascii.eqb c ":"%char then EmptyString else String c (split_colon_head s')
  end.

(** [" ".join(texts)]. *)
Definition join_space (texts : list string) : string := String.concat " " texts.

(** ** DOM nodes *)

Section Tree.
Context `{RT : RoleTable NodeRole}.

(** [NodeRole.from_value]. *)
Definition from_value (s : string) : Role NodeRole :=
  match from_value_known s with
  | Some r => Known r
  | None => Unknown s
  end.

(** [DomNode].  The fields [id] and [type] are [node_id] and [node_type]
    here ([id] is the identity function of the library).
    [computed_attributes] is a reference into the heap; [parent] is a
    back-reference that no function here follows, kept as an opaque object
    identity. *)
#[warnings="-register-all"]
Inductive DomNode := mkDomNode {
  node_id : option string;
  node_type : NodeType;
  role : Role NodeRole;
  text : string;
  children : list DomNode;
  attributes : option DomAttributes;
  computed_attributes : ref;
  subtree_ids : list string;
  parent : option nat;
}.

(** [DomNode.__post_init__], role part: a role still given as a string is
    classified. *)
Definition classify_role (r : Role NodeRole) : Role NodeRole :=
  match r with
  | Known k => Known k
  | Unknown s => from_value s
  end.

(** The loop of [DomNode.__post_init__] over the children. *)
Definition extend_subtree_ids (init : list string) (cs : list DomNode) : list string :=
  fold_left (λ acc child, acc ++ subtree_ids child) cs init.

(** The constructor of the dataclass followed by [__post_init__]:
    [subtree_ids] is not an argument ([init=False]) and is computed from the
    id and from the children's stored [subtree_ids]. *)
Definition DomNode_init (id : option string) (type : NodeType) (r : Role NodeRole)
    (txt : string) (cs : list DomNode) (attrs : option DomAttributes)
    (ca : ref) (p : option nat) : DomNode :=
  {| node_id := id; node_type := type; role := classify_role r; text := txt;
     children := cs; attributes := attrs; computed_attributes := ca;
     subtree_ids :=
       extend_subtree_ids (match id with None => [] | Some i => [i] end) cs;
     parent := p |}.

(** *** Errors *)

(** The [check] of an [InvalidInternalCheckError], one constructor per
    message of the two files, with the values the message interpolates. *)
Inductive InternalCheck :=
  | NodeNotInGraph (action_id : string)
      (* "Node with id {action.id} not found in graph" *)
  | ResolvedIdMismatch (found_id : option string) (action_id : string)
      (* "Resolved node id {node.id} does not match action id {action.id}" *)
  | NoSelectorsFound
      (* "No selectors found" *)
  | NodeIdIsNone
      (* "node.id cannot be None" *)
  | NotAnInteractionNode (type : NodeType) (id : option string)
      (r : Role NodeRole) (txt : string)
      (* "DomNode must be an interaction node to be converted ..." *)
  | InteractionNodeWithoutId
      (* "InteractionNode must have a valid non-None id" *)
  | InteractionNodeWithChildren.
      (* "InteractionNode must have no children" *)

(** The exceptions raised by the two files.  [DriverException] stands for
    whatever the browser driver raises from a probe that is awaited outside
    a [try] block; [AssertionError] for a failed [assert]. *)
Inductive error :=
  | InvalidInternalCheckError (check : InternalCheck) (url : option string)
  | NodeFilteringResultsInEmptyGraph (url : option string) (roles : gset string)
  | FailedNodeResolutionError (node : DomNode)
  | FailedUniqueLocatorResolutionError (sel : NodeSelectors)
  | AssertionError
  | DriverException.

(** The Python class of an exception. *)
Inductive ErrorClass :=
  | ClsInvalidInternalCheckError
  | ClsNodeFilteringResultsInEmptyGraph
  | ClsFailedNodeResolutionError
  | ClsFailedUniqueLocatorResolutionError
  | ClsAssertionError
  | ClsDriverException.

Definition error_class (e : error) : ErrorClass :=
  match e with
  | InvalidInternalCheckError _ _ => ClsInvalidInternalCheckError
  | NodeFilteringResultsInEmptyGraph _ _ => ClsNodeFilteringResultsInEmptyGraph
  | FailedNodeResolutionError _ => ClsFailedNodeResolutionError
  | FailedUniqueLocatorResolutionError _ => ClsFailedUniqueLocatorResolutionError
  | AssertionError => ClsAssertionError
  | DriverException => ClsDriverException
  end.

(** Modelled from the spec: the exception classes are declared in
    [notte/errors], which is not part of the sources at hand.  The spec's
    taxonomy has ContractViolation for a broken internal check,
    EmptyGraphAfterFiltering for a filter that removed everything, and
    NodeResolutionFailure, which "covers both no unique locator and not
    actionable", that is both exceptions of [notte.errors.resolution]. *)
Definition is_contract_violation (e : error) : bool :=
  match e with InvalidInternalCheckError _ _ => true | _ => false end.

Definition is_empty_graph_after_filtering (e : error) : bool :=
  match e with NodeFilteringResultsInEmptyGraph _ _ => true | _ => false end.

Definition is_node_resolution_failure (e : error) : bool :=
  match e with
  | FailedNodeResolutionError _ | FailedUniqueLocatorResolutionError _ => true
  | _ => false
  end.

(** *** Tree algorithms *)

(** [DomNode.get_role_str]. *)
Definition get_role_str (self : DomNode) : string :=
  match role self with
  | Unknown s => s
  | Known r => role_value r
  end.

(** [DomNode.get_url]; it reads the selectors cached on the node. *)
Definition get_url (h : Heap) (self : DomNode) : option string :=
  match selectors (heap_get h (computed_attributes self)) with
  | None => None
  | Some attr =>
      if decide (String.length (notte_selector attr) = 0) then None
      else Some (split_colon_head (notte_selector attr))
  end.

(** The [if]/[elif] chain of [DomNode.inner_text] for one child, given the
    child's own inner text: [true] when the text is appended. *)
Definition inner_text_appends (child_text : string) (attrs : option DomAttributes)
  : bool :=
  if decide (String.length child_text = 0) then false
  else match attrs with
       | None => true
       | Some a =>
           if bool_decide (hidden a ≠ None) && negb (default false (hidden a))
           then false
           else if bool_decide (visible a ≠ None) && negb (default false (visible a))
           then false
           else if bool_decide (enabled a ≠ None) && negb (default false (enabled a))
           then false
           else true
       end.

(** [DomNode.inner_text]. *)
Fixpoint inner_text (self : DomNode) : string :=
  match node_type self with
  | TEXT => text self
  | _ =>
      let texts :=
        (fix loop (cs : list DomNode) (texts : list string) : list string :=
           match cs with
           | [] => texts
           | child :: cs' =>
               let child_text := inner_text child in
               if inner_text_appends child_text (attributes child)
               then loop cs' (texts ++ [inner_text child])
               else loop cs' texts
           end) (children self) [] in
      join_space texts
  end.

(** [DomNode.is_interaction]. *)
Definition is_interaction (self : DomNode) : bool :=
  match role self with
  | Unknown _ => false
  | Known r =>
      match node_id self with
      | None => false
      | Some _ =>
          if decide (node_type self = INTERACTION) then true
          else bool_decide (role_category r = CatInteraction)
      end
  end.

(** [DomNode.is_image]. *)
Definition is_image (self : DomNode) : bool :=
  match role self with
  | Unknown _ => false
  | Known r =>
      match node_id self with
      | None => false
      | Some _ => bool_decide (role_category r = CatImage)
      end
  end.

(** [DomNode.flatten]: the pre-order list of the nodes, with the accumulator
    of the source. *)
Fixpoint flatten_inner (only_interaction : bool) (node : DomNode)
    (acc : list DomNode) : list DomNode :=
  let acc := if negb only_interaction || is_interaction node
             then acc ++ [node] else acc in
  fold_left (λ acc child, flatten_inner only_interaction child acc)
            (children node) acc.

Definition flatten (only_interaction : bool) (self : DomNode) : list DomNode :=
  flatten_inner only_interaction self [].

(** [DomNode.find_all_matching_subtrees_with_parents]. *)
Fixpoint find_all_matching_subtrees_with_parents (node : DomNode)
    (predicate : DomNode → bool) : list DomNode :=
  if predicate node then [node]
  else fold_left
         (λ matches child,
            matches ++ find_all_matching_subtrees_with_parents child predicate)
         (children node) [].

(** [DomNode.image_nodes]. *)
Definition image_nodes (self : DomNode) : list DomNode :=
  filter (λ node, is_image node = true) (flatten false self).

(** [DomNode.subtree_filter], the local function [inner]; the timing and the
    log line around it have no effect on the result. *)
Fixpoint subtree_filter_inner (ft : DomNode → bool) (node : DomNode)
  : option DomNode :=
  if negb (ft node) then None
  else
    let filtered_children :=
      (fix loop (cs : list DomNode) (filtered_children : list DomNode) :=
         match cs with
         | [] => filtered_children
         | child :: cs' =>
             match subtree_filter_inner ft child with
             | Some filtered_child => loop cs' (filtered_children ++ [filtered_child])
             | None => loop cs' filtered_children
             end
         end) (children node) [] in
    if bool_decide (node_id node = None)
       && bool_decide (length filtered_children = 0)
       && bool_decide (strip (text node) = EmptyString)
    then None
    else Some (DomNode_init (node_id node) (node_type node) (role node)
                 (text node) filtered_children (attributes node)
                 (computed_attributes node) (parent node)).

Definition subtree_filter (self : DomNode) (ft : DomNode → bool) : option DomNode :=
  subtree_filter_inner ft self.

(** [DomNode.subtree_without], the local predicate [only_roles]. *)
Definition only_roles (roles : gset string) (node : DomNode) : bool :=
  match role node with
  | Unknown _ => true
  | Known r => bool_decide (role_value r ∉ roles)
  end.

(** [DomNode.subtree_without]. *)
Definition subtree_without (h : Heap) (self : DomNode) (roles : gset string)
  : error + DomNode :=
  match subtree_filter self (only_roles roles) with
  | None => inl (NodeFilteringResultsInEmptyGraph (get_url h self) roles)
  | Some filtered => inr filtered
  end.

(** The constructor of [InteractionDomNode]: the dataclass constructor of
    [DomNode] followed by the overriding [__post_init__], which checks the
    id and the children before it calls [DomNode.__post_init__]. *)
Definition InteractionDomNode_init (h : Heap) (id : option string) (type : NodeType)
    (r : Role NodeRole) (txt : string) (cs : list DomNode)
    (attrs : option DomAttributes) (ca : ref) (p : option nat)
  : error + DomNode :=
  let self := mkDomNode id type r txt cs attrs ca [] p in
  match id with
  | None => inl (InvalidInternalCheckError InteractionNodeWithoutId (get_url h self))
  | Some _ =>
      if decide (0 < length cs)%nat
      then inl (InvalidInternalCheckError InteractionNodeWithChildren (get_url h self))
      else inr (DomNode_init id type r txt cs attrs ca p)
  end.

(** [DomNode.to_interaction_node]. *)
Definition to_interaction_node (h : Heap) (self : DomNode) : error + DomNode :=
  if decide (node_type self ≠ INTERACTION)
  then inl (InvalidInternalCheckError
              (NotAnInteractionNode (node_type self) (node_id self) (role self)
                 (text self))
              (get_url h self))
  else InteractionDomNode_init h (node_id self) INTERACTION (role self) (text self)
         [] (attributes self) (computed_attributes self) (parent self).

(** [DomNode.find]; a found node is an object, hence truthy. *)
Fixpoint find (h : Heap) (self : DomNode) (id : string) : error + option DomNode :=
  if decide (node_id self = Some id)
  then match to_interaction_node h self with
       | inl e => inl e
       | inr n => inr (Some n)
       end
  else (fix loop (cs : list DomNode) : error + option DomNode :=
          match cs with
          | [] => inr None
          | child :: cs' =>
              match find h child id with
              | inl e => inl e
              | inr (Some found) => inr (Some found)
              | inr None => loop cs'
              end
          end) (children self).

(** [DomNode.interaction_nodes]. *)
Definition interaction_nodes (h : Heap) (self : DomNode) : error + list DomNode :=
  (fix loop (inodes : list DomNode) : error + list DomNode :=
     match inodes with
     | [] => inr []
     | inode :: rest =>
         match to_interaction_node h inode with
         | inl e => inl e
         | inr n => match loop rest with
                    | inl e => inl e
                    | inr ns => inr (n :: ns)
                    end
         end
     end) (flatten true self).

End Tree.

Arguments DomNode NodeRole : clear implicits.
Arguments error NodeRole : clear implicits.
Arguments InternalCheck NodeRole : clear implicits.

(** ** Building the graph from an accessibility payload *)

(** [A11yNode], a dictionary with required [role] and [name].  A key that
    may be absent is an [option]; an absent [children] is the empty list
    ([node.get("children", [])]).  Of the attribute-like keys, the three
    that [DomAttributes] above keeps are present. *)
#[warnings="-register-all"]
Inductive A11yNode := mkA11yNode {
  a11y_role : string;
  a11y_name : string;
  a11y_children : list A11yNode;
  a11y_id : option string;
  a11y_in_viewport : option bool;
  a11y_is_interactive : option bool;
  a11y_is_top_element : option bool;
  a11y_shadow_root : option bool;
  a11y_highlight_index : option Z;
  a11y_visible : option bool;
  a11y_enabled : option bool;
  a11y_hidden : option bool;
}.

(** [DomAttributes.from_a11y_node], on the fields kept. *)
Definition DomAttributes_from_a11y_node (node : A11yNode) : DomAttributes :=
  {| visible := a11y_visible node; enabled := a11y_enabled node;
     hidden := a11y_hidden node |}.

Section Ingest.
Context `{RT : RoleTable NodeRole}.

(** [DomNode.from_a11y_node].  The children are built first, left to right;
    each node gets a fresh [ComputedDomAttributes] object with no selectors. *)
Fixpoint from_a11y_node (node : A11yNode) (notte_selector : string) (h : Heap)
  : DomNode NodeRole * Heap :=
  let '(children, h) :=
    (fix loop (cs : list A11yNode) (h : Heap) : list (DomNode NodeRole) * Heap :=
       match cs with
       | [] => ([], h)
       | child :: cs' =>
           let '(d, h) := from_a11y_node child notte_selector h in
           let '(ds, h) := loop cs' h in
           (d :: ds, h)
       end) (a11y_children node) h in
  let node_id := a11y_id node in
  let node_role := from_value (a11y_role node) in
  let node_type := match node_id with Some _ => INTERACTION | None => OTHER end in
  let node_type :=
    match node_role with
    | Known r => if decide (role_category r = CatText) then TEXT else node_type
    | Unknown _ => node_type
    end in
  let '(ca, h) :=
    heap_alloc
      {| in_viewport := default false (a11y_in_viewport node);
         is_interactive := default false (a11y_is_interactive node);
         is_top_element := default false (a11y_is_top_element node);
         ca_is_editable := false;
         shadow_root := default false (a11y_shadow_root node);
         highlight_index := a11y_highlight_index node;
         selectors := None |} h in
  (DomNode_init node_id node_type node_role (a11y_name node) children
     (Some (DomAttributes_from_a11y_node node)) ca None, h).

End Ingest.

(** ** The browser driver *)

(** A frame of the page and the locator that
    [get_locator_for_node_id] returns are handles of the driver. *)
Definition Frame := nat.
Definition LocatorHandle := nat.

(** [frame.locator(selector)]. *)
Definition Locator : Type := Frame * string.

(** The outcome of an awaited driver call: a value, or an exception. *)
Inductive Probe (A : Type) :=
  | Returned (a : A)
  | Raised.
Arguments Returned {A} a.
Arguments Raised {A}.

(** The three selector strings read off the result of [get_html_selector]. *)
Record HtmlSelectors := {
  hs_playwright_selector : option string;
  hs_css_selector : string;
  hs_xpath_selector : string;
}.

(** Modelled from the spec: [BrowserDriver] and the two functions of
    [notte/pipe/preprocessing/a11y/conflict_resolution.py] are not part of
    the sources at hand.  This is the "browser-driver capability surface":
    the live frames of the page, the match count of a selector in a frame,
    the probes editable / attribute value / visible / enabled, the lookup of
    a locator for an accessibility id, and the derivation of selector strings
    from a locator.  The page is taken as it is while one resolution runs. *)
Record BrowserDriver := {
  page_frames : list Frame;
  locator_count : Frame → string → Probe nat;
  locator_is_editable : Frame → string → Probe bool;
  locator_get_attribute_type : Frame → string → Probe (option string);
  locator_is_visible : Frame → string → Probe bool;
  locator_is_enabled : Frame → string → Probe bool;
  get_locator_for_node_id : A11yNode → string → Probe (option LocatorHandle);
  get_html_selector : LocatorHandle → Probe (option HtmlSelectors);
}.

(** The driver calls, as they are recorded in the trace. *)
Inductive Event :=
  | EvGetLocatorForNodeId (id : string)
  | EvGetHtmlSelector (l : LocatorHandle)
  | EvCount (selector : string) (frame : Frame)
  | EvIsEditable (l : Locator)
  | EvGetAttributeType (l : Locator)
  | EvIsVisible (l : Locator)
  | EvIsEnabled (l : Locator).

#[global] Instance Event_eq_dec : EqDecision Event.
Proof. solve_decision. Defined.

(** A call of the fallback resolution of [fill_node_selectors]. *)
Definition is_fallback_event (e : Event) : bool :=
  match e with
  | EvGetLocatorForNodeId _ | EvGetHtmlSelector _ => true
  | _ => false
  end.

(** The state a resolution runs in: the heap and the trace of driver calls. *)
Record World := {
  heap : Heap;
  trace : list Event;
}.

Definition log_event (e : Event) (w : World) : World :=
  {| heap := heap w; trace := trace w ++ [e] |}.

Definition update_heap (f : Heap → Heap) (w : World) : World :=
  {| heap := f (heap w); trace := trace w |}.

Section Resolution.
Context `{RT : RoleTable NodeRole}.

(** *** A state and exception monad *)

Definition M (A : Type) : Type := World → (error NodeRole + A) * World.

Definition ret {A} (a : A) : M A := λ w, (inr a, w).

Definition bind {A B} (m : M A) (k : A → M B) : M B :=
  λ w, match m w with
       | (inl e, w') => (inl e, w')
       | (inr a, w') => k a w'
       end.

Definition raise {A} (e : error NodeRole) : M A := λ w, (inl e, w).

(** An awaited driver call that is not inside a [try]: its exception
    propagates. *)
Definition await {A} (ev : Event) (r : Probe A) : M A :=
  λ w, match r with
       | Returned a => (inr a, log_event ev w)
       | Raised => (inl DriverException, log_event ev w)
       end.

(** An awaited driver call inside a [try]: the handler sees the outcome. *)
Definition try_await {A} (ev : Event) (r : Probe A) : M (Probe A) :=
  λ w, (inr r, log_event ev w).

Definition read_heap : M Heap := λ w, (inr (heap w), w).

Definition write_heap (f : Heap → Heap) : M unit := λ w, (inr tt, update_heap f w).

Definition lift_result {A} (r : error NodeRole + A) : M A := λ w, (r, w).

Notation "'do' x <- m ; k" := (bind m (λ x, k))
  (at level 10, x name, m at level 100, k at level 200).
Notation "'do' ' pat <- m ; k" := (bind m (λ x, match x with pat => k end))
  (at level 10, pat pattern, m at level 100, k at level 200).

(** *** Snapshots, actions and resolved locators *)

Record BrowserSnapshot := {
  metadata_url : string;
  a11y_tree_raw : A11yNode;
}.

Record ProcessedBrowserSnapshot := {
  context_node : DomNode NodeRole;
  context_snapshot : BrowserSnapshot;
}.

Record ResolvedLocator := {
  rl_role : Role NodeRole;
  rl_is_editable : bool;
  rl_input_type : option string;
  rl_selector : NodeSelectors;
}.

Record Action := {
  action_id : string;
  action_description : string;
  action_category : string;
  action_params : list string;
}.

Record ExecutableAction := {
  ea_id : string;
  ea_description : string;
  ea_category : string;
  ea_params : list string;
  ea_params_values : list string;
  ea_status : string;
  ea_code : option string;
  ea_locator : ResolvedLocator;
}.

(** *** [ActionNodeResolutionPipe] *)

Variable browser : BrowserDriver.

(** [ActionNodeResolutionPipe.fill_node_selectors]. *)
Definition fill_node_selectors (node : DomNode NodeRole) (snapshot : BrowserSnapshot)
  : M unit :=
  do h <- read_heap;
  match selectors (heap_get h (computed_attributes node)) with
  | Some _ => ret tt
  | None =>
      match node_id node with
      | None => raise AssertionError
      | Some id =>
          do locator <- await (EvGetLocatorForNodeId id)
                          (get_locator_for_node_id browser (a11y_tree_raw snapshot) id);
          match locator with
          | None => raise (FailedNodeResolutionError node)
          | Some locator =>
              do _selectors <- await (EvGetHtmlSelector locator)
                                 (get_html_selector browser locator);
              match _selectors with
              | None => raise (FailedNodeResolutionError node)
              | Some _selectors =>
                  let selectors :=
                    {| playwright_selector := hs_playwright_selector _selectors;
                       css_selector := hs_css_selector _selectors;
                       xpath_selector := hs_xpath_selector _selectors;
                       notte_selector := EmptyString;
                       in_iframe := false;
                       in_shadow_root := false;
                       iframe_parent_css_selectors := [] |} in
                  write_heap (set_selectors (computed_attributes node) selectors)
              end
          end
      end
  end.

(** [ActionNodeResolutionPipe.get_valid_locator], the inner loop over the
    frames of the page for one candidate [selector]; [next_selector] is what
    runs when the loop ends without a [return], the rest of the outer loop.
    An exception of the probe is caught and the loop goes on. *)
Fixpoint over_frames (selector : string) (next_selector : M (Locator * string))
    (fs : list Frame) : M (Locator * string) :=
  match fs with
  | [] => next_selector
  | frame :: fs' =>
      do count <- try_await (EvCount selector frame)
                    (locator_count browser frame selector);
      match count with
      | Returned 1 => ret ((frame, selector), selector)
      | Returned _ => over_frames selector next_selector fs'
      | Raised => over_frames selector next_selector fs'
      end
  end.

(** The outer loop over the candidate selectors, and the [raise] after it. *)
Fixpoint over_selectors (sels : NodeSelectors) (ss : list string)
  : M (Locator * string) :=
  match ss with
  | [] => raise (FailedUniqueLocatorResolutionError sels)
  | selector :: ss' =>
      over_frames selector (over_selectors sels ss') (page_frames browser)
  end.

(** [ActionNodeResolutionPipe.get_valid_locator]. *)
Definition get_valid_locator (sels : NodeSelectors) : M (Locator * string) :=
  if decide (length (selectors_list sels) = 0)
  then raise (InvalidInternalCheckError NoSelectorsFound (Some "unknown url"%string))
  else over_selectors sels (selectors_list sels).

(** [ActionNodeResolutionPipe.compute_attributes] from the point where the
    selectors of the node are known: the search for a unique locator, the
    four live-state probes, the check, the result. *)
Definition resolve_with_selectors (node : DomNode NodeRole) (sels : NodeSelectors)
  : M ResolvedLocator :=
  do '(locator, selector) <- get_valid_locator sels;
  do is_editable <- await (EvIsEditable locator)
                      (locator_is_editable browser locator.1 locator.2);
  do input_type <-
    (if is_editable : bool
     then await (EvGetAttributeType locator)
            (locator_get_attribute_type browser locator.1 locator.2)
     else ret None);
  do visible <- await (EvIsVisible locator)
                  (locator_is_visible browser locator.1 locator.2);
  do enabled <- await (EvIsEnabled locator)
                  (locator_is_enabled browser locator.1 locator.2);
  if negb visible || negb enabled
  then raise (FailedNodeResolutionError node)
  else ret {| rl_role := role node;
              rl_is_editable := is_editable;
              rl_input_type := input_type;
              rl_selector :=
                {| playwright_selector := Some selector;
                   css_selector := css_selector sels;
                   xpath_selector := xpath_selector sels;
                   notte_selector := notte_selector sels;
                   in_iframe := in_iframe sels;
                   in_shadow_root := in_shadow_root sels;
                   iframe_parent_css_selectors :=
                     iframe_parent_css_selectors sels |} |}.

(** [ActionNodeResolutionPipe.compute_attributes]: the check of the id, the
    selectors read from the node and filled in when there are none, the
    check that there are some, and the resolution above. *)
Definition compute_attributes (node : DomNode NodeRole) (snapshot : BrowserSnapshot)
  : M ResolvedLocator :=
  match node_id node with
  | None => raise (InvalidInternalCheckError NodeIdIsNone (Some (metadata_url snapshot)))
  | Some _ =>
      do h <- read_heap;
      do sels <-
        match selectors (heap_get h (computed_attributes node)) with
        | None =>
            do _ <- fill_node_selectors node snapshot;
            do h <- read_heap;
            ret (selectors (heap_get h (computed_attributes node)))
        | Some s => ret (Some s)
        end;
      match sels with
      | None =>
          raise (InvalidInternalCheckError NoSelectorsFound
                   (Some (metadata_url snapshot)))
      | Some sels => resolve_with_selectors node sels
      end
  end.

(** [ActionNodeResolutionPipe.forward] from the result of the graph lookup
    on: the two checks on the found node, the resolution, the result. *)
Definition forward_found (action : Action) (params_values : list string)
    (context : ProcessedBrowserSnapshot) (node : option (DomNode NodeRole))
  : M ExecutableAction :=
  match node with
  | None =>
      raise (InvalidInternalCheckError (NodeNotInGraph (action_id action))
               (Some (metadata_url (context_snapshot context))))
  | Some node =>
      if decide (node_id node ≠ Some (action_id action))
      then raise (InvalidInternalCheckError
                    (ResolvedIdMismatch (node_id node) (action_id action))
                    (Some (metadata_url (context_snapshot context))))
      else
        do resolved_locator <- compute_attributes node (context_snapshot context);
        ret {| ea_id := action_id action;
               ea_description := action_description action;
               ea_category := action_category action;
               ea_params := action_params action;
               ea_params_values := params_values;
               ea_status := "valid";
               ea_code := None;
               ea_locator := resolved_locator |}
  end.

(** [ActionNodeResolutionPipe.forward]. *)
Definition forward (action : Action) (params_values : list string)
    (context : ProcessedBrowserSnapshot) : M ExecutableAction :=
  do h <- read_heap;
  do node <- lift_result (find h (context_node context) (action_id action));
  forward_found action params_values context node.

End Resolution.

(** ** Further functions of [dom_tree.py] *)

Section Dialogs.
Context `{RT : RoleTable NodeRole}.

(** Modelled from the spec: [NodeRole.DIALOG], a member of the enumeration
    that is not part of the sources at hand. *)
Variable DIALOG : NodeRole.

(** [DomNode.prune_non_dialogs_if_present], the local predicate
    [is_dialog]; a role that is still a string is not the member. *)
Definition is_dialog (h : Heap) (node : DomNode NodeRole) : bool :=
  bool_decide (role node = Known DIALOG)
  && in_viewport (heap_get h (computed_attributes node)).

(** [DomNode.prune_non_dialogs_if_present]. *)
Definition prune_non_dialogs_if_present (h : Heap) (self : DomNode NodeRole)
  : list (DomNode NodeRole) :=
  let dialogs := find_all_matching_subtrees_with_parents self (is_dialog h) in
  if decide (length dialogs = 0) then [self] else dialogs.

End Dialogs.

(** ** Attribute dictionaries: [DomErrorBuffer], [DomAttributes.init] and
    [DomAttributes.relevant_attrs] *)

(** The value of an attribute: [str | int | bool | None]. *)
Inductive PyValue := VStr (s : string) | VInt (z : Z) | VBool (b : bool) | VNone.

#[global] Instance PyValue_eq_dec : EqDecision PyValue.
Proof. solve_decision. Defined.

(** [str(v)]. *)
Definition py_str (v : PyValue) : string :=
  match v with
  | VStr s => s
  | VInt z => NilEmpty.string_of_int (Z.to_int z)
  | VBool true => "True"
  | VBool false => "False"
  | VNone => "None"
  end.

(** [s[:n]]: the first [n] characters; a negative [n] counts from the end. *)
Definition py_slice_to (n : Z) (s : string) : string :=
  if decide (0 ≤ n)%Z then substring 0 (Z.to_nat n) s
  else substring 0 (String.length s - Z.to_nat (- n)) s.

(** A [dict] with [str] keys: its items in the order of insertion. *)
Abbreviation dict V := (list (string * V)) (only parsing).

Definition dict_keys {V : Type} (d : dict V) : list string := d.*1.

(** [d.get(k)]. *)
Fixpoint dict_get {V : Type} (k : string) (d : dict V) : option V :=
  match d with
  | [] => None
  | (k', v) :: d => if decide (k' = k) then Some v else dict_get k d
  end.

(** [d[k] = v]: in place when the key is there, at the end when it is not. *)
Fixpoint dict_set {V : Type} (k : string) (v : V) (d : dict V) : dict V :=
  match d with
  | [] => [(k, v)]
  | (k', v') :: d =>
      if decide (k' = k) then (k, v) :: d else (k', v') :: dict_set k v d
  end.

(** [del d[k]], for a key that is there. *)
Definition dict_del {V : Type} (k : string) (d : dict V) : dict V :=
  filter (λ kv, kv.1 ≠ k) d.

(** [DomErrorBuffer._max_samples_per_key]. *)
Definition max_samples_per_key : nat := 5.

(** The [KeyError] of a subscript with a key that is not there. *)
Inductive KeyError := mkKeyError (key : string).

(** [DomErrorBuffer._buffer], the class-level dictionary, is passed along. *)
Abbreviation Buffer := (list (string * list string)) (only parsing).

(** [DomErrorBuffer.add_error], the body of the loop for one key. *)
Definition add_error_key (values : dict PyValue) (key : string) (buffer : Buffer)
  : (KeyError + unit) * Buffer :=
  let buffer :=
    if decide (key ∈ dict_keys buffer) then buffer else dict_set key [] buffer in
  match dict_get key values with
  | None => (inl (mkKeyError key), buffer)
  | Some v =>
      let str_v := py_slice_to 50 (py_str v) in
      let samples := default [] (dict_get key buffer) in
      if decide (length samples < max_samples_per_key ∧ str_v ∉ samples)
      then (inr (), dict_set key (samples ++ [str_v]) buffer)
      else (inr (), buffer)
  end.

(** [DomErrorBuffer.add_error].  [extra_keys] is a set, which the loop goes
    through in an order that is not fixed: the list is that order. *)
Fixpoint add_error (extra_keys : list string) (values : dict PyValue)
    (buffer : Buffer) : (KeyError + unit) * Buffer :=
  match extra_keys with
  | [] => (inr (), buffer)
  | key :: extra_keys =>
      match add_error_key values key buffer with
      | (inl e, buffer) => (inl e, buffer)
      | (inr _, buffer) => add_error extra_keys values buffer
      end
  end.

(** [DomErrorBuffer.flush]: the keys and the buffer that the message logged
    shows, when there is one, and the buffer afterwards. *)
Definition flush (buffer : Buffer) : option (list string * Buffer) * Buffer :=
  if decide (length buffer = 0) then (None, buffer)
  else (Some (dict_keys buffer, buffer), []).

(** The fields of the dataclass [DomAttributes], in the order of their
    declaration. *)
Definition dataclass_fields : list string :=
  [ "modal"; "required"; "visible"; "selected"; "checked"; "enabled";
    "focused"; "disabled"; "pressed"; "type"; "value"; "valuemin";
    "valuemax"; "description"; "autocomplete"; "haspopup"; "accesskey";
    "autofocus"; "tabindex"; "multiselectable"; "tag_name"; "class_name";
    "href"; "src"; "srcset"; "target"; "ping"; "data_src"; "data_srcset";
    "placeholder"; "title"; "alt"; "name"; "autocorrect"; "autocapitalize";
    "spellcheck"; "maxlength"; "width"; "height"; "size"; "rows"; "lang";
    "dir"; "action"; "role"; "aria_label"; "aria_labelledby";
    "aria_describedby"; "aria_hidden"; "aria_expanded"; "aria_controls";
    "aria_haspopup"; "aria_current"; "aria_autocomplete"; "aria_selected";
    "aria_modal"; "aria_disabled"; "aria_valuenow"; "aria_live";
    "aria_atomic"; "aria_valuemax"; "aria_valuemin"; "aria_level";
    "aria_owns"; "aria_multiselectable"; "aria_colindex"; "aria_colspan";
    "aria_rowindex"; "aria_rowspan"; "aria_description";
    "aria_activedescendant"; "hidden"; "expanded" ]%string.

(** [DomAttributes.init], the keys that are not reported. *)
Definition excluded_keys : list string :=
  [ "browser_user_highlight_id"; "class"; "style"; "id"; "data_jsl10n";
    "keyshortcuts"; "for"; "rel"; "ng_non_bindable"; "c_wiz"; "ssk";
    "soy_skip"; "key"; "method"; "eid"; "view"; "pivot" ]%string.

(** [k.replace("-", "_")]. *)
Fixpoint replace_dash (k : string) : string :=
  match k with
  | EmptyString => EmptyString
  | String c k =>
      String (if Ascii.eqb c "-" then "_"%char else c) (replace_dash k)
  end.

(** The keys that the comprehension of [DomAttributes.init] leaves out. *)
Definition skipped_key (k : string) : bool :=
  String.prefix "data-" k || String.prefix "js" k
  || String.prefix "__" k || String.prefix "g-" k.

(** The comprehension of [DomAttributes.init]: the items in their order,
    a later item with the same new key replacing the value of an earlier. *)
Definition renamed_items (kwargs : dict PyValue) : dict PyValue :=
  fold_left
    (λ d kv, if skipped_key kv.1 then d else dict_set (replace_dash kv.1) kv.2 d)
    kwargs [].

(** [DomAttributes.init].  The instance is the dictionary of its fields, as
    [asdict] gives it: one item for each field, in the order of the
    declaration, [VNone] for [None]. *)
Definition DomAttributes_init (kwargs : dict PyValue) (buffer : Buffer)
  : (KeyError + dict PyValue) * Buffer :=
  let kwargs :=
    match dict_get "class" kwargs with
    | Some v => dict_del "class" (dict_set "class_name" v kwargs)
    | None => kwargs
    end in
  let kwargs := renamed_items kwargs in
  let extra_keys :=
    filter (λ k, (k ∉ dataclass_fields) ∧ (k ∉ excluded_keys)) (dict_keys kwargs) in
  let instance :=
    map (λ key, (key, default VNone (dict_get key kwargs))) dataclass_fields in
  if decide (0 < length extra_keys)
  then match add_error extra_keys kwargs buffer with
       | (inl e, buffer) => (inl e, buffer)
       | (inr _, buffer) => (inr instance, buffer)
       end
  else (inr instance, buffer).

(** [DomAttributes.relevant_attrs], the attributes left out by default. *)
Definition disabled_by_default : list string :=
  [ "tag_name"; "class_name"; "width"; "height"; "size"; "lang"; "dir";
    "action"; "role"; "aria_label"; "name" ]%string.

(** [DomAttributes.relevant_attrs], the shortening of a value. *)
Definition shortened (max_len_per_attribute : option Z) (value : PyValue)
  : PyValue :=
  match max_len_per_attribute, value with
  | Some n, VStr s =>
      if decide (n < Z.of_nat (String.length s))%Z
      then VStr (py_slice_to n s +:+ "...")
      else value
  | _, _ => value
  end.

(** [DomAttributes.relevant_attrs] on the dictionary of the fields. *)
Definition relevant_attrs (self : dict PyValue)
    (include_attributes : option (gset string))
    (max_len_per_attribute : option Z) : dict PyValue :=
  let disabled_attrs :=
    filter (λ k, k ∉ default ∅ include_attributes) disabled_by_default in
  fold_left
    (λ attrs kv,
       if decide ((kv.1 ∉ disabled_attrs)
                  ∧ (include_attributes = None
                     ∨ kv.1 ∈ default ∅ include_attributes)
                  ∧ kv.2 ≠ VNone)
       then dict_set kv.1 (shortened max_len_per_attribute kv.2) attrs
       else attrs)
    self [].

(** * Definitions used to state the properties *)

(** ** The loops of the tree algorithms *)

(** The loop "append the result for each child that has one", as it occurs
    in [subtree_filter]. *)
Definition collect_some {A B : Type} (f : A → option B)
  : list A → list B → list B :=
  fix loop (cs : list A) (acc : list B) : list B :=
    match cs with
    | [] => acc
    | c :: cs' =>
        match f c with
        | Some b => loop cs' (acc ++ [b])
        | None => loop cs' acc
        end
    end.

(** The list comprehension of [from_a11y_node] over the children, with the
    heap passed from one child to the next. *)
Definition build_all {A B : Type} (build : A → Heap → B * Heap)
  : list A → Heap → list B * Heap :=
  fix loop (cs : list A) (h : Heap) : list B * Heap :=
    match cs with
    | [] => ([], h)
    | c :: cs' =>
        let '(d, h) := build c h in
        let '(ds, h) := loop cs' h in
        (d :: ds, h)
    end.

(** The ids of an accessibility payload, in pre-order. *)
Fixpoint a11y_ids (node : A11yNode) : list string :=
  match a11y_id node with Some i => [i] | None => [] end
  ++ concat (map a11y_ids (a11y_children node)).

Section TreePredicates.
Context `{RT : RoleTable NodeRole}.

(** The loop of [inner_text] over the children. *)
Fixpoint inner_text_loop (cs : list (DomNode NodeRole)) (texts : list string)
  : list string :=
  match cs with
  | [] => texts
  | child :: cs' =>
      if inner_text_appends (inner_text child) (attributes child)
      then inner_text_loop cs' (texts ++ [inner_text child])
      else inner_text_loop cs' texts
  end.

(** The loop of [find] over the children. *)
Definition find_loop (h : Heap) (id : string)
  : list (DomNode NodeRole) → error NodeRole + option (DomNode NodeRole) :=
  fix loop (cs : list (DomNode NodeRole)) :=
    match cs with
    | [] => inr None
    | child :: cs' =>
        match find h child id with
        | inl e => inl e
        | inr (Some found) => inr (Some found)
        | inr None => loop cs'
        end
    end.

(** The invariant of the constructor on one node: the stored
    [subtree_ids] are the node's id, if any, followed by the stored
    [subtree_ids] of the children. *)
Definition ids_consistent (n : DomNode NodeRole) : Prop :=
  subtree_ids n =
    match node_id n with Some i => [i] | None => [] end
    ++ concat (map subtree_ids (children n)).

(** The role of every node of the tree has been classified, as the
    constructor leaves it. *)
Definition roles_classified (t : DomNode NodeRole) : Prop :=
  Forall (λ n, classify_role (role n) = role n) (flatten false t).

(** A predicate on nodes that reads a node's own fields only, not its
    children nor its [subtree_ids]. *)
Definition own_fields_only (ft : DomNode NodeRole → bool) : Prop :=
  ∀ n n',
    node_id n = node_id n' → node_type n = node_type n' → role n = role n' →
    text n = text n' → attributes n = attributes n' →
    computed_attributes n = computed_attributes n' → parent n = parent n' →
    ft n = ft n'.

End TreePredicates.

(** ** The order of probing *)

(** The (selector, frame) pairs in the order [get_valid_locator] visits
    them: selector by selector, and for each selector frame by frame. *)
Definition candidate_pairs (browser : BrowserDriver) (sels : NodeSelectors)
  : list (string * Frame) :=
  flat_map (λ selector, map (λ frame, (selector, frame)) (page_frames browser))
           (selectors_list sels).

(** A pair is accepted when its probe returns the count 1. *)
Definition is_unique (browser : BrowserDriver) (p : string * Frame) : bool :=
  match locator_count browser p.2 p.1 with
  | Returned 1 => true
  | _ => false
  end.

(** A linear scan of a list of pairs: the pairs probed, in order, and the
    accepted pair if there is one. *)
Fixpoint probe_scan (browser : BrowserDriver) (pairs : list (string * Frame))
  : list (string * Frame) * option (string * Frame) :=
  match pairs with
  | [] => ([], None)
  | p :: ps =>
      if is_unique browser p then ([p], Some p)
      else let '(probed, hit) := probe_scan browser ps in (p :: probed, hit)
  end.

Definition count_events (ps : list (string * Frame)) : list Event :=
  map (λ p, EvCount p.1 p.2) ps.

Definition add_trace (evs : list Event) (w : World) : World :=
  {| heap := heap w; trace := trace w ++ evs |}.

(** The outcome of [get_valid_locator] read off a scan. *)
Definition scan_outcome {NodeRole : Type} (sels : NodeSelectors)
    (r : list (string * Frame) * option (string * Frame)) (w : World)
  : (error NodeRole + Locator * string) * World :=
  match r with
  | (ps, Some (s, f)) => (inr ((f, s), s), add_trace (count_events ps) w)
  | (ps, None) =>
      (inl (FailedUniqueLocatorResolutionError sels), add_trace (count_events ps) w)
  end.

(** The live-state probes of [compute_attributes] report an element that is
    not visible or not enabled: each probe the function awaits returns, and
    the visible or the enabled probe returns [False]. *)
Definition reported_not_actionable (browser : BrowserDriver) (l : Locator) : bool :=
  match locator_is_editable browser l.1 l.2 with
  | Raised => false
  | Returned editable =>
      (if editable
       then match locator_get_attribute_type browser l.1 l.2 with
            | Raised => false
            | Returned _ => true
            end
       else true)
      && match locator_is_visible browser l.1 l.2,
               locator_is_enabled browser l.1 l.2 with
         | Returned v, Returned e => negb v || negb e
         | _, _ => false
         end
  end.

(** One of the live-state probes that [compute_attributes] awaits raises:
    the editable probe, the read of the type attribute of an editable
    element, the visible probe or, after it, the enabled probe. *)
Definition probe_raised (browser : BrowserDriver) (l : Locator) : bool :=
  match locator_is_editable browser l.1 l.2 with
  | Raised => true
  | Returned editable =>
      match (if editable then locator_get_attribute_type browser l.1 l.2
             else Returned None) with
      | Raised => true
      | Returned _ =>
          match locator_is_visible browser l.1 l.2 with
          | Raised => true
          | Returned _ =>
              match locator_is_enabled browser l.1 l.2 with
              | Raised => true
              | Returned _ => false
              end
          end
      end
  end.

(** The pair [get_valid_locator] accepts, if any. *)
Definition accepted_pair (browser : BrowserDriver) (sels : NodeSelectors)
  : option (string * Frame) :=
  (probe_scan browser (candidate_pairs browser sels)).2.

(** ** The selector cache *)

(** Two computed-attribute objects agree on every field but [selectors]. *)
Definition same_flags (a b : ComputedDomAttributes) : Prop :=
  in_viewport a = in_viewport b ∧ is_interactive a = is_interactive b ∧
  is_top_element a = is_top_element b ∧ ca_is_editable a = ca_is_editable b ∧
  shadow_root a = shadow_root b ∧ highlight_index a = highlight_index b.

(** The cache only grows: between two heaps no object appears or
    disappears, no field other than [selectors] changes, and selectors that
    are set stay the same. *)
Definition cache_grows (h h' : Heap) : Prop :=
  length h' = length h ∧
  ∀ r : ref,
    same_flags (heap_get h' r) (heap_get h r) ∧
    ∀ s, selectors (heap_get h r) = Some s → selectors (heap_get h' r) = Some s.

Definition grows (w w' : World) : Prop := cache_grows (heap w) (heap w').

(** A resolution that only reads the cache: the heap is the same and the
    driver calls made are not those of the fallback resolution. *)
Definition read_only (w w' : World) : Prop :=
  heap w' = heap w ∧
  ∃ evs, trace w' = trace w ++ evs ∧ Forall (λ e, is_fallback_event e = false) evs.

(** A computation keeps a relation between the state it starts in and the
    state it ends in, whether it returns or raises. *)
Definition respects `{RT : RoleTable NodeRole} (R : World → World → Prop) {A : Type}
    (m : M (NodeRole := NodeRole) A) : Prop :=
  ∀ w, R w (m w).2.

(** Any number of resolutions, one after the other, on the same heap; a
    resolution that raises leaves the state it has reached. *)
Definition forward_all `{RT : RoleTable NodeRole} (browser : BrowserDriver)
    (requests : list (Action * list string * ProcessedBrowserSnapshot (NodeRole := NodeRole)))
    (w : World) : World :=
  fold_left (λ w req, (forward browser req.1.1 req.1.2 req.2 w).2) requests w.

(** ** A role table for the examples *)

(** Modelled from the spec: the members of [NodeRole] are not part of the
    sources at hand.  The examples use the roles the spec names ("WebArea",
    "button" classified as Button, Dialog), a textual role and an image
    role, with the categories the spec gives them. *)
Inductive SampleRole := WEBAREA | BUTTON | DIALOG | STATICTEXT | IMAGE.

#[global] Instance SampleRole_eq_dec : EqDecision SampleRole.
Proof. solve_decision. Defined.

#[global] Instance sample_roles : RoleTable SampleRole := {|
  role_value r :=
    match r with
    | WEBAREA => "WebArea" | BUTTON => "button" | DIALOG => "dialog"
    | STATICTEXT => "text" | IMAGE => "image"
    end%string;
  role_category r :=
    match r with
    | BUTTON => CatInteraction
    | STATICTEXT => CatText
    | IMAGE => CatImage
    | WEBAREA | DIALOG => CatOther
    end;
  from_value_known s :=
    if decide (s = "WebArea"%string) then Some WEBAREA
    else if decide (s = "button"%string) then Some BUTTON
    else if decide (s = "dialog"%string) then Some DIALOG
    else if decide (s = "text"%string) then Some STATICTEXT
    else if decide (s = "image"%string) then Some IMAGE
    else None;
|}.

Definition SNode := DomNode SampleRole.

(** A node with the given id, kind, role, text, children and attributes,
    built by the constructor; its computed attributes are object 0. *)
Definition sample_node (id : option string) (type : NodeType) (r : Role SampleRole)
    (txt : string) (cs : list SNode) (attrs : option DomAttributes) : SNode :=
  DomNode_init id type r txt cs attrs 0 None.

Definition no_flags : DomAttributes :=
  {| visible := None; enabled := None; hidden := None |}.

Definition default_computed : ComputedDomAttributes := inhabitant.

(** A bundle with all three candidate selectors. *)
Definition sample_selectors : NodeSelectors :=
  {| css_selector := "#b1"; xpath_selector := "//button[1]";
     notte_selector := ""; in_iframe := false; in_shadow_root := false;
     iframe_parent_css_selectors := [];
     playwright_selector := Some "internal:role=button"%string |}.

(** A page with one frame in which only the css selector of
    [sample_selectors] matches exactly one element; that element is visible
    and enabled. *)
Definition sample_browser : BrowserDriver :=
  {| page_frames := [0];
     locator_count _ selector :=
       if decide (selector = "#b1"%string) then Returned 1
       else if decide (selector = "//button[1]"%string) then Returned 2
       else Returned 0;
     locator_is_editable _ _ := Returned false;
     locator_get_attribute_type _ _ := Returned None;
     locator_is_visible _ _ := Returned true;
     locator_is_enabled _ _ := Returned true;
     get_locator_for_node_id _ _ := Returned (Some 0);
     get_html_selector _ :=
       Returned (Some {| hs_playwright_selector := None;
                         hs_css_selector := "#b1";
                         hs_xpath_selector := "//button[1]" |}) |}.

(** A page without frames. *)
Definition empty_browser : BrowserDriver :=
  {| page_frames := [];
     locator_count _ _ := Returned 0;
     locator_is_editable _ _ := Returned false;
     locator_get_attribute_type _ _ := Returned None;
     locator_is_visible _ _ := Returned true;
     locator_is_enabled _ _ := Returned true;
     get_locator_for_node_id _ _ := Returned None;
     get_html_selector _ := Returned None |}.

(** A page with two frames in which no selector of [sample_selectors]
    matches exactly one element: the playwright selector matches none, the
    css selector two, and the count of the xpath selector raises. *)
Definition ambiguous_browser : BrowserDriver :=
  {| page_frames := [0; 1];
     locator_count _ selector :=
       if decide (selector = "#b1"%string) then Returned 2
       else if decide (selector = "//button[1]"%string) then Raised
       else Returned 0;
     locator_is_editable _ _ := Returned false;
     locator_get_attribute_type _ _ := Returned None;
     locator_is_visible _ _ := Returned true;
     locator_is_enabled _ _ := Returned true;
     get_locator_for_node_id _ _ := Returned (Some 0);
     get_html_selector _ := Returned None |}.

(** The page of [sample_browser] with the element not visible, and with the
    element not visible and an enabled probe that raises. *)
Definition invisible_browser : BrowserDriver :=
  {| page_frames := page_frames sample_browser;
     locator_count := locator_count sample_browser;
     locator_is_editable _ _ := Returned false;
     locator_get_attribute_type _ _ := Returned None;
     locator_is_visible _ _ := Returned false;
     locator_is_enabled _ _ := Returned true;
     get_locator_for_node_id := get_locator_for_node_id sample_browser;
     get_html_selector := get_html_selector sample_browser |}.

Definition detached_browser : BrowserDriver :=
  {| page_frames := page_frames sample_browser;
     locator_count := locator_count sample_browser;
     locator_is_editable _ _ := Returned false;
     locator_get_attribute_type _ _ := Returned None;
     locator_is_visible _ _ := Returned false;
     locator_is_enabled _ _ := Raised;
     get_locator_for_node_id := get_locator_for_node_id sample_browser;
     get_html_selector := get_html_selector sample_browser |}.

Definition cached (s : NodeSelectors) : ComputedDomAttributes :=
  with_selectors default_computed s.

Definition sample_snapshot : BrowserSnapshot :=
  {| metadata_url := "https://example.org";
     a11y_tree_raw :=
       mkA11yNode "WebArea" "" [] None None None None None None None None None |}.

(** An interaction node "B1", a node without id, and a state in which the
    computed attributes they refer to (object 0) carry [sample_selectors]. *)
Definition button_node : SNode :=
  sample_node (Some "B1"%string) INTERACTION (Known BUTTON) "Submit" [] (Some no_flags).

Definition anonymous_node : SNode :=
  sample_node None OTHER (Known WEBAREA) "" [] (Some no_flags).

Definition cached_world : World :=
  {| heap := [cached sample_selectors]; trace := [] |}.

(** ** Sample payloads *)

Definition a11y_leaf (r name : string) (id : option string) (hidden_flag : option bool)
  : A11yNode :=
  mkA11yNode r name [] id None None None None None None None hidden_flag.

(** A page whose only child is a text node "secret" with the given value of
    the [hidden] key. *)
Definition page_with_text (hidden_flag : option bool) : A11yNode :=
  mkA11yNode "WebArea" "" [a11y_leaf "text" "secret" None hidden_flag]
    None None None None None None None None None.

(** A button "B1" that has a text child. *)
Definition button_with_label : A11yNode :=
  mkA11yNode "button" "Submit" [a11y_leaf "text" "Submit" None None]
    (Some "B1"%string) None None None None None None None None.

(** The spec's end-to-end payload: a page with the button "B1". *)
Definition page_with_button : A11yNode :=
  mkA11yNode "WebArea" "" [a11y_leaf "button" "Submit" (Some "B1"%string) None]
    None None None None None None None None None.

(** A node "x" whose role string is not a member of the role table. *)
Definition custom_widget : A11yNode := a11y_leaf "custom" "x" (Some "x"%string) None.

(** The graph of a payload and the heap it is built in, from an empty heap. *)
Definition built (payload : A11yNode) : SNode * Heap := from_a11y_node payload "" [].

Definition sample_action (id : string) : Action :=
  {| action_id := id; action_description := "click"; action_category := "actions";
     action_params := [] |}.

Definition sample_context (payload : A11yNode) : ProcessedBrowserSnapshot :=
  {| context_node := (built payload).1; context_snapshot := sample_snapshot |}.

Definition built_world (payload : A11yNode) : World :=
  {| heap := (built payload).2; trace := [] |}.

(** A page "root" whose only child has no id, no text and no children. *)
Definition page_with_blank_child : A11yNode :=
  mkA11yNode "WebArea" "" [a11y_leaf "WebArea" "" None None]
    (Some "root"%string) None None None None None None None None.

(** A predicate that looks at the children: it accepts every node that has
    children and, of the leaves, those without id. *)
Definition has_children_or_no_id (n : SNode) : bool :=
  match children n with
  | [] => bool_decide (node_id n = None)
  | _ :: _ => true
  end.

(** A predicate on the kind of a node. *)
Definition not_text (n : SNode) : bool := negb (bool_decide (node_type n = TEXT)).

(** ** Definitions for the further properties of the graph *)

Section MoreTreePredicates.
Context `{RT : RoleTable NodeRole}.

(** The first node, in pre-order, that carries the id. *)
Definition first_with_id (id : string) (t : DomNode NodeRole)
  : option (DomNode NodeRole) :=
  head (filter (λ n, node_id n = Some id) (flatten false t)).

(** The interaction node that [to_interaction_node] builds from a node. *)
Definition coerced (n : DomNode NodeRole) : DomNode NodeRole :=
  DomNode_init (node_id n) INTERACTION (role n) (text n) []
    (attributes n) (computed_attributes n) (parent n).

(** The kind [from_a11y_node] gives to a node with this id and role. *)
Definition ingest_kind (id : option string) (r : Role NodeRole) : NodeType :=
  match r with
  | Known k =>
      if decide (role_category k = CatText) then TEXT
      else match id with Some _ => INTERACTION | None => OTHER end
  | Unknown _ => match id with Some _ => INTERACTION | None => OTHER end
  end.

(** A node that [subtree_filter] eliminates as a dead branch once its
    children are gone: no id, no children, blank text. *)
Definition is_dead (n : DomNode NodeRole) : Prop :=
  node_id n = None ∧ children n = [] ∧ strip (text n) = EmptyString.

End MoreTreePredicates.

(** The nodes of a payload, in pre-order. *)
Fixpoint a11y_nodes (node : A11yNode) : list A11yNode :=
  node :: concat (map a11y_nodes (a11y_children node)).

Section IngestPredicates.
Context `{RT : RoleTable NodeRole}.

(** A node of the graph mirrors a node of the payload: the id and the name
    are copied, the role is the classified role string, the kind is the one
    [from_a11y_node] assigns, the attributes are those of the payload node,
    there is no parent and there are as many children. *)
Definition mirrors (a : A11yNode) (n : DomNode NodeRole) : Prop :=
  node_id n = a11y_id a ∧
  text n = a11y_name a ∧
  role n = from_value (a11y_role a) ∧
  node_type n = ingest_kind (a11y_id a) (from_value (a11y_role a)) ∧
  attributes n = Some (DomAttributes_from_a11y_node a) ∧
  parent n = None ∧
  length (children n) = length (a11y_children a).

(** The references to computed attributes held by the nodes of a tree. *)
Definition refs (t : DomNode NodeRole) : list nat :=
  map computed_attributes (flatten false t).

End IngestPredicates.

(** The id under which a payload node is listed as an interaction node: the
    node has an id and its role string is a known role that is not textual. *)
Definition a11y_interaction_id `{RT : RoleTable NodeRole} (a : A11yNode)
  : option string :=
  match from_value (NodeRole := NodeRole) (a11y_role a) with
  | Known k => if decide (role_category k = CatText) then None else a11y_id a
  | Unknown _ => None
  end.

(** No character of the string is a colon. *)
Definition no_colon (s : string) : Prop :=
  ¬ In ":"%char (list_ascii_of_string s).

(** The live-state probes that [compute_attributes] makes on an accepted
    locator, in order: editable; the type attribute, if editable; visible;
    enabled.  A probe that raises is the last one. *)
Definition live_state_events (browser : BrowserDriver) (l : Locator) : list Event :=
  EvIsEditable l ::
  match locator_is_editable browser l.1 l.2 with
  | Raised => []
  | Returned editable =>
      (if editable then [EvGetAttributeType l] else [])
      ++ match (if editable then locator_get_attribute_type browser l.1 l.2
                else Returned None) with
         | Raised => []
         | Returned _ =>
             EvIsVisible l ::
             match locator_is_visible browser l.1 l.2 with
             | Raised => []
             | Returned _ => [EvIsEnabled l]
             end
         end
  end.

(** The bundle of a resolved locator: the cached bundle with the accepted
    selector as playwright selector. *)
Definition with_primary (sels : NodeSelectors) (selector : string) : NodeSelectors :=
  {| playwright_selector := Some selector;
     css_selector := css_selector sels;
     xpath_selector := xpath_selector sels;
     notte_selector := notte_selector sels;
     in_iframe := in_iframe sels;
     in_shadow_root := in_shadow_root sels;
     iframe_parent_css_selectors := iframe_parent_css_selectors sels |}.

(** The bundle that [fill_node_selectors] builds from the selectors the
    driver derives. *)
Definition fallback_bundle (hs : HtmlSelectors) : NodeSelectors :=
  {| playwright_selector := hs_playwright_selector hs;
     css_selector := hs_css_selector hs;
     xpath_selector := hs_xpath_selector hs;
     notte_selector := EmptyString;
     in_iframe := false;
     in_shadow_root := false;
     iframe_parent_css_selectors := [] |}.

(** ** The error buffer and the attribute dictionaries *)

(** The sample that [add_error] takes from a value. *)
Definition sample_of (v : PyValue) : string := py_slice_to 50 (py_str v).

(** What [add_error] makes of the samples of a key. *)
Definition recorded (values : list (string * PyValue)) (key : string)
    (samples : list string) : list string :=
  match dict_get key values with
  | Some v =>
      if decide (length samples < max_samples_per_key ∧ sample_of v ∉ samples)
      then samples ++ [sample_of v]
      else samples
  | None => samples
  end.

(** The bound that the buffer keeps for the samples of one key. *)
Definition samples_ok (samples : list string) : Prop :=
  length samples ≤ max_samples_per_key ∧ NoDup samples ∧
  Forall (λ s, String.length s ≤ 50) samples.

Definition buffer_ok (buffer : list (string * list string)) : Prop :=
  NoDup (dict_keys buffer) ∧ Forall (λ kv, samples_ok kv.2) buffer.

(** The buffers that the program can hold: empty at the start, then changed
    by [add_error], [flush] and [DomAttributes.init] only. *)
Inductive reachable : list (string * list string) → Prop :=
  | reachable_start : reachable []
  | reachable_add_error extra_keys values buffer :
      reachable buffer → reachable (add_error extra_keys values buffer).2
  | reachable_flush buffer :
      reachable buffer → reachable (flush buffer).2
  | reachable_init kwargs buffer :
      reachable buffer → reachable (DomAttributes_init kwargs buffer).2.

(** The keys of [kwargs] that end up under the name [f]. *)
Definition renamed_to (f : string) (kv : string * PyValue) : Prop :=
  skipped_key kv.1 = false ∧ replace_dash kv.1 = f.

#[global] Instance renamed_to_dec f kv : Decision (renamed_to f kv).
Proof. unfold renamed_to. apply _. Defined.

(** A name without underscore. *)
Fixpoint no_underscore (s : string) : Prop :=
  match s with
  | EmptyString => True
  | String c s => c ≠ "_"%char ∧ no_underscore s
  end.

(** The test of [relevant_attrs] on a key, apart from the value. *)
Definition selected_attr (include_attributes : option (gset string))
    (key : string) : Prop :=
  match include_attributes with
  | None => key ∉ disabled_by_default
  | Some included => key ∈ included
  end.

Definition sample_kwargs : list (string * PyValue) :=
  [ ("class", VStr "btn primary"); ("aria-label", VStr "Close");
    ("data-src", VStr "a.png"); ("hidden", VBool false);
    ("onclick", VStr "go()"); ("style", VStr "color: red");
    ("tabindex", VInt 3) ]%string.

(** The arguments of [DomAttributes.init] after the value of "class" has
    moved to "class_name", and after the comprehension. *)
Definition class_moved (kwargs : list (string * PyValue))
  : list (string * PyValue) :=
  match dict_get "class" kwargs with
  | Some v => dict_del "class" (dict_set "class_name" v kwargs)
  | None => kwargs
  end.

Definition init_items (kwargs : list (string * PyValue))
  : list (string * PyValue) :=
  renamed_items (class_moved kwargs).

(** The names that [replace_dash] sends to a given name: any of its
    underscores may have been a dash. *)
Fixpoint dash_variants (f : string) : list string :=
  match f with
  | EmptyString => [EmptyString]
  | String c f =>
      if Ascii.eqb c "_"
      then (String "_" <$> dash_variants f) ++ (String "-" <$> dash_variants f)
      else String c <$> dash_variants f
  end.

(** The field [f] of an instance. *)
Definition field (f : string) (instance : list (string * PyValue)) : PyValue :=
  default VNone (dict_get f instance).

(** One turn of the loop of [relevant_attrs]. *)
Definition attrs_step (include_attributes : option (gset string))
    (max_len_per_attribute : option Z)
    (attrs : list (string * PyValue)) (kv : string * PyValue)
  : list (string * PyValue) :=
  if decide ((kv.1 ∉ filter (λ k, k ∉ default ∅ include_attributes)
                       disabled_by_default)
             ∧ (include_attributes = None
                ∨ kv.1 ∈ default ∅ include_attributes)
             ∧ kv.2 ≠ VNone)
  then dict_set kv.1 (shortened max_len_per_attribute kv.2) attrs
  else attrs.

#[global] Instance selected_attr_dec include_attributes key :
  Decision (selected_attr include_attributes key).
Proof. unfold selected_attr. destruct include_attributes; apply _. Defined.

(** The attributes that [relevant_attrs] keeps. *)
Definition kept_attr (include_attributes : option (gset string))
    (kv : string * PyValue) : Prop :=
  selected_attr include_attributes kv.1 ∧ kv.2 ≠ VNone.

#[global] Instance kept_attr_dec include_attributes kv :
  Decision (kept_attr include_attributes kv).
Proof. unfold kept_attr. apply _. Defined.

(** * Properties *)

(** ** Candidate selectors *)

Lemma selectors_list_shape (sels : NodeSelectors) :
  selectors_list sels =
    match playwright_selector sels with
    | Some p => [p; css_selector sels; xpath_selector sels]
    | None => [css_selector sels; xpath_selector sels]
    end.
Proof. unfold selectors_list. by destruct (playwright_selector sels). Qed.

Lemma selectors_list_length (sels : NodeSelectors) :
  2 ≤ length (selectors_list sels) ≤ 3.
Proof. rewrite selectors_list_shape. destruct (playwright_selector sels); simpl; lia. Qed.

Lemma add_trace_nil (w : World) : add_trace [] w = w.
Proof. destruct w as [h t]. unfold add_trace; simpl. by rewrite app_nil_r. Qed.

Lemma add_trace_log_event (e : Event) (evs : list Event) (w : World) :
  add_trace evs (log_event e w) = add_trace (e :: evs) w.
Proof. unfold add_trace, log_event; simpl. by rewrite <- app_assoc. Qed.

Lemma log_event_add_trace (e : Event) (w : World) :
  log_event e w = add_trace [e] w.
Proof. reflexivity. Qed.

Section GetValidLocator.
Context `{RT : RoleTable NodeRole}.
Variable browser : BrowserDriver.

Lemma over_frames_scan sels selector (k : M (NodeRole := NodeRole) (Locator * string))
    (rest : list (string * Frame)) :
  (∀ w, k w = scan_outcome sels (probe_scan browser rest) w) →
  ∀ fs w,
    over_frames browser selector k fs w =
      scan_outcome sels
        (probe_scan browser (map (λ f, (selector, f)) fs ++ rest)) w.
Proof.
  intros Hk fs. induction fs as [|f fs IH]; intros w; simpl.
  - apply Hk.
  - unfold bind, try_await, is_unique; simpl.
    destruct (locator_count browser f selector) as [[|[|n]]|] eqn:E; simpl;
      try (rewrite IH; destruct (probe_scan browser (_ ++ _)) as [ps [[s f']|]];
           simpl; by rewrite add_trace_log_event).
    unfold ret. by rewrite log_event_add_trace.
Qed.

Lemma over_selectors_scan sels ss w :
  over_selectors (NodeRole := NodeRole) browser sels ss w =
    scan_outcome sels
      (probe_scan browser
         (flat_map (λ selector, map (λ frame, (selector, frame)) (page_frames browser))
            ss)) w.
Proof.
  revert w. induction ss as [|s ss IH]; intros w; simpl.
  - unfold raise. by rewrite add_trace_nil.
  - by apply over_frames_scan.
Qed.

(** The two nested loops of [get_valid_locator] are a linear scan of
    [candidate_pairs]. *)
Lemma get_valid_locator_scan sels w :
  get_valid_locator (NodeRole := NodeRole) browser sels w =
    scan_outcome sels (probe_scan browser (candidate_pairs browser sels)) w.
Proof.
  unfold get_valid_locator. case_decide as Hlen.
  - pose proof (selectors_list_length sels). lia.
  - apply over_selectors_scan.
Qed.

(** A scan stops at the first accepted pair. *)
Lemma probe_scan_first pre p post :
  Forall (λ q, is_unique browser q = false) pre →
  is_unique browser p = true →
  probe_scan browser (pre ++ p :: post) = (pre ++ [p], Some p).
Proof.
  induction 1 as [|q pre Hq _ IH]; intros Hp; simpl.
  - by rewrite Hp.
  - rewrite Hq, IH by done. done.
Qed.

Lemma probe_scan_none ps :
  Forall (λ q, is_unique browser q = false) ps →
  probe_scan browser ps = (ps, None).
Proof.
  induction 1 as [|q ps Hq _ IH]; simpl; [done|]. by rewrite Hq, IH.
Qed.

(** Every list of pairs either has no accepted pair or splits at its first
    accepted pair. *)
Lemma first_unique_split ps :
  Forall (λ q, is_unique browser q = false) ps ∨
  ∃ pre p post,
    ps = pre ++ p :: post ∧
    Forall (λ q, is_unique browser q = false) pre ∧
    is_unique browser p = true.
Proof.
  induction ps as [|q ps IH]; [by left|].
  destruct (is_unique browser q) eqn:Hq.
  - right. exists [], q, ps. by repeat split.
  - destruct IH as [IH|(pre & p & post & -> & Hpre & Hp)].
    + left. by constructor.
    + right. exists (q :: pre), p, post. repeat split; [|done]. by constructor.
Qed.

Lemma is_unique_true p :
  is_unique browser p = true ↔ locator_count browser p.2 p.1 = Returned 1.
Proof.
  unfold is_unique. destruct (locator_count browser p.2 p.1) as [[|[|n]]|];
    naive_solver.
Qed.

End GetValidLocator.

Section SelectorProbing.
Context `{RT : RoleTable NodeRole}.

(** C10.  The candidate list of a selector bundle is never empty: it is the
    css and the xpath selector, in that order, with the playwright selector
    in front when there is one.  Hence [get_valid_locator] never raises its
    "No selectors found" error, whatever the page and the url reported. *)
Theorem selectors_never_empty (sels : NodeSelectors) :
  selectors_list sels ≠ [] ∧
  selectors_list sels =
    match playwright_selector sels with Some p => [p] | None => [] end
    ++ [css_selector sels; xpath_selector sels] ∧
  ∀ (browser : BrowserDriver) (w : World) (url : option string),
    (get_valid_locator (NodeRole := NodeRole) browser sels w).1
      ≠ inl (InvalidInternalCheckError NoSelectorsFound url).
Proof.
  split_and!.
  - rewrite selectors_list_shape. by destruct (playwright_selector sels).
  - rewrite selectors_list_shape. by destruct (playwright_selector sels).
  - intros browser w url. rewrite get_valid_locator_scan.
    by destruct (probe_scan browser _) as [ps [[s f]|]].
Qed.

(** C3.  [get_valid_locator] visits the (selector, frame) pairs in the order
    of [candidate_pairs] (playwright selector, css, xpath; for each, the
    frames in page order), returns the first pair whose count is exactly 1
    and probes nothing after it: the probes it has made are the pairs up to
    and including the accepted one.  In particular, with three candidates of
    which the first matches no element in any frame and the second matches
    exactly one element in some frame, the second is returned and the probes
    are those of the first selector followed by those of the second up to
    the accepting frame: the third selector is never probed. *)
Theorem get_valid_locator_first_unique :
  (∀ (browser : BrowserDriver) (sels : NodeSelectors) (w : World)
     (pre post : list (string * Frame)) (sel : string) (f : Frame),
     candidate_pairs browser sels = pre ++ (sel, f) :: post →
     Forall (λ q, locator_count browser q.2 q.1 ≠ Returned 1) pre →
     locator_count browser f sel = Returned 1 →
     get_valid_locator (NodeRole := NodeRole) browser sels w =
       (inr ((f, sel), sel), add_trace (count_events (pre ++ [(sel, f)])) w)) ∧
  (∀ (browser : BrowserDriver) (sels : NodeSelectors) (w : World)
     (first : string) (fpre fpost : list Frame) (f : Frame),
     playwright_selector sels = Some first →
     Forall (λ g, locator_count browser g first = Returned 0) (page_frames browser) →
     page_frames browser = fpre ++ f :: fpost →
     Forall (λ g, locator_count browser g (css_selector sels) ≠ Returned 1) fpre →
     locator_count browser f (css_selector sels) = Returned 1 →
     let probes :=
       map (λ g, EvCount first g) (page_frames browser)
       ++ map (λ g, EvCount (css_selector sels) g) (fpre ++ [f]) in
     get_valid_locator (NodeRole := NodeRole) browser sels w =
       (inr ((f, css_selector sels), css_selector sels), add_trace probes w) ∧
     (xpath_selector sels ≠ first → xpath_selector sels ≠ css_selector sels →
      ∀ g, EvCount (xpath_selector sels) g ∉ probes)).
Proof.
  assert (Hgen : ∀ (browser : BrowserDriver) (sels : NodeSelectors) (w : World)
     (pre post : list (string * Frame)) (sel : string) (f : Frame),
     candidate_pairs browser sels = pre ++ (sel, f) :: post →
     Forall (λ q, locator_count browser q.2 q.1 ≠ Returned 1) pre →
     locator_count browser f sel = Returned 1 →
     get_valid_locator (NodeRole := NodeRole) browser sels w =
       (inr ((f, sel), sel), add_trace (count_events (pre ++ [(sel, f)])) w)).
  { intros browser sels w pre post sel f Hpairs Hpre Hf.
    rewrite get_valid_locator_scan, Hpairs, (probe_scan_first browser pre (sel, f) post).
    - done.
    - eapply Forall_impl; [exact Hpre|]. intros q Hq; simpl in Hq.
      destruct (is_unique browser q) eqn:E; [|done].
      by apply is_unique_true in E.
    - by apply is_unique_true. }
  split; [exact Hgen|].
  intros browser sels w first fpre fpost f Hfirst Hzero Hframes Hcss Hf probes.
  split.
  - rewrite (Hgen browser sels w
               (map (λ g, (first, g)) (page_frames browser)
                ++ map (λ g, (css_selector sels, g)) fpre)
               (map (λ g, (css_selector sels, g)) fpost
                ++ map (λ g, (xpath_selector sels, g)) (page_frames browser))
               (css_selector sels) f).
    + unfold probes, count_events. f_equal. f_equal.
      rewrite !map_app, !map_map. simpl. by rewrite <- !app_assoc.
    + unfold candidate_pairs. rewrite selectors_list_shape, Hfirst. simpl.
      rewrite app_nil_r. rewrite Hframes at 2. rewrite map_app. simpl.
      by rewrite <- !app_assoc.
    + apply Forall_app. split.
      * apply Forall_map. eapply Forall_impl; [exact Hzero|].
        intros g Hg; simpl. by rewrite Hg.
      * apply Forall_map. eapply Forall_impl; [exact Hcss|]. done.
    + done.
  - intros Hne1 Hne2 g Hin. unfold probes in Hin.
    apply elem_of_app in Hin as [Hin|Hin];
      apply list_elem_of_fmap in Hin as (g' & Heq & _); congruence.
Qed.

End SelectorProbing.

Lemma get_valid_locator_first_unique_witness :
  get_valid_locator (NodeRole := SampleRole) sample_browser sample_selectors
      {| heap := []; trace := [] |}
    = (inr ((0, "#b1"), "#b1"),
       {| heap := [];
          trace := [EvCount "internal:role=button" 0; EvCount "#b1" 0] |})%string
  ∧ ∀ g, EvCount "//button[1]" g
         ∉ [EvCount "internal:role=button" 0; EvCount "#b1" 0]%string.
Proof.
  pose proof (proj1 (get_valid_locator_first_unique (NodeRole := SampleRole))
                sample_browser sample_selectors {| heap := []; trace := [] |}
                [("internal:role=button", 0)] [("//button[1]", 0)] "#b1" 0)%string
    as Hgen.
  pose proof (proj2 (get_valid_locator_first_unique (NodeRole := SampleRole))
                sample_browser sample_selectors {| heap := []; trace := [] |}
                "internal:role=button"%string [] [] 0) as Hpart.
  simpl in Hpart.
  destruct Hpart as [_ Hpart]; try done.
  - repeat constructor.
  - split.
    + apply Hgen; try done. repeat constructor. simpl. done.
    + apply Hpart; done.
Defined.

(** ** State relations kept by the resolution monad *)

Section Respects.
Context `{RT : RoleTable NodeRole}.
Variable R : World → World → Prop.
Variable allowed : Event → Prop.
Hypothesis R_refl : ∀ w, R w w.
Hypothesis R_trans : ∀ a b c, R a b → R b c → R a c.
Hypothesis R_log : ∀ e w, allowed e → R w (log_event e w).

Lemma respects_ret {A} (a : A) : respects R (ret (NodeRole := NodeRole) a).
Proof. intros w. apply R_refl. Qed.

Lemma respects_raise {A} (e : error NodeRole) : respects R (raise (A := A) e).
Proof. intros w. apply R_refl. Qed.

Lemma respects_read_heap : respects R (read_heap (NodeRole := NodeRole)).
Proof. intros w. apply R_refl. Qed.

Lemma respects_lift_result {A} (r : error NodeRole + A) : respects R (lift_result r).
Proof. intros w. apply R_refl. Qed.

Lemma respects_await {A} ev (r : Probe A) :
  allowed ev → respects R (await (NodeRole := NodeRole) ev r).
Proof. intros Hev w. unfold await. destruct r; by apply R_log. Qed.

Lemma respects_try_await {A} ev (r : Probe A) :
  allowed ev → respects R (try_await (NodeRole := NodeRole) ev r).
Proof. intros Hev w. by apply R_log. Qed.

Lemma respects_bind {A B} (m : M (NodeRole := NodeRole) A) (k : A → M B) :
  respects R m → (∀ a, respects R (k a)) → respects R (bind m k).
Proof.
  intros Hm Hk w. unfold bind. specialize (Hm w).
  destruct (m w) as [[e|a] w']; simpl in *; [done|].
  eapply R_trans; [exact Hm|]. apply Hk.
Qed.

Hypothesis allowed_probes :
  ∀ e, is_fallback_event e = false → allowed e.

Lemma respects_over_frames browser selector (k : M (NodeRole := NodeRole) _) fs :
  respects R k → respects R (over_frames browser selector k fs).
Proof.
  intros Hk. induction fs as [|f fs IH]; simpl; [done|].
  apply respects_bind; [by apply respects_try_await, allowed_probes|].
  intros [[|[|n]]|]; by try apply respects_ret.
Qed.

Lemma respects_get_valid_locator browser sels :
  respects R (get_valid_locator (NodeRole := NodeRole) browser sels).
Proof.
  unfold get_valid_locator. case_decide as Hlen; [apply respects_raise|].
  clear Hlen. induction (selectors_list sels) as [|s ss IH]; simpl.
  - apply respects_raise.
  - by apply respects_over_frames.
Qed.

Lemma respects_resolve_with_selectors browser node sels :
  respects R (resolve_with_selectors (NodeRole := NodeRole) browser node sels).
Proof.
  unfold resolve_with_selectors.
  apply respects_bind; [apply respects_get_valid_locator|]. intros [locator selector].
  apply respects_bind; [by apply respects_await, allowed_probes|]. intros is_editable.
  apply respects_bind.
  { destruct is_editable; [by apply respects_await, allowed_probes|apply respects_ret]. }
  intros input_type.
  apply respects_bind; [by apply respects_await, allowed_probes|]. intros visible.
  apply respects_bind; [by apply respects_await, allowed_probes|]. intros enabled.
  destruct (negb visible || negb enabled); [apply respects_raise|apply respects_ret].
Qed.

End Respects.

(** ** The selector cache *)

Lemma same_flags_refl a : same_flags a a.
Proof. by repeat split. Qed.

Lemma same_flags_trans a b c : same_flags a b → same_flags b c → same_flags a c.
Proof.
  intros (?&?&?&?&?&?) (?&?&?&?&?&?). repeat split; congruence.
Qed.

Lemma cache_grows_refl h : cache_grows h h.
Proof. split; [done|]. intros r. split; [apply same_flags_refl|done]. Qed.

Lemma cache_grows_trans h1 h2 h3 :
  cache_grows h1 h2 → cache_grows h2 h3 → cache_grows h1 h3.
Proof.
  intros [Hl1 H1] [Hl2 H2]. split; [congruence|]. intros r.
  destruct (H1 r) as [Hf1 Hs1], (H2 r) as [Hf2 Hs2]. split.
  - eapply same_flags_trans; eauto.
  - eauto.
Qed.

(** Setting the selectors of an object that has none makes the cache grow. *)
Lemma cache_grows_set_selectors h r s :
  selectors (heap_get h r) = None → cache_grows h (set_selectors r s h).
Proof.
  intros Hnone. unfold cache_grows, set_selectors, heap_get in *. split.
  - apply length_insert.
  - intros r'. rewrite list_lookup_total_insert. case_decide as Hr.
    + destruct Hr as [<- _]. split; [by repeat split|]. intros s'. by rewrite Hnone.
    + split; [apply same_flags_refl|done].
Qed.

Lemma read_only_refl w : read_only w w.
Proof. split; [done|]. exists []. by rewrite app_nil_r. Qed.

Lemma read_only_trans a b c : read_only a b → read_only b c → read_only a c.
Proof.
  intros [Hh1 (e1 & Ht1 & Hf1)] [Hh2 (e2 & Ht2 & Hf2)]. split; [congruence|].
  exists (e1 ++ e2). split.
  - by rewrite Ht2, Ht1, <- app_assoc.
  - by apply Forall_app.
Qed.

Lemma read_only_log e w : is_fallback_event e = false → read_only w (log_event e w).
Proof. intros He. split; [done|]. exists [e]. split; [done|]. by constructor. Qed.

Section Cache.
Context `{RT : RoleTable NodeRole}.
Variable browser : BrowserDriver.

Lemma read_only_grows w w' : read_only w w' → grows w w'.
Proof. intros [Hh _]. unfold grows. rewrite Hh. apply cache_grows_refl. Qed.

(** With selectors on the node, [fill_node_selectors] does nothing. *)
Lemma fill_node_selectors_cached (node : DomNode NodeRole) snapshot w sels :
  selectors (heap_get (heap w) (computed_attributes node)) = Some sels →
  fill_node_selectors browser node snapshot w = (inr tt, w).
Proof.
  intros Hsel. unfold fill_node_selectors, bind, read_heap. simpl. by rewrite Hsel.
Qed.

Lemma fill_node_selectors_grows (node : DomNode NodeRole) snapshot :
  respects grows (fill_node_selectors browser node snapshot).
Proof.
  intros w. unfold fill_node_selectors, bind, read_heap, await, raise, ret, write_heap.
  simpl. unfold grows.
  destruct (selectors (heap_get (heap w) (computed_attributes node))) eqn:Hsel;
    simpl; [apply cache_grows_refl|].
  destruct (node_id node) as [id|]; simpl; [|apply cache_grows_refl].
  destruct (get_locator_for_node_id browser _ id) as [[l|]|]; simpl;
    try apply cache_grows_refl.
  destruct (get_html_selector browser l) as [[hs|]|]; simpl;
    try apply cache_grows_refl.
  by apply cache_grows_set_selectors.
Qed.

(** Without selectors on the node, and with a driver that finds a locator
    and derives selectors from it, [fill_node_selectors] caches the bundle on
    the node's computed attributes after the two fallback calls. *)
Lemma fill_node_selectors_fills (node : DomNode NodeRole) snapshot w id l hs :
  computed_attributes node < length (heap w) →
  selectors (heap_get (heap w) (computed_attributes node)) = None →
  node_id node = Some id →
  get_locator_for_node_id browser (a11y_tree_raw snapshot) id = Returned (Some l) →
  get_html_selector browser l = Returned (Some hs) →
  let bundle :=
    {| playwright_selector := hs_playwright_selector hs;
       css_selector := hs_css_selector hs;
       xpath_selector := hs_xpath_selector hs;
       notte_selector := EmptyString; in_iframe := false; in_shadow_root := false;
       iframe_parent_css_selectors := [] |} in
  let w' := (fill_node_selectors browser node snapshot w).2 in
  (fill_node_selectors browser node snapshot w).1 = inr tt ∧
  selectors (heap_get (heap w') (computed_attributes node)) = Some bundle ∧
  trace w' = trace w ++ [EvGetLocatorForNodeId id; EvGetHtmlSelector l].
Proof.
  intros Hlt Hnone Hid Hloc Hhs bundle w'. subst w'.
  unfold fill_node_selectors, bind, read_heap, await, write_heap. simpl.
  rewrite Hnone, Hid. simpl. rewrite Hloc. simpl. rewrite Hhs. simpl.
  split_and!; [done| |by rewrite <- app_assoc].
  unfold set_selectors, heap_get. by rewrite list_lookup_total_insert_eq.
Qed.

Lemma compute_attributes_cached (node : DomNode NodeRole) snapshot w i sels :
  node_id node = Some i →
  selectors (heap_get (heap w) (computed_attributes node)) = Some sels →
  compute_attributes browser node snapshot w =
    resolve_with_selectors browser node sels w.
Proof.
  intros Hid Hsel. unfold compute_attributes. rewrite Hid.
  unfold bind at 1. unfold read_heap at 1. simpl. rewrite Hsel.
  unfold bind at 1. unfold ret at 1. done.
Qed.

Lemma resolve_with_selectors_read_only (node : DomNode NodeRole) sels :
  respects read_only (resolve_with_selectors browser node sels).
Proof.
  eapply respects_resolve_with_selectors
    with (allowed := λ e, is_fallback_event e = false).
  - apply read_only_refl.
  - apply read_only_trans.
  - apply read_only_log.
  - done.
Qed.

Lemma grows_refl w : grows w w.
Proof. apply cache_grows_refl. Qed.

Lemma grows_trans a b c : grows a b → grows b c → grows a c.
Proof. apply cache_grows_trans. Qed.

Lemma grows_log e w : grows w (log_event e w).
Proof. apply cache_grows_refl. Qed.

Lemma compute_attributes_grows (node : DomNode NodeRole) snapshot :
  respects grows (compute_attributes browser node snapshot).
Proof.
  pose proof grows_refl as Hr. pose proof grows_trans as Ht.
  unfold compute_attributes. destruct (node_id node); [|by apply respects_raise].
  apply respects_bind; [done|by apply respects_read_heap|]. intros h.
  apply respects_bind; [done| |].
  - destruct (selectors (heap_get h _)); [by apply respects_ret|].
    apply respects_bind; [done|apply fill_node_selectors_grows|]. intros _.
    apply respects_bind; [done|by apply respects_read_heap|]. intros h'.
    by apply respects_ret.
  - intros [sels|]; [|by apply respects_raise].
    intros w. apply read_only_grows, resolve_with_selectors_read_only.
Qed.

Lemma forward_grows action params_values (context : ProcessedBrowserSnapshot) :
  respects grows (forward browser action params_values context).
Proof.
  pose proof grows_refl as Hr. pose proof grows_trans as Ht.
  unfold forward.
  apply respects_bind; [done|by apply respects_read_heap|]. intros h.
  apply respects_bind; [done|by apply respects_lift_result|]. intros [node|]; simpl.
  - case_decide; [by apply respects_raise|].
    apply respects_bind; [done|apply compute_attributes_grows|]. intros rl.
    by apply respects_ret.
  - by apply respects_raise.
Qed.

Lemma forward_all_grows requests w :
  grows w (forward_all browser requests w).
Proof.
  revert w. induction requests as [|req reqs IH]; intros w; simpl.
  - apply grows_refl.
  - eapply grows_trans; [apply forward_grows|]. apply IH.
Qed.

End Cache.

Section Resolve.
Context `{RT : RoleTable NodeRole}.
Variable browser : BrowserDriver.

Lemma accepted_pair_none sels :
  accepted_pair browser sels = None ↔
  Forall (λ q, locator_count browser q.2 q.1 ≠ Returned 1)
         (candidate_pairs browser sels).
Proof.
  unfold accepted_pair.
  assert (Hequiv : ∀ ps,
    Forall (λ q, locator_count browser q.2 q.1 ≠ Returned 1) ps ↔
    Forall (λ q, is_unique browser q = false) ps).
  { intros ps. apply Forall_proper; [|done]. intros q.
    rewrite <- is_unique_true. by destruct (is_unique browser q). }
  rewrite Hequiv.
  destruct (first_unique_split browser (candidate_pairs browser sels))
    as [Hnone|(pre & p & post & Heq & Hpre & Hp)].
  - by rewrite probe_scan_none.
  - rewrite Heq, probe_scan_first by done. simpl. split; [done|].
    intros Hall. apply Forall_app in Hall as [_ Hall].
    apply Forall_cons in Hall as [Hp' _]. congruence.
Qed.

(** What [resolve_with_selectors] returns, from the accepted pair and the
    four live-state probes on it. *)
Lemma resolve_with_selectors_result (node : DomNode NodeRole) sels w :
  (resolve_with_selectors browser node sels w).1 =
    match accepted_pair browser sels with
    | None => inl (FailedUniqueLocatorResolutionError sels)
    | Some (sel, f) =>
        match locator_is_editable browser f sel with
        | Raised => inl DriverException
        | Returned editable =>
            match (if editable then locator_get_attribute_type browser f sel
                   else Returned None) with
            | Raised => inl DriverException
            | Returned input_type =>
                match locator_is_visible browser f sel with
                | Raised => inl DriverException
                | Returned v =>
                    match locator_is_enabled browser f sel with
                    | Raised => inl DriverException
                    | Returned e =>
                        if negb v || negb e
                        then inl (FailedNodeResolutionError node)
                        else inr {| rl_role := role node;
                                    rl_is_editable := editable;
                                    rl_input_type := input_type;
                                    rl_selector :=
                                      {| playwright_selector := Some sel;
                                         css_selector := css_selector sels;
                                         xpath_selector := xpath_selector sels;
                                         notte_selector := notte_selector sels;
                                         in_iframe := in_iframe sels;
                                         in_shadow_root := in_shadow_root sels;
                                         iframe_parent_css_selectors :=
                                           iframe_parent_css_selectors sels |} |}
                    end
                end
            end
        end
    end.
Proof.
  unfold resolve_with_selectors, accepted_pair. unfold bind at 1.
  rewrite get_valid_locator_scan.
  destruct (probe_scan browser (candidate_pairs browser sels)) as [ps [[sel f]|]];
    simpl; [|done].
  unfold bind, await, ret, raise; simpl.
  destruct (locator_is_editable browser f sel) as [[|]|]; simpl; [| |done].
  - destruct (locator_get_attribute_type browser f sel) as [t|]; simpl; [|done].
    destruct (locator_is_visible browser f sel) as [v|]; simpl; [|done].
    destruct (locator_is_enabled browser f sel) as [e|]; simpl; [|done].
    by destruct (negb v || negb e).
  - destruct (locator_is_visible browser f sel) as [v|]; simpl; [|done].
    destruct (locator_is_enabled browser f sel) as [e|]; simpl; [|done].
    by destruct (negb v || negb e).
Qed.

(** C4 (as amended).  For a node that has an id and whose selectors are
    cached, [compute_attributes] fails with a node-resolution failure exactly
    when (a) no (selector, frame) pair returns the count 1 (a count of 0, a
    count of 2 or more and a probe that raises are all passed over), in
    which case the error is [FailedUniqueLocatorResolutionError], or (b) the
    live-state probes on the accepted pair all return and the visible or the
    enabled probe reports [False], in which case the error is
    [FailedNodeResolutionError].  It fails with the exception of the driver,
    which is no node-resolution failure, exactly when there is an accepted
    pair and one of the live-state probes on it raises, also when the
    element has been reported not visible before. *)
Theorem compute_attributes_failure_iff (node : DomNode NodeRole) snapshot w i sels :
  node_id node = Some i →
  selectors (heap_get (heap w) (computed_attributes node)) = Some sels →
  let r := (compute_attributes browser node snapshot w).1 in
  let no_unique_pair :=
    Forall (λ q, locator_count browser q.2 q.1 ≠ Returned 1)
           (candidate_pairs browser sels) in
  let not_actionable :=
    ∃ sel f, accepted_pair browser sels = Some (sel, f) ∧
             reported_not_actionable browser (f, sel) = true in
  let probe_fails :=
    ∃ sel f, accepted_pair browser sels = Some (sel, f) ∧
             probe_raised browser (f, sel) = true in
  (r = inl (FailedUniqueLocatorResolutionError sels) ↔ no_unique_pair) ∧
  (r = inl (FailedNodeResolutionError node) ↔ not_actionable) ∧
  ((∃ e, r = inl e ∧ is_node_resolution_failure e = true)
   ↔ no_unique_pair ∨ not_actionable) ∧
  (r = inl DriverException ↔ probe_fails) ∧
  (probe_fails → ¬ not_actionable).
Proof.
  intros Hid Hsel r no_unique_pair not_actionable probe_fails.
  assert (Hr : r = (resolve_with_selectors browser node sels w).1).
  { unfold r. by erewrite compute_attributes_cached. }
  rewrite resolve_with_selectors_result in Hr.
  unfold no_unique_pair, not_actionable, probe_fails.
  rewrite <- accepted_pair_none.
  clearbody r. subst r.
  destruct (accepted_pair browser sels) as [[sel f]|]; simpl.
  2: { split_and!; naive_solver. }
  assert (Hex :
    (∃ sel0 f0, Some (sel, f) = Some (sel0, f0) ∧
                reported_not_actionable browser (f0, sel0) = true)
    ↔ reported_not_actionable browser (f, sel) = true) by naive_solver.
  assert (Hex' :
    (∃ sel0 f0, Some (sel, f) = Some (sel0, f0) ∧
                probe_raised browser (f0, sel0) = true)
    ↔ probe_raised browser (f, sel) = true) by naive_solver.
  rewrite Hex, Hex'. unfold reported_not_actionable, probe_raised. simpl.
  destruct (locator_is_editable browser f sel) as [[|]|];
    destruct (locator_get_attribute_type browser f sel) as [t|];
    destruct (locator_is_visible browser f sel) as [[|]|];
    destruct (locator_is_enabled browser f sel) as [[|]|];
    simpl; split_and!; try split; naive_solver.
Qed.

End Resolve.

Lemma compute_attributes_failure_iff_witness :
  (compute_attributes ambiguous_browser button_node sample_snapshot
     cached_world).1
    = inl (FailedUniqueLocatorResolutionError sample_selectors) ∧
  (compute_attributes invisible_browser button_node sample_snapshot
     cached_world).1
    = inl (FailedNodeResolutionError button_node) ∧
  (compute_attributes detached_browser button_node sample_snapshot
     cached_world).1
    = inl DriverException.
Proof.
  split_and!.
  - apply (compute_attributes_failure_iff ambiguous_browser button_node
             sample_snapshot cached_world "B1" sample_selectors);
      [reflexivity..|].
    repeat (apply Forall_cons_2; [discriminate|]). apply Forall_nil_2.
  - apply (compute_attributes_failure_iff invisible_browser button_node
             sample_snapshot cached_world "B1" sample_selectors);
      [reflexivity..|].
    exists "#b1"%string, 0. split; reflexivity.
  - apply (compute_attributes_failure_iff detached_browser button_node
             sample_snapshot cached_world "B1" sample_selectors);
      [reflexivity..|].
    exists "#b1"%string, 0. split; reflexivity.
Defined.

(** C4, as stated, fails on a page that [forward] can meet: the node has
    its id and cached selectors, the css selector is accepted, the element
    is reported not visible, and the enabled probe raises.  The accepted
    element is not visible, yet the call does not fail with a
    node-resolution failure: the exception of the driver propagates, from
    [compute_attributes] and from [forward]. *)
Lemma compute_attributes_probe_raises_counterexample :
  let context :=
    {| context_node := button_node; context_snapshot := sample_snapshot |} in
  let r := (compute_attributes detached_browser button_node sample_snapshot
              cached_world).1 in
  node_id button_node = Some "B1"%string ∧
  selectors (heap_get (heap cached_world) (computed_attributes button_node))
    = Some sample_selectors ∧
  accepted_pair detached_browser sample_selectors = Some ("#b1"%string, 0) ∧
  locator_is_visible detached_browser 0 "#b1" = Returned false ∧
  r = inl DriverException ∧
  (forward detached_browser (sample_action "B1") [] context cached_world).1
    = inl DriverException ∧
  ¬ (∃ e, r = inl e ∧ is_node_resolution_failure e = true).
Proof.
  intros context r. split_and!; try reflexivity.
  intros (e & He & Hf). cbv in He. injection He as <-. discriminate Hf.
Qed.

(** The guard on the id: a node without id is refused with the internal
    check "node.id cannot be None" before anything is probed, whatever its
    selectors. *)
Lemma compute_attributes_id_guard :
  selectors (heap_get (heap cached_world) (computed_attributes anonymous_node))
    = Some sample_selectors ∧
  compute_attributes empty_browser anonymous_node sample_snapshot cached_world
    = (inl (InvalidInternalCheckError NodeIdIsNone
              (Some "https://example.org"%string)), cached_world).
Proof. split; reflexivity. Qed.

Section CacheOnce.
Context `{RT : RoleTable NodeRole}.
Variable browser : BrowserDriver.

(** C9.  If the selectors of a node are set, [fill_node_selectors] returns
    at once in the state it was called in, and [compute_attributes] leaves
    the whole heap as it is, makes no call of the fallback resolution, and
    builds its result from the cached bundle.  In general the cache only
    grows ([grows]): whatever [fill_node_selectors], [compute_attributes] or
    any sequence of [forward] calls does, every object keeps all its fields
    other than [selectors], and selectors that are set are never replaced,
    so each object goes from unset to set at most once.  The fields of a
    [DomNode] itself are never assigned by the resolution. *)
Theorem selectors_set_at_most_once (node : DomNode NodeRole) snapshot (w : World) :
  (∀ sels,
     selectors (heap_get (heap w) (computed_attributes node)) = Some sels →
     fill_node_selectors browser node snapshot w = (inr tt, w) ∧
     read_only w (compute_attributes browser node snapshot w).2 ∧
     ∀ rl, (compute_attributes browser node snapshot w).1 = inr rl →
           ∃ selector,
             rl_selector rl =
               {| playwright_selector := Some selector;
                  css_selector := css_selector sels;
                  xpath_selector := xpath_selector sels;
                  notte_selector := notte_selector sels;
                  in_iframe := in_iframe sels;
                  in_shadow_root := in_shadow_root sels;
                  iframe_parent_css_selectors := iframe_parent_css_selectors sels |}) ∧
  grows w (fill_node_selectors browser node snapshot w).2 ∧
  grows w (compute_attributes browser node snapshot w).2 ∧
  ∀ requests, grows w (forward_all browser requests w).
Proof.
  split_and!.
  - intros sels Hsel. split_and!.
    + by eapply fill_node_selectors_cached.
    + destruct (node_id node) as [i|] eqn:Hid.
      * erewrite compute_attributes_cached by done.
        apply resolve_with_selectors_read_only.
      * unfold compute_attributes. rewrite Hid. apply read_only_refl.
    + intros rl. destruct (node_id node) as [i|] eqn:Hid.
      * erewrite compute_attributes_cached by done.
        rewrite resolve_with_selectors_result.
        destruct (accepted_pair browser sels) as [[sel f]|]; [|done].
        destruct (locator_is_editable browser f sel) as [[|]|]; [| |done];
          destruct (locator_get_attribute_type browser f sel) as [t|];
          destruct (locator_is_visible browser f sel) as [[|]|];
          destruct (locator_is_enabled browser f sel) as [[|]|];
          simpl; try done; intros [= <-]; by eexists.
      * unfold compute_attributes. by rewrite Hid.
  - apply fill_node_selectors_grows.
  - apply compute_attributes_grows.
  - intros requests. apply forward_all_grows.
Qed.

End CacheOnce.

Lemma selectors_set_at_most_once_witness :
  fill_node_selectors sample_browser button_node sample_snapshot cached_world
    = (inr tt, cached_world) ∧
  heap (compute_attributes sample_browser button_node sample_snapshot cached_world).2
    = heap cached_world.
Proof.
  destruct (selectors_set_at_most_once sample_browser button_node sample_snapshot
              cached_world) as [Hcached _].
  destruct (Hcached sample_selectors) as (Hfill & [Hheap _] & _); [reflexivity|].
  split; [exact Hfill|exact Hheap].
Defined.

(** ** The node graph *)

Lemma elem_of_concat {A} (x : A) (ls : list (list A)) :
  x ∈ concat ls ↔ ∃ l, l ∈ ls ∧ x ∈ l.
Proof.
  split.
  - induction ls as [|l ls IH]; simpl; intros H.
    + by apply elem_of_nil in H.
    + apply elem_of_app in H as [H|H].
      * exists l. split; [apply list_elem_of_here|done].
      * destruct (IH H) as (l' & Hl' & Hx). exists l'.
        split; [by apply list_elem_of_further|done].
  - intros (l & Hl & Hx). induction Hl; simpl; apply elem_of_app; auto.
Qed.

Lemma Forall_concat {A} (P : A → Prop) (ls : list (list A)) :
  Forall P (concat ls) ↔ Forall (Forall P) ls.
Proof.
  induction ls as [|l ls IH]; simpl.
  - split; constructor.
  - rewrite Forall_app, Forall_cons. by rewrite IH.
Qed.

Section TreeProperties.
Context `{RT : RoleTable NodeRole}.
Implicit Types (n t : DomNode NodeRole) (cs : list (DomNode NodeRole)).

(** Induction on a node with the property available for all children. *)
Lemma DomNode_children_ind (P : DomNode NodeRole → Prop) :
  (∀ n, Forall P (children n) → P n) → ∀ n, P n.
Proof.
  intros IH. fix rec 1. intros n. apply IH.
  destruct n as [i ty r tx cs a ca si p]; simpl.
  induction cs as [|c cs IHcs]; constructor; [apply rec|exact IHcs].
Qed.

Lemma collect_some_omap {A B} (f : A → option B) (l : list A) (acc : list B) :
  collect_some f l acc = acc ++ omap f l.
Proof.
  revert acc. induction l as [|c l IH]; intros acc; simpl.
  - by rewrite app_nil_r.
  - destruct (f c); rewrite IH; [|done]. by rewrite <- app_assoc.
Qed.

Lemma inner_text_unfold n :
  inner_text n =
    match node_type n with
    | TEXT => text n
    | _ => join_space (inner_text_loop (children n) [])
    end.
Proof. by destruct n. Qed.

Lemma subtree_filter_inner_unfold ft n :
  subtree_filter_inner ft n =
    if negb (ft n) then None
    else
      let filtered_children := omap (subtree_filter_inner ft) (children n) in
      if bool_decide (node_id n = None)
         && bool_decide (length filtered_children = 0)
         && bool_decide (strip (text n) = EmptyString)
      then None
      else Some (DomNode_init (node_id n) (node_type n) (role n) (text n)
                   filtered_children (attributes n) (computed_attributes n)
                   (parent n)).
Proof.
  transitivity
    (if negb (ft n) then None
     else
       let filtered_children :=
         collect_some (subtree_filter_inner ft) (children n) [] in
       if bool_decide (node_id n = None)
          && bool_decide (length filtered_children = 0)
          && bool_decide (strip (text n) = EmptyString)
       then None
       else Some (DomNode_init (node_id n) (node_type n) (role n) (text n)
                    filtered_children (attributes n) (computed_attributes n)
                    (parent n))).
  - destruct n. reflexivity.
  - by rewrite collect_some_omap.
Qed.

Lemma find_unfold h n id :
  find h n id =
    if decide (node_id n = Some id)
    then match to_interaction_node h n with
         | inl e => inl e
         | inr m => inr (Some m)
         end
    else find_loop h id (children n).
Proof. by destruct n. Qed.

Lemma flatten_inner_unfold b n acc :
  flatten_inner b n acc =
    fold_left (λ acc child, flatten_inner b child acc) (children n)
      (if negb b || is_interaction n then acc ++ [n] else acc).
Proof. by destruct n. Qed.

Lemma flatten_inner_acc b n :
  ∀ acc, flatten_inner b n acc = acc ++ flatten_inner b n [].
Proof.
  induction n as [n IH] using DomNode_children_ind. intros acc.
  rewrite !(flatten_inner_unfold b n).
  assert (Hfold : ∀ cs, Forall (λ c, ∀ acc, flatten_inner b c acc
                                        = acc ++ flatten_inner b c []) cs →
            ∀ acc, fold_left (λ acc child, flatten_inner b child acc) cs acc
                   = acc ++ concat (map (λ c, flatten_inner b c []) cs)).
  { clear. induction 1 as [|c cs Hc _ IHcs]; intros acc; simpl.
    - by rewrite app_nil_r.
    - rewrite IHcs, Hc. by rewrite <- app_assoc. }
  rewrite !(Hfold _ IH).
  destruct (negb b || is_interaction n); simpl; by rewrite <- ?app_assoc.
Qed.

Lemma fold_flatten_inner b cs :
  ∀ acc, fold_left (λ acc child, flatten_inner b child acc) cs acc
         = acc ++ concat (map (flatten b) cs).
Proof.
  induction cs as [|c cs IH]; intros acc; simpl.
  - by rewrite app_nil_r.
  - rewrite IH, (flatten_inner_acc b c acc). by rewrite <- app_assoc.
Qed.

(** [flatten] lists a node, then the nodes of its children, in order. *)
Lemma flatten_unfold b n :
  flatten b n =
    (if negb b || is_interaction n then [n] else [])
    ++ concat (map (flatten b) (children n)).
Proof.
  unfold flatten at 1. rewrite flatten_inner_unfold, fold_flatten_inner.
  by destruct (negb b || is_interaction n).
Qed.

Lemma flatten_all_unfold n :
  flatten false n = n :: concat (map (flatten false) (children n)).
Proof. by rewrite flatten_unfold. Qed.

Lemma elem_of_flatten_self n : n ∈ flatten false n.
Proof. rewrite flatten_all_unfold. apply list_elem_of_here. Qed.

Lemma elem_of_flatten_child n c m :
  c ∈ children n → m ∈ flatten false c → m ∈ flatten false n.
Proof.
  intros Hc Hm. rewrite flatten_all_unfold. apply list_elem_of_further.
  apply elem_of_concat. exists (flatten false c). split; [|done].
  by apply (list_elem_of_fmap_2 (flatten false)).
Qed.

End TreeProperties.

(** ** Text aggregation *)

(** C1 (the code departs from the claim).  For a child with a non-empty
    inner text and with attributes, [inner_text] appends the text exactly
    when none of [hidden], [visible], [enabled] is set to [False]; without
    attributes the text is always appended.  So an unset flag never
    excludes, and [visible=False] and [enabled=False] exclude, as claimed;
    but [hidden=True] does not exclude and [hidden=False] does: on a page
    whose text child "secret" is marked [hidden=True] the aggregate is
    "secret", with [hidden=False] it is empty, with the flag unset it is
    "secret".  The test on [hidden] is the wrong way round. *)
Theorem inner_text_hidden_flag_inverted :
  (∀ (child_text : string) (attrs : option DomAttributes),
     inner_text_appends child_text attrs = true ↔
     child_text ≠ EmptyString ∧
     ∀ a, attrs = Some a →
          hidden a ≠ Some false ∧ visible a ≠ Some false ∧ enabled a ≠ Some false) ∧
  inner_text (built (page_with_text (Some true))).1 = "secret"%string ∧
  inner_text (built (page_with_text (Some false))).1 = ""%string ∧
  inner_text (built (page_with_text None)).1 = "secret"%string.
Proof.
  split_and!; [|reflexivity..].
  intros child_text attrs.
  unfold inner_text_appends. destruct child_text as [|c s]; simpl.
  { naive_solver. }
  destruct attrs as [[[[|]|] [[|]|] [[|]|]]|]; simpl; naive_solver.
Qed.

(** ** Coercion to an interaction node *)

Section Coercion.
Context `{RT : RoleTable NodeRole}.
Implicit Types (n m : DomNode NodeRole).

Lemma to_interaction_node_cases h n :
  match to_interaction_node h n with
  | inr m =>
      node_type n = INTERACTION ∧ is_Some (node_id n) ∧
      m = DomNode_init (node_id n) INTERACTION (role n) (text n) []
            (attributes n) (computed_attributes n) (parent n)
  | inl e =>
      is_contract_violation e = true ∧
      ¬ (node_type n = INTERACTION ∧ is_Some (node_id n))
  end.
Proof.
  unfold to_interaction_node, InteractionDomNode_init.
  case_decide as Hty; simpl.
  - split; [done|]. naive_solver.
  - destruct (node_id n) as [i|] eqn:Hid; simpl.
    + destruct (decide (node_type n = INTERACTION)); naive_solver.
    + split; [done|]. intros [_ [? ?]]. done.
Qed.

(** C5 (as amended).  [to_interaction_node] succeeds exactly when the kind
    of the node is [INTERACTION] and its id is present; the children of the
    node play no part, the result is built with an empty children list.  In
    every other case it raises an internal-check (contract violation)
    error. *)
Theorem to_interaction_node_succeeds_iff h n :
  match to_interaction_node h n with
  | inr m =>
      node_type n = INTERACTION ∧ is_Some (node_id n) ∧
      m = DomNode_init (node_id n) INTERACTION (role n) (text n) []
            (attributes n) (computed_attributes n) (parent n) ∧
      children m = [] ∧ node_id m = node_id n
  | inl e =>
      is_contract_violation e = true ∧
      ¬ (node_type n = INTERACTION ∧ is_Some (node_id n))
  end.
Proof.
  pose proof (to_interaction_node_cases h n) as H.
  destruct (to_interaction_node h n) as [e|m]; [done|].
  destruct H as (Hty & Hid & ->). by repeat split.
Qed.

End Coercion.

(** C5, as stated, fails on a button that has a child: the coercion
    succeeds although the children list is not empty. *)
Lemma to_interaction_node_with_children_counterexample :
  let n := (built button_with_label).1 in
  let h := (built button_with_label).2 in
  children n ≠ [] ∧
  (∃ m, to_interaction_node h n = inr m) ∧
  ¬ ((∃ m, to_interaction_node h n = inr m)
     ↔ node_type n = INTERACTION ∧ is_Some (node_id n) ∧ children n = []).
Proof.
  split; [done|]. split; [by eexists|].
  intros [H _]. destruct H as (_ & _ & H); [by eexists|]. done.
Qed.

(** ** Lookup by id and the checks of [forward] *)

Section Lookup.
Context `{RT : RoleTable NodeRole}.
Implicit Types (n m : DomNode NodeRole).

(** An id that no node of the graph carries is not found. *)
Lemma find_absent h id n :
  (∀ m, m ∈ flatten false n → node_id m ≠ Some id) → find h n id = inr None.
Proof.
  induction n as [n IH] using DomNode_children_ind. intros Habs.
  rewrite find_unfold. case_decide as Hid.
  { exfalso. by apply (Habs n), Hid; apply elem_of_flatten_self. }
  assert (Hcs : ∀ c, c ∈ children n → find h c id = inr None).
  { intros c Hc. eapply (proj1 (Forall_forall _ _) IH); [done|].
    intros m Hm. apply Habs. by eapply elem_of_flatten_child. }
  clear IH Habs Hid. induction (children n) as [|c cs IHcs]; simpl; [done|].
  rewrite (Hcs c) by apply list_elem_of_here.
  apply IHcs. intros c' Hc'. apply Hcs. by apply list_elem_of_further.
Qed.

(** A node that [find] returns carries the id asked for, and is an
    interaction node without children. *)
Lemma find_found h id n m :
  find h n id = inr (Some m) →
  node_id m = Some id ∧ node_type m = INTERACTION ∧ children m = [].
Proof.
  revert m. induction n as [n IH] using DomNode_children_ind. intros m.
  rewrite find_unfold. case_decide as Hid.
  - pose proof (to_interaction_node_cases h n) as H.
    destruct (to_interaction_node h n) as [e|m']; [done|].
    intros [= <-]. destruct H as (_ & _ & ->). by rewrite <- Hid.
  - clear Hid. induction IH as [|c cs Hc _ IHcs]; simpl; [done|].
    destruct (find h c id) as [e|[found|]] eqn:Hfind; [done| |done].
    intros [= <-]. by apply Hc.
Qed.

Variable browser : BrowserDriver.

(** C2 (as amended).  With an action id that no node of the graph carries,
    [forward] raises [InvalidInternalCheckError] with the check "Node with
    id ... not found in graph" and makes no driver call; when the lookup
    hands back a node whose id differs from the action id, the rest of
    [forward] raises [InvalidInternalCheckError] with the check "Resolved
    node id ... does not match action id ...".  Both failures have the same
    class, that of a contract violation; they differ in their check.  (The
    lookup [find] itself never hands back a node with another id.) *)
Theorem forward_lookup_failures action params_values
    (context : ProcessedBrowserSnapshot) (w : World) :
  let url := Some (metadata_url (context_snapshot context)) in
  let not_found :=
    InvalidInternalCheckError (NodeNotInGraph (action_id action)) url in
  let mismatch found :=
    InvalidInternalCheckError
      (ResolvedIdMismatch (node_id found) (action_id action)) url in
  ((∀ m, m ∈ flatten false (context_node context) →
         node_id m ≠ Some (action_id action)) →
   forward browser action params_values context w = (inl not_found, w)) ∧
  (∀ found : DomNode NodeRole,
     node_id found ≠ Some (action_id action) →
     forward_found browser action params_values context (Some found) w
       = (inl (mismatch found), w)) ∧
  (∀ found, error_class not_found = error_class (mismatch found) ∧
            is_contract_violation not_found = true ∧
            is_contract_violation (mismatch found) = true ∧
            not_found ≠ mismatch found) ∧
  (∀ h n m, find h n (action_id action) = inr (Some m) →
            node_id m = Some (action_id action)).
Proof.
  intros url not_found mismatch. split_and!.
  - intros Habs. unfold forward, bind, read_heap, lift_result. simpl.
    by rewrite find_absent.
  - intros found Hne. unfold forward_found. by rewrite decide_True.
  - intros found. by repeat split.
  - intros h n m Hfind. by apply find_found in Hfind as [? _].
Qed.

End Lookup.

Lemma forward_lookup_failures_witness :
  forward empty_browser (sample_action "missing") [] (sample_context page_with_button)
      (built_world page_with_button)
    = (inl (InvalidInternalCheckError (NodeNotInGraph "missing")
              (Some "https://example.org"%string)),
       built_world page_with_button) ∧
  forward_found empty_browser (sample_action "missing") []
      (sample_context page_with_button) (Some button_node)
      (built_world page_with_button)
    = (inl (InvalidInternalCheckError (ResolvedIdMismatch (Some "B1"%string) "missing")
              (Some "https://example.org"%string)),
       built_world page_with_button).
Proof.
  destruct (forward_lookup_failures empty_browser (sample_action "missing") []
              (sample_context page_with_button) (built_world page_with_button))
    as (Habsent & Hmismatch & _).
  split.
  - apply Habsent. intros m Hm. vm_compute in Hm.
    repeat (apply elem_of_cons in Hm as [->|Hm]; [discriminate|]).
    by apply elem_of_nil in Hm.
  - apply (Hmismatch button_node). discriminate.
Defined.

(** C2, as stated, fails where it says that the two failures are of distinct
    classes: the failure for an absent id and the failure for a disagreeing
    id are both [InvalidInternalCheckError]. *)
Lemma forward_failure_classes_counterexample :
  ∃ e_absent e_mismatch,
    (forward empty_browser (sample_action "missing") []
       (sample_context page_with_button) (built_world page_with_button)).1
      = inl e_absent ∧
    (forward_found empty_browser (sample_action "missing") []
       (sample_context page_with_button) (Some button_node)
       (built_world page_with_button)).1
      = inl e_mismatch ∧
    error_class e_absent = ClsInvalidInternalCheckError ∧
    error_class e_mismatch = ClsInvalidInternalCheckError ∧
    ¬ (error_class e_absent ≠ error_class e_mismatch).
Proof.
  eexists _, _. split_and!; [reflexivity|reflexivity|reflexivity|reflexivity|].
  intros H. by apply H.
Qed.

(** ** Sub-tree ids *)

Lemma A11yNode_children_ind (P : A11yNode → Prop) :
  (∀ node, Forall P (a11y_children node) → P node) → ∀ node, P node.
Proof.
  intros IH. fix rec 1. intros node. apply IH.
  destruct node as [r nm cs i v1 v2 v3 v4 hi a1 a2 a3]; simpl.
  induction cs as [|c cs IHcs]; constructor; [apply rec|exact IHcs].
Qed.

Lemma build_all_Forall2 {A B} (build : A → Heap → B * Heap) (Q : A → B → Prop) cs :
  Forall (λ c, ∀ h, Q c (build c h).1) cs →
  ∀ h, Forall2 Q cs (build_all build cs h).1.
Proof.
  induction 1 as [|c cs Hc _ IH]; intros h; simpl; [constructor|].
  specialize (Hc h). destruct (build c h) as [d h1]. specialize (IH h1).
  destruct (build_all build cs h1) as [ds h2]. by constructor.
Qed.

Lemma omap_concat {A B} (f : A → option B) (ls : list (list A)) :
  omap f (concat ls) = concat (map (omap f) ls).
Proof.
  induction ls as [|l ls IH]; simpl; [done|]. by rewrite omap_app, IH.
Qed.

Section SubtreeIds.
Context `{RT : RoleTable NodeRole}.
Implicit Types (n m t : DomNode NodeRole).

Lemma extend_subtree_ids_concat (cs : list (DomNode NodeRole)) :
  ∀ init, extend_subtree_ids init cs = init ++ concat (map subtree_ids cs).
Proof.
  unfold extend_subtree_ids. induction cs as [|c cs IH]; intros init; simpl.
  - by rewrite app_nil_r.
  - by rewrite IH, <- app_assoc.
Qed.

Lemma DomNode_init_ids_consistent id ty r tx cs a ca p :
  ids_consistent (DomNode_init (NodeRole := NodeRole) id ty r tx cs a ca p).
Proof. unfold ids_consistent; simpl. apply extend_subtree_ids_concat. Qed.

Lemma classify_role_idempotent (r : Role NodeRole) :
  classify_role (classify_role r) = classify_role r.
Proof.
  destruct r as [k|s]; simpl; [done|]. unfold from_value.
  destruct (from_value_known s) eqn:Hs; simpl; [done|].
  unfold from_value. by rewrite Hs.
Qed.

Lemma from_a11y_node_unfold (node : A11yNode) sel h :
  from_a11y_node (NodeRole := NodeRole) node sel h =
    let '(children, h) :=
      build_all (λ c, from_a11y_node c sel) (a11y_children node) h in
    let node_id := a11y_id node in
    let node_role := from_value (a11y_role node) in
    let node_type := match node_id with Some _ => INTERACTION | None => OTHER end in
    let node_type :=
      match node_role with
      | Known r => if decide (role_category r = CatText) then TEXT else node_type
      | Unknown _ => node_type
      end in
    let '(ca, h) :=
      heap_alloc
        {| in_viewport := default false (a11y_in_viewport node);
           is_interactive := default false (a11y_is_interactive node);
           is_top_element := default false (a11y_is_top_element node);
           ca_is_editable := false;
           shadow_root := default false (a11y_shadow_root node);
           highlight_index := a11y_highlight_index node;
           selectors := None |} h in
    (DomNode_init node_id node_type node_role (a11y_name node) children
       (Some (DomAttributes_from_a11y_node node)) ca None, h).
Proof. destruct node. reflexivity. Qed.

Lemma a11y_ids_unfold (node : A11yNode) :
  a11y_ids node =
    match a11y_id node with Some i => [i] | None => [] end
    ++ concat (map a11y_ids (a11y_children node)).
Proof. by destruct node. Qed.

(** The graph built from a payload: every node satisfies the constructor's
    invariant and has a classified role, and the root's [subtree_ids] are
    the ids of the payload. *)
Lemma from_a11y_node_built (payload : A11yNode) sel :
  ∀ h, let t := (from_a11y_node (NodeRole := NodeRole) payload sel h).1 in
       Forall ids_consistent (flatten false t) ∧
       roles_classified t ∧
       subtree_ids t = a11y_ids payload.
Proof.
  induction payload as [payload IH] using A11yNode_children_ind. intros h.
  rewrite from_a11y_node_unfold.
  pose proof (build_all_Forall2 (λ c, from_a11y_node c sel)
                (λ c d, Forall ids_consistent (flatten false d) ∧
                        roles_classified d ∧
                        subtree_ids d = a11y_ids c) _ IH h) as Hcs.
  destruct (build_all _ (a11y_children payload) h) as [ds h1]. simpl in *.
  split_and!.
  - rewrite flatten_all_unfold. constructor.
    + apply DomNode_init_ids_consistent.
    + simpl. apply Forall_concat, Forall_map.
      eapply Forall2_Forall_r; [exact Hcs|]. apply Forall_true. naive_solver.
  - unfold roles_classified. rewrite flatten_all_unfold. constructor.
    + simpl. apply classify_role_idempotent.
    + simpl. apply Forall_concat, Forall_map.
      eapply Forall2_Forall_r; [exact Hcs|]. apply Forall_true. naive_solver.
  - rewrite extend_subtree_ids_concat, a11y_ids_unfold. f_equal. f_equal.
    clear IH. induction Hcs as [|c d cs ds (_ & _ & Hd) _ IHcs]; simpl; [done|].
    by rewrite Hd, IHcs.
Qed.

(** In a graph whose nodes satisfy the invariant, the [subtree_ids] of a
    node are the ids present in its sub-tree, in pre-order. *)
Lemma ids_consistent_flatten t :
  Forall ids_consistent (flatten false t) →
  subtree_ids t = omap node_id (flatten false t).
Proof.
  induction t as [t IH] using DomNode_children_ind.
  rewrite flatten_all_unfold. intros Hall.
  apply Forall_cons in Hall as [Ht Hcs]. rewrite Ht. simpl.
  assert (Hrest : concat (map subtree_ids (children t))
                  = omap node_id (concat (map (flatten false) (children t)))).
  { rewrite omap_concat, map_map. f_equal.
    rewrite Forall_concat, Forall_map in Hcs.
    clear Ht. induction IH as [|c cs Hc _ IHcs]; simpl; [done|].
    apply Forall_cons in Hcs as [Hc' Hcs]. by rewrite Hc, IHcs. }
  rewrite Hrest. by destruct (node_id t).
Qed.

(** The nodes of a sub-tree are nodes of the tree. *)
Lemma flatten_subtree t n m :
  n ∈ flatten false t → m ∈ flatten false n → m ∈ flatten false t.
Proof.
  induction t as [t IH] using DomNode_children_ind.
  rewrite (flatten_all_unfold t). intros Hn Hm.
  apply elem_of_cons in Hn as [->|Hn].
  - by rewrite <- flatten_all_unfold.
  - apply list_elem_of_further. apply elem_of_concat in Hn as (l & Hl & Hn).
    apply list_elem_of_fmap in Hl as (c & -> & Hc).
    apply elem_of_concat. exists (flatten false c). split.
    + by apply (list_elem_of_fmap_2 (flatten false)).
    + eapply (proj1 (Forall_forall _ _) IH); done.
Qed.

(** C6.  In the graph built from an accessibility payload, the stored
    [subtree_ids] of every node are its own id, if present, followed by the
    [subtree_ids] of its children, and they are the ids present in the
    node's sub-tree, in pre-order; at the root they are the ids of the
    payload, so an id is listed exactly when some node of the graph carries
    it, and nothing is listed twice when the ids of the payload are
    distinct.  Nesting depth plays no part. *)
Theorem from_a11y_node_subtree_ids (payload : A11yNode) sel h :
  let t := (from_a11y_node (NodeRole := NodeRole) payload sel h).1 in
  (∀ n, n ∈ flatten false t →
        subtree_ids n =
          match node_id n with Some i => [i] | None => [] end
          ++ concat (map subtree_ids (children n))) ∧
  (∀ n, n ∈ flatten false t → subtree_ids n = omap node_id (flatten false n)) ∧
  (∀ i, i ∈ subtree_ids t ↔ ∃ n, n ∈ flatten false t ∧ node_id n = Some i) ∧
  subtree_ids t = a11y_ids payload ∧
  (NoDup (a11y_ids payload) → NoDup (subtree_ids t)).
Proof.
  intros t. destruct (from_a11y_node_built payload sel h) as (Hall & _ & Hids).
  fold t in Hall, Hids.
  assert (Hsub : ∀ n, n ∈ flatten false t →
                      subtree_ids n = omap node_id (flatten false n)).
  { intros n Hn. apply ids_consistent_flatten.
    apply Forall_forall. intros m Hm.
    eapply (proj1 (Forall_forall _ _) Hall), flatten_subtree; done. }
  split_and!.
  - intros n Hn. by apply (proj1 (Forall_forall _ _) Hall).
  - exact Hsub.
  - intros i. rewrite (Hsub t) by apply elem_of_flatten_self.
    rewrite list_elem_of_omap. done.
  - exact Hids.
  - by rewrite Hids.
Qed.

End SubtreeIds.

Lemma from_a11y_node_subtree_ids_witness :
  NoDup (a11y_ids page_with_button) ∧
  NoDup (subtree_ids (built page_with_button).1) ∧
  subtree_ids (built page_with_button).1 = ["B1"%string].
Proof.
  assert (Hnd : NoDup (a11y_ids page_with_button)).
  { apply NoDup_singleton. }
  destruct (from_a11y_node_subtree_ids (NodeRole := SampleRole)
              page_with_button "" []) as (_ & _ & _ & Hids & Hnodup).
  split; [exact Hnd|]. split; [exact (Hnodup Hnd)|]. exact Hids.
Defined.

(** ** Filtering *)

Lemma omap_fixed {A} (f : A → option A) (l : list A) :
  Forall (λ x, f x = Some x) l → omap f l = l.
Proof.
  induction 1 as [|x l Hx _ IH]; simpl; [done|]. rewrite Hx. f_equal. exact IH.
Qed.

Section Filtering.
Context `{RT : RoleTable NodeRole}.
Implicit Types (n m t : DomNode NodeRole).

Lemma roles_classified_inv t :
  roles_classified t →
  classify_role (role t) = role t ∧ Forall roles_classified (children t).
Proof.
  unfold roles_classified. rewrite flatten_all_unfold, Forall_cons.
  intros [Ht Hcs]. split; [done|]. by rewrite Forall_concat, Forall_map in Hcs.
Qed.

(** What a successful [subtree_filter] has established about its input. *)
Lemma subtree_filter_inner_Some ft t t1 :
  subtree_filter_inner ft t = Some t1 →
  let filtered_children := omap (subtree_filter_inner ft) (children t) in
  ft t = true ∧
  bool_decide (node_id t = None)
    && bool_decide (length filtered_children = 0)
    && bool_decide (strip (text t) = EmptyString) = false ∧
  t1 = DomNode_init (node_id t) (node_type t) (role t) (text t) filtered_children
         (attributes t) (computed_attributes t) (parent t).
Proof.
  rewrite subtree_filter_inner_unfold. destruct (ft t); simpl; [|done].
  destruct (_ && _ && _); [done|]. by intros [= <-].
Qed.

(** C7 (as amended).  [subtree_filter] is idempotent for a predicate that
    reads a node's own fields only (not its children nor its [subtree_ids]),
    on a tree whose roles are classified, as the constructor leaves them:
    filtering the result again gives back the very same tree, hence one with
    the same ids, roles, texts and order of children. *)
Theorem subtree_filter_idempotent ft t t1 :
  own_fields_only ft →
  roles_classified t →
  subtree_filter t ft = Some t1 →
  subtree_filter t1 ft = Some t1.
Proof.
  unfold subtree_filter. intros Hown. revert t1.
  induction t as [t IH] using DomNode_children_ind.
  intros t1 Hcl Ht1.
  apply subtree_filter_inner_Some in Ht1 as (Hft & Hdead & ->).
  apply roles_classified_inv in Hcl as [Hrole Hcs].
  set (fc := omap (subtree_filter_inner ft) (children t)) in *.
  assert (Hfixed : omap (subtree_filter_inner ft) fc = fc).
  { apply omap_fixed, Forall_forall. intros x Hx.
    apply list_elem_of_omap in Hx as (c & Hc & Hx).
    eapply (proj1 (Forall_forall _ _) IH); [exact Hc| |exact Hx].
    by eapply (proj1 (Forall_forall _ _) Hcs). }
  rewrite subtree_filter_inner_unfold. simpl.
  rewrite Hfixed, Hdead.
  rewrite (Hown _ t) by (simpl; congruence). rewrite Hft. simpl.
  unfold DomNode_init. by rewrite classify_role_idempotent.
Qed.

(** The nodes of a filtered tree come from nodes of the input that the
    predicate accepts, with the same id and text and the classified role. *)
Lemma subtree_filter_inner_nodes ft t :
  ∀ t1, subtree_filter_inner ft t = Some t1 →
        ∀ m, m ∈ flatten false t1 →
             ∃ n, n ∈ flatten false t ∧ ft n = true ∧
                  node_id m = node_id n ∧ text m = text n ∧
                  role m = classify_role (role n).
Proof.
  induction t as [t IH] using DomNode_children_ind. intros t1 Ht1 m Hm.
  apply subtree_filter_inner_Some in Ht1 as (Hft & _ & ->).
  rewrite flatten_all_unfold in Hm. simpl in Hm.
  apply elem_of_cons in Hm as [->|Hm].
  - exists t. split; [apply elem_of_flatten_self|done].
  - apply elem_of_concat in Hm as (l & Hl & Hm).
    apply list_elem_of_fmap in Hl as (x & -> & Hx).
    apply list_elem_of_omap in Hx as (c & Hc & Hx).
    destruct (proj1 (Forall_forall _ _) IH c Hc x Hx m Hm) as (n & Hn & Hrest).
    exists n. split; [by eapply elem_of_flatten_child|done].
Qed.

Lemma subtree_filter_inner_rejected ft t :
  ft t = false → subtree_filter_inner ft t = None.
Proof. intros Hft. rewrite subtree_filter_inner_unfold. by rewrite Hft. Qed.

(** C8 (as amended).  On a tree whose roles are classified,
    [subtree_without] returns a tree in which no node has a known role whose
    value is in [roles], and it raises the empty-graph error exactly when
    the filter removes the root; this is so in particular when the role of
    the root is a known role in [roles], hence when every node has a known
    role in [roles].  A node whose role is an unrecognised string is kept by
    the predicate whatever the string, also when the string is in [roles]:
    a root with such a role and an id is returned with its id and its role,
    and no error is raised. *)
Theorem subtree_without_known_roles h t (roles : gset string) :
  roles_classified t →
  match subtree_without h t roles with
  | inr t' =>
      subtree_filter t (only_roles roles) = Some t' ∧
      ∀ m r, m ∈ flatten false t' → role m = Known r → role_value r ∉ roles
  | inl e =>
      subtree_filter t (only_roles roles) = None ∧
      e = NodeFilteringResultsInEmptyGraph (get_url h t) roles ∧
      is_empty_graph_after_filtering e = true
  end ∧
  (∀ r, role t = Known r → role_value r ∈ roles →
        subtree_without h t roles
          = inl (NodeFilteringResultsInEmptyGraph (get_url h t) roles)) ∧
  ((∀ n, n ∈ flatten false t → ∃ r, role n = Known r ∧ role_value r ∈ roles) →
   subtree_without h t roles
     = inl (NodeFilteringResultsInEmptyGraph (get_url h t) roles)) ∧
  (∀ n s, role n = Unknown s → only_roles roles n = true) ∧
  (∀ s i, role t = Unknown s → node_id t = Some i →
          ∃ t', subtree_without h t roles = inr t' ∧
                node_id t' = Some i ∧ role t' = Unknown s ∧
                (s ∈ roles → get_role_str t' ∈ roles)).
Proof.
  intros Hcl.
  assert (Hroot : ∀ r, role t = Known r → role_value r ∈ roles →
            subtree_without h t roles
              = inl (NodeFilteringResultsInEmptyGraph (get_url h t) roles)).
  { intros r Hr Hin. unfold subtree_without, subtree_filter.
    rewrite subtree_filter_inner_rejected; [done|].
    unfold only_roles. rewrite Hr. by apply bool_decide_eq_false_2; intros ?. }
  split_and!.
  - unfold subtree_without, subtree_filter.
    destruct (subtree_filter_inner (only_roles roles) t) as [t'|] eqn:Hf; [|done].
    split; [done|]. intros m r Hm Hr.
    destruct (subtree_filter_inner_nodes _ _ _ Hf m Hm)
      as (n & Hn & Hft & _ & _ & Hrole).
    rewrite (proj1 (Forall_forall _ _) Hcl n Hn) in Hrole.
    unfold only_roles in Hft. rewrite <- Hrole, Hr in Hft.
    by apply bool_decide_eq_true_1 in Hft.
  - exact Hroot.
  - intros Hall. destruct (Hall t (elem_of_flatten_self t)) as (r & Hr & Hin).
    by eapply Hroot.
  - intros n s Hs. unfold only_roles. by rewrite Hs.
  - intros s i Hs Hi. unfold subtree_without, subtree_filter.
    rewrite subtree_filter_inner_unfold.
    assert (Hkept : only_roles roles t = true)
      by (unfold only_roles; by rewrite Hs).
    rewrite Hkept, Hi. cbn [negb]. cbv zeta.
    rewrite (bool_decide_eq_false_2 (Some i = None)) by done. cbn [andb].
    eexists. split; [reflexivity|].
    assert (Hrole : classify_role (role t) = role t)
      by apply (proj1 (Forall_forall _ _) Hcl t (elem_of_flatten_self t)).
    split_and!.
    + done.
    + cbn [role DomNode_init]. by rewrite Hrole.
    + intros Hin. unfold get_role_str. cbn [role DomNode_init].
      by rewrite Hrole, Hs.
Qed.

End Filtering.

Lemma own_fields_only_not_text : own_fields_only not_text.
Proof. intros n n' _ Hty _ _ _ _ _. unfold not_text. by rewrite Hty. Qed.

Lemma subtree_filter_idempotent_witness :
  ∃ t1, subtree_filter (built page_with_button).1 not_text = Some t1 ∧
        subtree_ids t1 = ["B1"%string] ∧
        subtree_filter t1 not_text = Some t1.
Proof.
  eexists. split; [vm_compute; reflexivity|]. split; [reflexivity|].
  apply (subtree_filter_idempotent not_text (built page_with_button).1).
  - exact own_fields_only_not_text.
  - apply from_a11y_node_built.
  - vm_compute. reflexivity.
Defined.

(** C7, as stated, fails for a predicate that looks at the children: the
    root is accepted because it has a child, the child is dropped as a dead
    branch, and the root without its child is rejected by the same
    predicate. *)
Lemma subtree_filter_not_idempotent_counterexample :
  ∃ t1, subtree_filter (built page_with_blank_child).1 has_children_or_no_id
          = Some t1 ∧
        subtree_filter t1 has_children_or_no_id = None.
Proof. eexists. split; vm_compute; reflexivity. Qed.

Lemma subtree_without_known_roles_witness :
  roles_classified (built page_with_button).1 ∧
  subtree_without (built page_with_button).2 (built page_with_button).1
      {["WebArea"%string]}
    = inl (NodeFilteringResultsInEmptyGraph None {["WebArea"%string]}) ∧
  roles_classified (built custom_widget).1 ∧
  ∃ t', subtree_without (built custom_widget).2 (built custom_widget).1
          {["custom"%string]} = inr t' ∧
        node_id t' = Some "x"%string ∧ role t' = Unknown "custom".
Proof.
  assert (Hcl : roles_classified (built page_with_button).1)
    by apply from_a11y_node_built.
  assert (Hcl' : roles_classified (built custom_widget).1)
    by apply from_a11y_node_built.
  split; [exact Hcl|]. split; [|split; [exact Hcl'|]].
  - destruct (subtree_without_known_roles (built page_with_button).2
                (built page_with_button).1 {["WebArea"%string]} Hcl)
      as (_ & Hroot & _).
    apply (Hroot WEBAREA); [reflexivity|]. by apply elem_of_singleton.
  - destruct (subtree_without_known_roles (built custom_widget).2
                (built custom_widget).1 {["custom"%string]} Hcl')
      as (_ & _ & _ & _ & Hunknown).
    destruct (Hunknown "custom"%string "x"%string) as (t' & Hrun & Hid & Hrole & _);
      [reflexivity..|].
    exists t'. by split_and!.
Defined.

(** C8, as stated, fails on a node whose role is an unrecognised string:
    the role string is in [roles], yet the node is not removed and no error
    is raised. *)
Lemma subtree_without_unknown_role_counterexample :
  let t := (built custom_widget).1 in
  let roles : gset string := {["custom"%string]} in
  (∀ n, n ∈ flatten false t → get_role_str n ∈ roles) ∧
  ∃ t', subtree_without (built custom_widget).2 t roles = inr t' ∧
        get_role_str t' ∈ roles ∧ t' ∈ flatten false t'.
Proof.
  split.
  - intros n Hn. vm_compute in Hn.
    apply elem_of_cons in Hn as [->|Hn]; [|by apply elem_of_nil in Hn].
    by apply elem_of_singleton.
  - eexists. split; [reflexivity|]. split.
    + by apply elem_of_singleton.
    + apply elem_of_flatten_self.
Qed.

(** ** End-to-end examples *)

(** The payload [{role: "WebArea", name: "", children: [{role: "button",
    name: "Submit", id: "B1"}]}] yields a graph with one interaction node,
    id "B1", role Button, text "Submit"; [find "B1"] returns it as an
    interaction node and [find "missing"] returns nothing. *)
Example page_with_button_graph :
  let t := (built page_with_button).1 in
  let h := (built page_with_button).2 in
  map (λ n, (node_id n, role n, text n)) (flatten true t)
    = [(Some "B1", Known BUTTON, "Submit")]%string ∧
  find h t "B1" = inr (Some button_node) ∧
  find h t "missing" = inr None.
Proof. split_and!; vm_compute; reflexivity. Qed.

(** Two resolutions of "B1" on the same graph: the first runs the fallback
    resolution and caches the bundle, the second only probes. *)
Example forward_twice_trace :
  let request := (sample_action "B1", [], sample_context page_with_button) in
  trace (forward_all sample_browser [request; request] (built_world page_with_button))
    = [EvGetLocatorForNodeId "B1"; EvGetHtmlSelector 0;
       EvCount "#b1" 0; EvIsEditable (0, "#b1"); EvIsVisible (0, "#b1");
       EvIsEnabled (0, "#b1");
       EvCount "#b1" 0; EvIsEditable (0, "#b1"); EvIsVisible (0, "#b1");
       EvIsEnabled (0, "#b1")]%string.
Proof. vm_compute. reflexivity. Qed.

(** * Further properties *)

(** ** Lookup and flattening *)

Section LookupAndFlatten.
Context `{RT : RoleTable NodeRole}.
Implicit Types (n m t : DomNode NodeRole).

Lemma filter_concat {A} (P : A → Prop) `{!∀ x, Decision (P x)} (ls : list (list A)) :
  filter P (concat ls) = concat (map (filter P) ls).
Proof.
  induction ls as [|l ls IH]; simpl; [done|]. by rewrite filter_app, IH.
Qed.

(** X1.  [find] is a search of the pre-order list of the nodes: it takes the
    first node that carries the id and coerces it with
    [to_interaction_node]; the error of the coercion, if any, is the error
    of [find], also when a later node with the same id would have been an
    interaction node.  It returns nothing exactly when no node carries the
    id. *)
Theorem find_first_in_preorder h t id :
  find h t id =
    match first_with_id id t with
    | None => inr None
    | Some n =>
        match to_interaction_node h n with
        | inl e => inl e
        | inr m => inr (Some m)
        end
    end.
Proof.
  unfold first_with_id.
  induction t as [t IH] using DomNode_children_ind.
  rewrite find_unfold, flatten_all_unfold, filter_cons.
  case_decide as Hid; simpl; [done|].
  rewrite filter_concat, map_map. clear Hid.
  induction IH as [|c cs Hc _ IHcs]; simpl; [done|].
  rewrite Hc. destruct (filter _ (flatten false c)) as [|n l]; simpl.
  - exact IHcs.
  - by destruct (to_interaction_node h n).
Qed.

Lemma flatten_true_filter t :
  flatten true t = filter (λ n, is_interaction n = true) (flatten false t).
Proof.
  induction t as [t IH] using DomNode_children_ind.
  rewrite (flatten_unfold true), (flatten_unfold false). simpl.
  rewrite filter_cons, filter_concat, map_map.
  assert (Hcs : map (flatten true) (children t)
                = map (λ c, filter (λ n, is_interaction n = true) (flatten false c))
                      (children t)).
  { induction IH as [|c cs Hc _ IHcs]; simpl; [done|]. by rewrite Hc, IHcs. }
  rewrite Hcs. destruct (is_interaction t) eqn:Hi.
  - by rewrite decide_True.
  - by rewrite decide_False.
Qed.

(** X2.  [flatten(only_interaction=True)] lists exactly the nodes of
    [flatten()] for which [is_interaction] holds, in the same order; each of
    them has an id and a known role. *)
Theorem flatten_only_interaction t :
  flatten true t = filter (λ n, is_interaction n = true) (flatten false t) ∧
  (∀ n, n ∈ flatten true t ↔ n ∈ flatten false t ∧ is_interaction n = true) ∧
  Forall (λ n, is_Some (node_id n) ∧ ∃ k, role n = Known k) (flatten true t).
Proof.
  split_and!.
  - apply flatten_true_filter.
  - intros n. rewrite flatten_true_filter, list_elem_of_filter. naive_solver.
  - rewrite flatten_true_filter. apply Forall_forall. intros n Hn.
    apply list_elem_of_filter in Hn as [Hi _]. unfold is_interaction in Hi.
    destruct (role n) as [k|]; [|done]. destruct (node_id n); [|done].
    split; [done|]. by exists k.
Qed.

Lemma interaction_nodes_unfold h t :
  interaction_nodes h t =
    (fix loop (inodes : list (DomNode NodeRole)) :=
       match inodes with
       | [] => inr []
       | inode :: rest =>
           match to_interaction_node h inode with
           | inl e => inl e
           | inr n => match loop rest with
                      | inl e => inl e
                      | inr ns => inr (n :: ns)
                      end
           end
       end) (flatten true t).
Proof. reflexivity. Qed.

(** X3.  [interaction_nodes] returns the coerced copies, without children,
    of the nodes of [flatten(only_interaction=True)], in order, when each of
    them has the kind INTERACTION; as soon as one of them has another kind
    (a node with an id whose role is in the interaction category but whose
    kind is not INTERACTION), the whole call raises a contract violation. *)
Theorem interaction_nodes_result h t :
  match interaction_nodes h t with
  | inr l =>
      Forall (λ n, node_type n = INTERACTION) (flatten true t) ∧
      l = map coerced (flatten true t) ∧
      Forall (λ m, children m = [] ∧ is_Some (node_id m)) l
  | inl e =>
      is_contract_violation e = true ∧
      Exists (λ n, node_type n ≠ INTERACTION) (flatten true t)
  end.
Proof.
  rewrite interaction_nodes_unfold.
  assert (Hids : Forall (λ n, is_Some (node_id n)) (flatten true t)).
  { rewrite flatten_true_filter. apply Forall_forall. intros n Hn.
    apply list_elem_of_filter in Hn as [Hi _]. unfold is_interaction in Hi.
    destruct (role n); [|done]. by destruct (node_id n). }
  induction (flatten true t) as [|n l IH]; simpl.
  { by repeat split. }
  apply Forall_cons in Hids as [Hn Hl]. specialize (IH Hl).
  pose proof (to_interaction_node_cases h n) as Hcase.
  destruct (to_interaction_node h n) as [e|m].
  - destruct Hcase as [Hcv Hnot]. split; [done|]. left. naive_solver.
  - destruct Hcase as (Hty & _ & ->).
    match type of IH with
    | match ?x with inl _ => _ | inr _ => _ end => destruct x as [e|ns]
    end.
    + destruct IH as [Hcv Hex]. split; [done|]. by right.
    + destruct IH as (Hall & -> & Hch). split_and!.
      * by constructor.
      * done.
      * constructor; [|done]. split; [done|]. simpl. exact Hn.
Qed.

End LookupAndFlatten.

(** ** The graph of a payload *)

Lemma Forall2_concat {A B} (R : A → B → Prop) (ls : list (list A)) (ks : list (list B)) :
  Forall2 (Forall2 R) ls ks → Forall2 R (concat ls) (concat ks).
Proof. induction 1; simpl; [constructor|]. by apply Forall2_app. Qed.

Lemma a11y_nodes_unfold (a : A11yNode) :
  a11y_nodes a = a :: concat (map a11y_nodes (a11y_children a)).
Proof. by destruct a. Qed.

Lemma omap_Forall2 {A B C} (R : A → B → Prop) (f : A → option C) (g : B → option C)
    (l : list A) (k : list B) :
  (∀ a b, R a b → f a = g b) → Forall2 R l k → omap f l = omap g k.
Proof.
  intros Hfg. induction 1 as [|a b l k Hab _ IH]; simpl; [done|].
  rewrite (Hfg a b Hab). destruct (g b); [f_equal|]; exact IH.
Qed.

Lemma omap_filter_bool {A C} (p : A → bool) (f : A → option C) (l : list A) :
  omap f (filter (λ x, p x = true) l) = omap (λ x, if p x then f x else None) l.
Proof.
  induction l as [|x l IH]; [done|]. rewrite filter_cons.
  destruct (p x) eqn:Hp; case_decide; try done; simpl; rewrite Hp.
  - destruct (f x); [f_equal|]; exact IH.
  - exact IH.
Qed.

Section Built.
Context `{RT : RoleTable NodeRole}.
Implicit Types (n m t : DomNode NodeRole).

Lemma classify_from_value (s : string) :
  classify_role (from_value (NodeRole := NodeRole) s) = from_value s.
Proof. apply (classify_role_idempotent (Unknown s)). Qed.

Lemma built_mirrors (payload : A11yNode) sel :
  ∀ h, Forall2 mirrors (a11y_nodes payload)
         (flatten false (from_a11y_node (NodeRole := NodeRole) payload sel h).1).
Proof.
  induction payload as [payload IH] using A11yNode_children_ind. intros h.
  rewrite from_a11y_node_unfold.
  pose proof (build_all_Forall2 (λ c, from_a11y_node c sel)
                (λ c d, Forall2 mirrors (a11y_nodes c) (flatten false d)) _ IH h)
    as Hcs.
  destruct (build_all _ (a11y_children payload) h) as [ds h1]. simpl in *.
  rewrite flatten_all_unfold, a11y_nodes_unfold. simpl. constructor.
  - unfold mirrors; simpl. rewrite classify_from_value.
    split_and!; try done.
    symmetry. by eapply Forall2_length.
  - apply Forall2_concat. by apply Forall2_fmap.
Qed.

Lemma refs_unfold t :
  refs t = computed_attributes t :: concat (map refs (children t)).
Proof.
  unfold refs. rewrite flatten_all_unfold. simpl. f_equal.
  by rewrite concat_map, map_map.
Qed.

Lemma built_heap (payload : A11yNode) sel :
  ∀ h, let r := from_a11y_node (NodeRole := NodeRole) payload sel h in
       ∃ new, r.2 = h ++ new ∧
              length new = length (flatten false r.1) ∧
              Forall (λ ca, selectors ca = None) new ∧
              Forall (λ x, length h ≤ x < length r.2) (refs r.1) ∧
              NoDup (refs r.1).
Proof.
  induction payload as [payload IH] using A11yNode_children_ind. intros h.
  rewrite from_a11y_node_unfold.
  assert (Hcs : ∀ cs,
    Forall (λ c, ∀ h, let r := from_a11y_node (NodeRole := NodeRole) c sel h in
       ∃ new, r.2 = h ++ new ∧
              length new = length (flatten false r.1) ∧
              Forall (λ ca, selectors ca = None) new ∧
              Forall (λ x, length h ≤ x < length r.2) (refs r.1) ∧
              NoDup (refs r.1)) cs →
    ∀ h, let r := build_all (λ c, from_a11y_node (NodeRole := NodeRole) c sel) cs h in
       ∃ new, r.2 = h ++ new ∧
              length new = length (concat (map (flatten false) r.1)) ∧
              Forall (λ ca, selectors ca = None) new ∧
              Forall (λ x, length h ≤ x < length r.2) (concat (map refs r.1)) ∧
              NoDup (concat (map refs r.1))).
  { clear. induction 1 as [|c cs Hc _ IHcs]; intros h; simpl.
    - exists []. rewrite app_nil_r. repeat split; constructor.
    - specialize (Hc h).
      destruct (from_a11y_node c sel h) as [d h1]. simpl in Hc.
      destruct Hc as (new1 & -> & Hlen1 & Hun1 & Hr1 & Hnd1).
      specialize (IHcs (h ++ new1)).
      destruct (build_all _ cs (h ++ new1)) as [ds h2]. simpl in IHcs.
      destruct IHcs as (new2 & -> & Hlen2 & Hun2 & Hr2 & Hnd2). simpl in *.
      exists (new1 ++ new2). split_and!.
      + by rewrite app_assoc.
      + rewrite !length_app. congruence.
      + by apply Forall_app.
      + apply Forall_app. split.
        * eapply Forall_impl; [exact Hr1|]. intros x Hx. simpl in Hx.
          rewrite !length_app in *. lia.
        * eapply Forall_impl; [exact Hr2|]. intros x Hx. simpl in Hx.
          rewrite !length_app in *. lia.
      + apply NoDup_app. split_and!; [done| |done].
        intros x Hx1 Hx2.
        apply (proj1 (Forall_forall _ _) Hr1) in Hx1.
        apply (proj1 (Forall_forall _ _) Hr2) in Hx2.
        rewrite !length_app in *. lia. }
  specialize (Hcs _ IH h).
  destruct (build_all _ (a11y_children payload) h) as [ds h1]. simpl in Hcs.
  destruct Hcs as (new & -> & Hlen & Hun & Hr & Hnd). simpl in *.
  exists (new ++ [{| in_viewport := default false (a11y_in_viewport payload);
                     is_interactive := default false (a11y_is_interactive payload);
                     is_top_element := default false (a11y_is_top_element payload);
                     ca_is_editable := false;
                     shadow_root := default false (a11y_shadow_root payload);
                     highlight_index := a11y_highlight_index payload;
                     selectors := None |}]).
  rewrite refs_unfold, flatten_all_unfold. simpl. split_and!.
  - by rewrite app_assoc.
  - rewrite length_app. simpl. lia.
  - apply Forall_app. split; [done|]. by repeat constructor.
  - constructor.
    + rewrite !length_app. simpl. lia.
    + eapply Forall_impl; [exact Hr|]. intros x Hx. simpl in Hx.
      rewrite !length_app in *. simpl. lia.
  - constructor; [|done]. intros Hin.
    apply (proj1 (Forall_forall _ _) Hr) in Hin. lia.
Qed.

(** X4.  The graph built from a payload mirrors the payload node for node,
    in pre-order: same number of nodes, and each node has the id and the
    name of its payload node (ids are never invented or rewritten), the
    classified role string, the kind given by the id and the role, the
    attributes of the payload node, as many children, and no parent. *)
Theorem from_a11y_node_mirrors_payload (payload : A11yNode) sel h :
  let t := (from_a11y_node (NodeRole := NodeRole) payload sel h).1 in
  Forall2 mirrors (a11y_nodes payload) (flatten false t) ∧
  length (flatten false t) = length (a11y_nodes payload) ∧
  map node_id (flatten false t) = map a11y_id (a11y_nodes payload) ∧
  map text (flatten false t) = map a11y_name (a11y_nodes payload).
Proof.
  intros t. pose proof (built_mirrors payload sel h) as Hm. fold t in Hm.
  split_and!.
  - exact Hm.
  - symmetry. by eapply Forall2_length.
  - induction Hm as [|a n l k (Hid & _) _ IHm]; simpl; [done|]. by rewrite Hid, IHm.
  - induction Hm as [|a n l k (_ & Htx & _) _ IHm]; simpl; [done|].
    by rewrite Htx, IHm.
Qed.

(** X5.  Building a graph allocates one new computed-attributes object per
    node, after the objects the heap already has and without touching them:
    no two nodes of the graph share an object, every reference is to one of
    the new objects, and every new object has no selectors (each node of a
    new snapshot starts unresolved). *)
Theorem from_a11y_node_fresh_objects (payload : A11yNode) sel h :
  let t := (from_a11y_node (NodeRole := NodeRole) payload sel h).1 in
  let h' := (from_a11y_node (NodeRole := NodeRole) payload sel h).2 in
  (∃ new, h' = h ++ new ∧ length new = length (a11y_nodes payload)) ∧
  NoDup (refs t) ∧
  (∀ n, n ∈ flatten false t →
        length h ≤ computed_attributes n < length h' ∧
        selectors (heap_get h' (computed_attributes n)) = None) ∧
  (∀ r, r < length h → heap_get h' r = heap_get h r).
Proof.
  intros t h'.
  destruct (built_heap payload sel h) as (new & Hh & Hlen & Hun & Hr & Hnd).
  fold t h' in Hh, Hlen, Hr, Hnd.
  pose proof (built_mirrors payload sel h) as Hm. fold t in Hm.
  split_and!.
  - exists new. split; [done|]. rewrite Hlen. symmetry. by eapply Forall2_length.
  - exact Hnd.
  - intros n Hn.
    assert (Hrange : length h ≤ computed_attributes n < length h').
    { apply (proj1 (Forall_forall _ _) Hr). unfold refs.
      by apply (list_elem_of_fmap_2 computed_attributes). }
    split; [exact Hrange|].
    unfold heap_get. rewrite Hh in *. rewrite length_app in Hrange.
    rewrite lookup_total_app_r by lia.
    destruct (lookup_lt_is_Some_2 new (computed_attributes n - length h)) as [ca Hca];
      [lia|].
    rewrite (list_lookup_total_correct _ _ _ Hca).
    eapply (proj1 (Forall_forall _ _) Hun). by eapply list_elem_of_lookup_2.
  - intros r Hlt. unfold heap_get. rewrite Hh. by rewrite lookup_total_app_l.
Qed.

Lemma interaction_nodes_of_interaction_kind h (l : list (DomNode NodeRole)) :
  Forall (λ n, node_type n = INTERACTION ∧ is_Some (node_id n)) l →
  (fix loop (inodes : list (DomNode NodeRole)) :=
     match inodes with
     | [] => inr []
     | inode :: rest =>
         match to_interaction_node h inode with
         | inl e => inl e
         | inr n => match loop rest with
                    | inl e => inl e
                    | inr ns => inr (n :: ns)
                    end
         end
     end) l = inr (map coerced l).
Proof.
  induction 1 as [|n l [Hty Hid] _ IH]; simpl; [done|].
  pose proof (to_interaction_node_cases h n) as Hcase.
  destruct (to_interaction_node h n) as [e|m].
  - destruct Hcase as [_ Hnot]. by destruct Hnot.
  - destruct Hcase as (_ & _ & ->). by rewrite IH.
Qed.

Lemma mirrors_is_interaction (a : A11yNode) n :
  mirrors a n →
  (if is_interaction n then node_id n else None) = a11y_interaction_id a ∧
  (is_interaction n = true → node_type n = INTERACTION ∧ is_Some (node_id n)).
Proof.
  intros (Hid & _ & Hrole & Hty & _).
  unfold is_interaction, a11y_interaction_id. rewrite Hrole, Hid, Hty.
  unfold ingest_kind.
  destruct (from_value (a11y_role a)) as [k|s]; [|done].
  destruct (decide (role_category k = CatText)) as [Hcat|Hcat];
    destruct (a11y_id a) as [i|]; simpl; try done.
  rewrite bool_decide_eq_false_2; [done|]. by rewrite Hcat.
Qed.

(** X6.  On a graph built from a payload, [interaction_nodes] never raises,
    whatever the heap: it returns the coerced copies of the nodes of
    [flatten(only_interaction=True)], and their ids are the ids of the
    payload nodes that have an id and a known, non-textual role, in
    pre-order. *)
Theorem interaction_nodes_of_built_graph (payload : A11yNode) sel h0 h :
  let t := (from_a11y_node (NodeRole := NodeRole) payload sel h0).1 in
  interaction_nodes h t = inr (map coerced (flatten true t)) ∧
  omap node_id (flatten true t) = omap a11y_interaction_id (a11y_nodes payload).
Proof.
  intros t. pose proof (built_mirrors payload sel h0) as Hm. fold t in Hm.
  split.
  - rewrite interaction_nodes_unfold. apply interaction_nodes_of_interaction_kind.
    rewrite flatten_true_filter. apply Forall_forall. intros n Hn.
    apply list_elem_of_filter in Hn as [Hi Hn].
    apply list_elem_of_lookup in Hn as [i Hi'].
    destruct (Forall2_lookup_r _ _ _ _ _ Hm Hi') as (a & _ & Ha).
    by apply (mirrors_is_interaction a n).
  - rewrite flatten_true_filter, omap_filter_bool. symmetry.
    eapply omap_Forall2; [|exact Hm].
    intros a n Han. symmetry. by apply mirrors_is_interaction.
Qed.

End Built.

(** ** Matching sub-trees and dialogs *)

Lemma fold_left_app_concat {A B} (g : A → list B) (cs : list A) :
  ∀ acc, fold_left (λ acc c, acc ++ g c) cs acc = acc ++ concat (map g cs).
Proof.
  induction cs as [|c cs IH]; intros acc; simpl.
  - by rewrite app_nil_r.
  - by rewrite IH, <- app_assoc.
Qed.

Lemma sublist_concat {A} (ls ks : list (list A)) :
  Forall2 sublist ls ks → concat ls `sublist_of` concat ks.
Proof. induction 1; simpl; [constructor|]. by apply sublist_app. Qed.

Section Matching.
Context `{RT : RoleTable NodeRole}.
Implicit Types (n m t : DomNode NodeRole).

Lemma find_all_matching_unfold n (p : DomNode NodeRole → bool) :
  find_all_matching_subtrees_with_parents n p =
    if p n then [n]
    else concat (map (λ c, find_all_matching_subtrees_with_parents c p) (children n)).
Proof.
  transitivity
    (if p n then [n]
     else fold_left
            (λ matches child,
               matches ++ find_all_matching_subtrees_with_parents child p)
            (children n) []).
  - destruct n. reflexivity.
  - destruct (p n); [done|]. by rewrite fold_left_app_concat.
Qed.

Lemma find_all_matching_sound (p : DomNode NodeRole → bool) n :
  Forall (λ m, p m = true ∧ m ∈ flatten false n)
         (find_all_matching_subtrees_with_parents n p) ∧
  find_all_matching_subtrees_with_parents n p `sublist_of` flatten false n ∧
  (find_all_matching_subtrees_with_parents n p = [] ↔
   ∀ m, m ∈ flatten false n → p m = false).
Proof.
  induction n as [n IH] using DomNode_children_ind.
  rewrite find_all_matching_unfold, flatten_all_unfold.
  destruct (p n) eqn:Hp.
  { split_and!.
    - constructor; [|constructor]. split; [done|]. apply list_elem_of_here.
    - apply sublist_skip, sublist_nil_l.
    - split; [done|]. intros Hall. specialize (Hall n (list_elem_of_here _ _)).
      congruence. }
  split_and!.
  - apply Forall_concat, Forall_map, Forall_forall. intros c Hc.
    destruct (proj1 (Forall_forall _ _) IH c Hc) as (Hs & _).
    eapply Forall_impl; [exact Hs|]. intros m [Hm Hin]. split; [done|].
    apply list_elem_of_further, elem_of_concat. exists (flatten false c).
    split; [|done]. by apply (list_elem_of_fmap_2 (flatten false)).
  - apply sublist_cons, sublist_concat.
    clear Hp. induction IH as [|c cs (_ & Hc & _) _ IHcs]; simpl; by constructor.
  - split.
    + intros Hnil m Hm. apply elem_of_cons in Hm as [->|Hm]; [done|].
      apply elem_of_concat in Hm as (l & Hl & Hm).
      apply list_elem_of_fmap in Hl as (c & -> & Hc).
      destruct (proj1 (Forall_forall _ _) IH c Hc) as (_ & _ & Hiff).
      apply Hiff; [|done].
      destruct (find_all_matching_subtrees_with_parents c p) as [|x l] eqn:Hf;
        [done|].
      exfalso. assert (Hx : x ∈ @nil (DomNode NodeRole)); [|by apply elem_of_nil in Hx].
      rewrite <- Hnil. apply elem_of_concat. exists (x :: l). split.
      * rewrite <- Hf.
        by apply (list_elem_of_fmap_2
                    (λ c, find_all_matching_subtrees_with_parents c p)).
      * apply list_elem_of_here.
    + intros Hall.
      assert (Hcs : Forall (λ c, find_all_matching_subtrees_with_parents c p = [])
                      (children n)).
      { apply Forall_forall. intros c Hc.
        destruct (proj1 (Forall_forall _ _) IH c Hc) as (_ & _ & Hiff).
        apply Hiff. intros m Hm. apply Hall.
        apply list_elem_of_further, elem_of_concat. exists (flatten false c).
        split; [|done]. by apply (list_elem_of_fmap_2 (flatten false)). }
      clear -Hcs. induction Hcs as [|c cs Hc _ IHcs]; simpl; [done|].
      by rewrite Hc, IHcs.
Qed.

(** X7.  [find_all_matching_subtrees_with_parents] returns nodes of the tree
    that satisfy the predicate, in pre-order; a node that satisfies the
    predicate is returned alone, whatever is below it (the search does not
    go into a matching sub-tree); and the result is empty exactly when no
    node of the tree satisfies the predicate. *)
Theorem find_all_matching_subtrees_spec (p : DomNode NodeRole → bool) n :
  let matches := find_all_matching_subtrees_with_parents n p in
  Forall (λ m, p m = true ∧ m ∈ flatten false n) matches ∧
  matches `sublist_of` flatten false n ∧
  (p n = true → matches = [n]) ∧
  (matches = [] ↔ ∀ m, m ∈ flatten false n → p m = false).
Proof.
  intros matches. destruct (find_all_matching_sound p n) as (Hs & Hsub & Hnil).
  split_and!; [done|done| |done].
  intros Hp. unfold matches. rewrite find_all_matching_unfold. by rewrite Hp.
Qed.

Variable DIALOG : NodeRole.

(** X8.  [prune_non_dialogs_if_present] never returns an empty list: when no
    node of the tree is a dialog in the viewport it returns the node itself,
    and otherwise it returns only nodes of the tree that are dialogs in the
    viewport (the node itself alone, if it is one). *)
Theorem prune_non_dialogs_if_present_spec h n :
  let result := prune_non_dialogs_if_present DIALOG h n in
  result ≠ [] ∧
  ((∀ m, m ∈ flatten false n → is_dialog DIALOG h m = false) → result = [n]) ∧
  ((∃ m, m ∈ flatten false n ∧ is_dialog DIALOG h m = true) →
   Forall (λ m, m ∈ flatten false n ∧ role m = Known DIALOG ∧
                in_viewport (heap_get h (computed_attributes m)) = true) result) ∧
  (is_dialog DIALOG h n = true → result = [n]).
Proof.
  intros result. unfold result, prune_non_dialogs_if_present.
  destruct (find_all_matching_sound (is_dialog DIALOG h) n) as (Hs & _ & Hnil).
  case_decide as Hlen.
  - apply nil_length_inv in Hlen. split_and!; [done|done| |done].
    intros (m & Hm & Hd). rewrite (proj1 Hnil Hlen m Hm) in Hd. done.
  - split_and!.
    + intros Heq. by rewrite Heq in Hlen.
    + intros Hall. apply Hnil in Hall. by rewrite Hall in Hlen.
    + intros _. eapply Forall_impl; [exact Hs|]. intros m [Hd Hm].
      unfold is_dialog in Hd. apply andb_true_iff in Hd as [Hr Hv].
      apply bool_decide_eq_true_1 in Hr. done.
    + intros Hd. rewrite find_all_matching_unfold. by rewrite Hd.
Qed.

End Matching.

(** ** What [subtree_filter] keeps *)

Section FilterSurvivors.
Context `{RT : RoleTable NodeRole}.
Implicit Types (n m t : DomNode NodeRole).

Lemma subtree_filter_inner_sublist ft t :
  ∀ t1, subtree_filter_inner ft t = Some t1 →
        omap node_id (flatten false t1) `sublist_of` omap node_id (flatten false t).
Proof.
  induction t as [t IH] using DomNode_children_ind. intros t1 Ht1.
  apply subtree_filter_inner_Some in Ht1 as (_ & _ & ->).
  rewrite (flatten_all_unfold t), flatten_all_unfold. simpl.
  assert (Hcs : omap node_id
                  (concat (map (flatten false)
                             (omap (subtree_filter_inner ft) (children t))))
                `sublist_of`
                omap node_id (concat (map (flatten false) (children t)))).
  { rewrite !omap_concat, !map_map.
    induction IH as [|c cs Hc _ IHcs]; simpl; [done|].
    destruct (subtree_filter_inner ft c) as [c1|] eqn:Hf; simpl.
    - apply sublist_app; [by apply Hc|exact IHcs].
    - by apply sublist_inserts_l. }
  destruct (node_id t); simpl; [by apply sublist_skip|done].
Qed.

Lemma subtree_filter_inner_alive ft t :
  ∀ t1, subtree_filter_inner ft t = Some t1 →
        Forall (λ m, ¬ is_dead m ∧ ids_consistent m) (flatten false t1).
Proof.
  induction t as [t IH] using DomNode_children_ind. intros t1 Ht1.
  apply subtree_filter_inner_Some in Ht1 as (_ & Hdead & ->).
  rewrite flatten_all_unfold. simpl. constructor.
  - split; [|apply DomNode_init_ids_consistent].
    intros (Hid & Hch & Htx). simpl in *.
    rewrite Hid, Hch, Htx in Hdead. done.
  - apply Forall_concat, Forall_map, Forall_forall. intros x Hx.
    apply list_elem_of_omap in Hx as (c & Hc & Hx).
    by apply (proj1 (Forall_forall _ _) IH c Hc).
Qed.

(** X9.  In a tree that [subtree_filter] returns, no node is a dead branch
    (each has an id, a child or a non-blank text); every node comes from a
    node of the input that the predicate accepts, with the same id and text;
    the ids are a sub-sequence of the ids of the input, in the same order
    (no id is invented, none is moved); and the stored [subtree_ids] are
    recomputed, those of the root being the ids that survive. *)
Theorem subtree_filter_survivors ft t t1 :
  subtree_filter t ft = Some t1 →
  Forall (λ m, ¬ is_dead m) (flatten false t1) ∧
  (∀ m, m ∈ flatten false t1 →
        ∃ n, n ∈ flatten false t ∧ ft n = true ∧
             node_id m = node_id n ∧ text m = text n) ∧
  omap node_id (flatten false t1) `sublist_of` omap node_id (flatten false t) ∧
  subtree_ids t1 = omap node_id (flatten false t1).
Proof.
  unfold subtree_filter. intros Ht1.
  pose proof (subtree_filter_inner_alive ft t t1 Ht1) as Halive. split_and!.
  - eapply Forall_impl; [exact Halive|]. by intros m [? _].
  - intros m Hm.
    destruct (subtree_filter_inner_nodes ft t t1 Ht1 m Hm)
      as (n & Hn & Hft & Hid & Htx & _).
    by exists n.
  - by apply (subtree_filter_inner_sublist ft).
  - apply ids_consistent_flatten.
    eapply Forall_impl; [exact Halive|]. by intros m [_ ?].
Qed.

(** X10.  [subtree_filter] returns the tree itself when the predicate
    accepts every node and the tree has no dead branch, for a tree as the
    constructor builds it (roles classified, [subtree_ids] consistent). *)
Theorem subtree_filter_keeps_all ft t :
  roles_classified t →
  Forall ids_consistent (flatten false t) →
  Forall (λ n, ¬ is_dead n) (flatten false t) →
  (∀ n, n ∈ flatten false t → ft n = true) →
  subtree_filter t ft = Some t.
Proof.
  unfold subtree_filter.
  induction t as [t IH] using DomNode_children_ind.
  intros Hcl Hids Halive Hft.
  apply roles_classified_inv in Hcl as [Hrole Hcs].
  rewrite flatten_all_unfold in Hids, Halive.
  apply Forall_cons in Hids as [Hid_t Hids].
  apply Forall_cons in Halive as [Halive_t Halive].
  rewrite Forall_concat, Forall_map in Hids, Halive.
  assert (Hfixed : omap (subtree_filter_inner ft) (children t) = children t).
  { apply omap_fixed, Forall_forall. intros c Hc.
    eapply (proj1 (Forall_forall _ _) IH c Hc).
    - by eapply (proj1 (Forall_forall _ _) Hcs).
    - by eapply (proj1 (Forall_forall _ _) Hids).
    - by eapply (proj1 (Forall_forall _ _) Halive).
    - intros m Hm. apply Hft. by eapply elem_of_flatten_child. }
  rewrite subtree_filter_inner_unfold, (Hft t (elem_of_flatten_self t)). simpl.
  rewrite Hfixed.
  assert (Hnot : bool_decide (node_id t = None)
                 && bool_decide (length (children t) = 0)
                 && bool_decide (strip (text t) = EmptyString) = false).
  { apply not_true_is_false. intros Hd.
    apply andb_true_iff in Hd as [Hd Htx]. apply andb_true_iff in Hd as [Hid Hch].
    apply bool_decide_eq_true_1 in Hid, Hch, Htx.
    apply Halive_t. split_and!; [done| |done]. by apply nil_length_inv. }
  rewrite Hnot. f_equal.
  destruct t as [i ty r tx cs a ca si p]. unfold DomNode_init. simpl in *.
  rewrite Hrole. unfold ids_consistent in Hid_t. simpl in Hid_t.
  by rewrite extend_subtree_ids_concat, <- Hid_t.
Qed.

End FilterSurvivors.

Lemma subtree_filter_survivors_witness :
  ∃ t1, subtree_filter (built page_with_button).1 not_text = Some t1 ∧
        subtree_ids t1 = omap node_id (flatten false t1).
Proof.
  eexists. split; [vm_compute; reflexivity|].
  eapply (subtree_filter_survivors not_text (built page_with_button).1).
  vm_compute. reflexivity.
Defined.

Lemma subtree_filter_keeps_all_witness :
  subtree_filter (built page_with_button).1 (λ _, true)
    = Some (built page_with_button).1.
Proof.
  apply (subtree_filter_keeps_all (λ _, true) (built page_with_button).1).
  - apply from_a11y_node_built.
  - apply from_a11y_node_built.
  - vm_compute. repeat constructor; intros (H1 & H2 & H3); discriminate.
  - done.
Defined.

(** ** More on the resolution *)

Lemma add_trace_app (a b : list Event) (w : World) :
  add_trace b (add_trace a w) = add_trace (a ++ b) w.
Proof. unfold add_trace; simpl. by rewrite <- app_assoc. Qed.

Lemma candidate_pairs_elem (browser : BrowserDriver) sels sel f :
  (sel, f) ∈ candidate_pairs browser sels ↔
  sel ∈ selectors_list sels ∧ f ∈ page_frames browser.
Proof.
  unfold candidate_pairs. rewrite list_elem_of_In, in_flat_map. split.
  - intros (s & Hs & Hin). apply in_map_iff in Hin as (g & [= <- <-] & Hg).
    by rewrite !list_elem_of_In.
  - intros [Hs Hf]. exists sel. rewrite <- list_elem_of_In. split; [done|].
    apply in_map_iff. exists f. by rewrite <- list_elem_of_In.
Qed.

Lemma candidate_pairs_length (browser : BrowserDriver) sels :
  length (candidate_pairs browser sels)
    = length (selectors_list sels) * length (page_frames browser).
Proof.
  unfold candidate_pairs. induction (selectors_list sels) as [|s ss IH]; simpl; [done|].
  by rewrite length_app, length_map, IH.
Qed.

Section ResolveMore.
Context `{RT : RoleTable NodeRole}.
Variable browser : BrowserDriver.
Implicit Types (node : DomNode NodeRole).

Lemma accepted_pair_Some sels sel f :
  accepted_pair browser sels = Some (sel, f) →
  sel ∈ selectors_list sels ∧ f ∈ page_frames browser ∧
  locator_count browser f sel = Returned 1 ∧
  ∃ pre post,
    candidate_pairs browser sels = pre ++ (sel, f) :: post ∧
    Forall (λ q, locator_count browser q.2 q.1 ≠ Returned 1) pre ∧
    (probe_scan browser (candidate_pairs browser sels)).1 = pre ++ [(sel, f)].
Proof.
  unfold accepted_pair.
  destruct (first_unique_split browser (candidate_pairs browser sels))
    as [Hnone|(pre & p & post & Heq & Hpre & Hp)].
  - by rewrite probe_scan_none.
  - rewrite Heq, probe_scan_first by done. simpl. intros [= ->].
    assert (Hin : (sel, f) ∈ candidate_pairs browser sels).
    { rewrite Heq. apply elem_of_app. right. apply list_elem_of_here. }
    apply candidate_pairs_elem in Hin as [Hs Hf].
    split_and!; [done|done|by apply (is_unique_true browser (sel, f))|].
    exists pre, post. split_and!; [done| |done].
    eapply Forall_impl; [exact Hpre|]. intros q Hq Hc.
    apply (is_unique_true browser q) in Hc. congruence.
Qed.

Lemma resolve_with_selectors_world node sels w :
  (resolve_with_selectors browser node sels w).2 =
    add_trace
      (count_events (probe_scan browser (candidate_pairs browser sels)).1
       ++ match accepted_pair browser sels with
          | Some (sel, f) => live_state_events browser (f, sel)
          | None => []
          end) w.
Proof.
  unfold resolve_with_selectors, accepted_pair. unfold bind at 1.
  rewrite get_valid_locator_scan.
  destruct (probe_scan browser (candidate_pairs browser sels)) as [ps [[sel f]|]];
    simpl; [|by rewrite app_nil_r].
  unfold live_state_events, bind, await, ret, raise; simpl.
  destruct (locator_is_editable browser f sel) as [[|]|]; simpl;
    try destruct (locator_get_attribute_type browser f sel) as [t|]; simpl;
    try destruct (locator_is_visible browser f sel) as [v|]; simpl;
    try destruct (locator_is_enabled browser f sel) as [e|]; simpl;
    try destruct (negb v || negb e); simpl;
    by rewrite !log_event_add_trace, !add_trace_app.
Qed.

(** X11.  When no (selector, frame) pair has the count 1,
    [get_valid_locator] raises [FailedUniqueLocatorResolutionError] only
    after it has probed every candidate selector in every frame, once each
    and in order: as many probes as candidates times frames; on a page
    without frames it raises without a single probe. *)
Theorem get_valid_locator_exhausts sels w :
  Forall (λ q, locator_count browser q.2 q.1 ≠ Returned 1)
         (candidate_pairs browser sels) →
  get_valid_locator (NodeRole := NodeRole) browser sels w =
    (inl (FailedUniqueLocatorResolutionError sels),
     add_trace (count_events (candidate_pairs browser sels)) w) ∧
  length (count_events (candidate_pairs browser sels))
    = length (selectors_list sels) * length (page_frames browser) ∧
  (page_frames browser = [] →
   get_valid_locator (NodeRole := NodeRole) browser sels w =
     (inl (FailedUniqueLocatorResolutionError sels), w)).
Proof.
  intros Hall.
  assert (Hscan : probe_scan browser (candidate_pairs browser sels)
                  = (candidate_pairs browser sels, None)).
  { apply probe_scan_none. eapply Forall_impl; [exact Hall|].
    intros q Hq. destruct (is_unique browser q) eqn:E; [|done].
    by apply is_unique_true in E. }
  split_and!.
  - by rewrite get_valid_locator_scan, Hscan.
  - unfold count_events. by rewrite length_map, candidate_pairs_length.
  - intros Hnil. rewrite get_valid_locator_scan, Hscan. simpl.
    assert (Hempty : candidate_pairs browser sels = []).
    { apply nil_length_inv. rewrite candidate_pairs_length, Hnil. simpl. lia. }
    by rewrite Hempty, add_trace_nil.
Qed.

(** X12.  For a node with an id and without selectors, [compute_attributes]
    starts with the fallback resolution.  If the driver finds no locator for
    the id, or derives no selectors from the locator, the call fails with
    [FailedNodeResolutionError], the node stays unresolved and no selector
    is probed; an exception of either driver call propagates.  If both
    succeed, the bundle is cached on the node and the call goes on exactly
    as for a node that already had this bundle. *)
Theorem compute_attributes_unresolved node snapshot w id :
  node_id node = Some id →
  selectors (heap_get (heap w) (computed_attributes node)) = None →
  computed_attributes node < length (heap w) →
  match get_locator_for_node_id browser (a11y_tree_raw snapshot) id with
  | Raised =>
      compute_attributes browser node snapshot w
        = (inl DriverException, add_trace [EvGetLocatorForNodeId id] w)
  | Returned None =>
      compute_attributes browser node snapshot w
        = (inl (FailedNodeResolutionError node),
           add_trace [EvGetLocatorForNodeId id] w)
  | Returned (Some l) =>
      match get_html_selector browser l with
      | Raised =>
          compute_attributes browser node snapshot w
            = (inl DriverException,
               add_trace [EvGetLocatorForNodeId id; EvGetHtmlSelector l] w)
      | Returned None =>
          compute_attributes browser node snapshot w
            = (inl (FailedNodeResolutionError node),
               add_trace [EvGetLocatorForNodeId id; EvGetHtmlSelector l] w)
      | Returned (Some hs) =>
          let w1 :=
            {| heap := set_selectors (computed_attributes node)
                         (fallback_bundle hs) (heap w);
               trace := trace w ++ [EvGetLocatorForNodeId id; EvGetHtmlSelector l] |} in
          selectors (heap_get (heap w1) (computed_attributes node))
            = Some (fallback_bundle hs) ∧
          compute_attributes browser node snapshot w
            = resolve_with_selectors browser node (fallback_bundle hs) w1 ∧
          compute_attributes browser node snapshot w
            = compute_attributes browser node snapshot w1
      end
  end.
Proof.
  intros Hid Hnone Hlt.
  assert (Hset : ∀ hs, selectors
            (heap_get (set_selectors (computed_attributes node)
                         (fallback_bundle hs) (heap w))
               (computed_attributes node)) = Some (fallback_bundle hs)).
  { intros hs. unfold set_selectors, heap_get.
    by rewrite list_lookup_total_insert_eq. }
  assert (E : compute_attributes browser node snapshot w =
    match get_locator_for_node_id browser (a11y_tree_raw snapshot) id with
    | Raised => (inl DriverException, add_trace [EvGetLocatorForNodeId id] w)
    | Returned None =>
        (inl (FailedNodeResolutionError node),
         add_trace [EvGetLocatorForNodeId id] w)
    | Returned (Some l) =>
        match get_html_selector browser l with
        | Raised =>
            (inl DriverException,
             add_trace [EvGetLocatorForNodeId id; EvGetHtmlSelector l] w)
        | Returned None =>
            (inl (FailedNodeResolutionError node),
             add_trace [EvGetLocatorForNodeId id; EvGetHtmlSelector l] w)
        | Returned (Some hs) =>
            resolve_with_selectors browser node (fallback_bundle hs)
              {| heap := set_selectors (computed_attributes node)
                           (fallback_bundle hs) (heap w);
                 trace := trace w
                          ++ [EvGetLocatorForNodeId id; EvGetHtmlSelector l] |}
        end
    end).
  { unfold compute_attributes. rewrite Hid.
    unfold fill_node_selectors, bind, read_heap, await, raise, ret, write_heap.
    simpl. rewrite Hnone, Hid. simpl.
    destruct (get_locator_for_node_id browser (a11y_tree_raw snapshot) id)
      as [[l|]|]; simpl; rewrite ?Hnone; try done.
    destruct (get_html_selector browser l) as [[hs|]|]; simpl;
      rewrite ?Hnone; unfold add_trace, log_event, update_heap; simpl;
      rewrite <- ?app_assoc; try done.
    pose proof (Hset hs) as Hs. unfold fallback_bundle in Hs. rewrite Hs.
    reflexivity. }
  rewrite E.
  destruct (get_locator_for_node_id browser (a11y_tree_raw snapshot) id)
    as [[l|]|]; try done.
  destruct (get_html_selector browser l) as [[hs|]|]; try done.
  split; [apply Hset|]. split; [done|].
  symmetry. apply compute_attributes_cached with (i := id); [done|apply Hset].
Qed.

(** X13.  A locator that [compute_attributes] returns for a node with cached
    selectors has as primary (playwright) selector a candidate of the
    bundle that matched exactly one element in a live frame of the page;
    the remaining fields of the bundle are those cached; the element was
    reported visible and enabled; [is_editable] is what the driver
    reported, and [input_type] is the type attribute read from the page for
    an editable element and [None] for any other. *)
Theorem compute_attributes_resolved node snapshot w i sels rl :
  node_id node = Some i →
  selectors (heap_get (heap w) (computed_attributes node)) = Some sels →
  (compute_attributes browser node snapshot w).1 = inr rl →
  ∃ sel f,
    accepted_pair browser sels = Some (sel, f) ∧
    sel ∈ selectors_list sels ∧ f ∈ page_frames browser ∧
    locator_count browser f sel = Returned 1 ∧
    locator_is_visible browser f sel = Returned true ∧
    locator_is_enabled browser f sel = Returned true ∧
    locator_is_editable browser f sel = Returned (rl_is_editable rl) ∧
    (if rl_is_editable rl
     then locator_get_attribute_type browser f sel = Returned (rl_input_type rl)
     else rl_input_type rl = None) ∧
    rl_selector rl = with_primary sels sel ∧
    rl_role rl = role node.
Proof.
  intros Hid Hsel. erewrite compute_attributes_cached by done.
  rewrite resolve_with_selectors_result.
  destruct (accepted_pair browser sels) as [[sel f]|] eqn:Hacc; [|done].
  destruct (accepted_pair_Some sels sel f Hacc) as (Hs & Hf & Hcount & _).
  destruct (locator_is_editable browser f sel) as [[|]|] eqn:Hed; [| |done];
    destruct (locator_get_attribute_type browser f sel) as [t|] eqn:Hty;
    destruct (locator_is_visible browser f sel) as [[|]|] eqn:Hv;
    destruct (locator_is_enabled browser f sel) as [[|]|] eqn:He;
    simpl; try done; intros [= <-]; exists sel, f; by split_and!.
Qed.

(** X14.  For a node with an id and cached selectors, the driver calls of
    [compute_attributes] are the count probes up to the accepted pair
    followed by the live-state probes on the accepted locator, in the order
    editable, type attribute, visible, enabled, and the heap is left as it
    is.  The type attribute is read exactly when the element is reported
    editable; the enabled probe is made whenever the visible probe returns,
    also when it returns [False]. *)
Theorem compute_attributes_probe_order node snapshot w i sels :
  node_id node = Some i →
  selectors (heap_get (heap w) (computed_attributes node)) = Some sels →
  let events :=
    match accepted_pair browser sels with
    | Some (sel, f) => live_state_events browser (f, sel)
    | None => []
    end in
  (compute_attributes browser node snapshot w).2 =
    add_trace
      (count_events (probe_scan browser (candidate_pairs browser sels)).1 ++ events)
      w ∧
  (∀ sel f, accepted_pair browser sels = Some (sel, f) →
     (EvGetAttributeType (f, sel) ∈ events
      ↔ locator_is_editable browser f sel = Returned true) ∧
     (EvIsVisible (f, sel) ∈ events ∧ locator_is_visible browser f sel ≠ Raised
      → EvIsEnabled (f, sel) ∈ events)).
Proof.
  intros Hid Hsel events. split.
  - erewrite compute_attributes_cached by done. apply resolve_with_selectors_world.
  - intros sel f Hacc. unfold events. rewrite Hacc. unfold live_state_events. simpl.
    destruct (locator_is_editable browser f sel) as [[|]|];
      destruct (locator_get_attribute_type browser f sel) as [t|];
      destruct (locator_is_visible browser f sel) as [[|]|];
      simpl; split; try set_solver.
Qed.

End ResolveMore.

Lemma get_valid_locator_exhausts_witness :
  get_valid_locator (NodeRole := SampleRole) ambiguous_browser sample_selectors
      cached_world
    = (inl (FailedUniqueLocatorResolutionError sample_selectors),
       {| heap := heap cached_world;
          trace := [ EvCount "internal:role=button" 0;
                     EvCount "internal:role=button" 1;
                     EvCount "#b1" 0; EvCount "#b1" 1;
                     EvCount "//button[1]" 0; EvCount "//button[1]" 1 ] |}) ∧
  length (count_events (candidate_pairs ambiguous_browser sample_selectors)) = 6.
Proof.
  destruct (get_valid_locator_exhausts (NodeRole := SampleRole) ambiguous_browser
              sample_selectors cached_world) as (Hrun & Hlen & _).
  - repeat (apply Forall_cons_2; [discriminate|]). apply Forall_nil_2.
  - split; [exact Hrun|exact Hlen].
Defined.

Lemma compute_attributes_unresolved_witness :
  let w := built_world page_with_button in
  (compute_attributes sample_browser button_node sample_snapshot w).1
    = (compute_attributes sample_browser button_node sample_snapshot
         {| heap := set_selectors 0
                      (fallback_bundle {| hs_playwright_selector := None;
                                          hs_css_selector := "#b1";
                                          hs_xpath_selector := "//button[1]" |})
                      (heap w);
            trace := [EvGetLocatorForNodeId "B1"; EvGetHtmlSelector 0] |}).1.
Proof.
  intros w.
  pose proof (compute_attributes_unresolved sample_browser button_node
                sample_snapshot w "B1") as H.
  simpl in H. destruct H as (_ & _ & H); [reflexivity|reflexivity|vm_compute; lia|].
  by rewrite H.
Defined.

Lemma compute_attributes_resolved_witness :
  ∃ rl, (compute_attributes sample_browser button_node sample_snapshot
           cached_world).1 = inr rl ∧
        rl_selector rl = with_primary sample_selectors "#b1".
Proof.
  eexists. split; [vm_compute; reflexivity|].
  destruct (compute_attributes_resolved sample_browser button_node sample_snapshot
              cached_world "B1" sample_selectors _ eq_refl eq_refl eq_refl)
    as (sel & f & Hacc & _ & _ & _ & _ & _ & _ & _ & Hsel & _).
  vm_compute in Hacc. injection Hacc as <- <-. exact Hsel.
Defined.

Lemma compute_attributes_probe_order_witness :
  trace (compute_attributes sample_browser button_node sample_snapshot
           cached_world).2
    = [EvCount "internal:role=button" 0; EvCount "#b1" 0; EvIsEditable (0, "#b1");
       EvIsVisible (0, "#b1"); EvIsEnabled (0, "#b1")]%string.
Proof.
  destruct (compute_attributes_probe_order sample_browser button_node
              sample_snapshot cached_world "B1" sample_selectors eq_refl eq_refl)
    as [H _].
  rewrite H. reflexivity.
Defined.

(** ** A successful [forward], and [get_url] *)

Lemma split_colon_head_spec (s : string) :
  no_colon (split_colon_head s) ∧
  (s = split_colon_head s ∨
   ∃ rest, s = String.append (split_colon_head s) (String ":" rest)).
Proof.
  unfold no_colon. induction s as [|c s [IHn IHs]]; simpl.
  - split; [tauto|by left].
  - destruct (Ascii.eqb c ":") eqn:Hc.
    + apply Ascii.eqb_eq in Hc as ->. split; [simpl; tauto|].
      right. by exists s.
    + apply Ascii.eqb_neq in Hc. split.
      * simpl. intros [Heq|Hin]; [by apply Hc|by apply IHn].
      * destruct IHs as [IHs|[rest IHs]].
        -- left. by f_equal.
        -- right. exists rest. rewrite IHs at 1. reflexivity.
Qed.

Section ForwardSuccess.
Context `{RT : RoleTable NodeRole}.
Variable browser : BrowserDriver.
Implicit Types (n m t : DomNode NodeRole).

(** The node that [find] hands back is the coerced copy of a node of the
    graph that carries the id and has the kind INTERACTION. *)
Lemma find_found_origin h id t m :
  find h t id = inr (Some m) →
  ∃ n, n ∈ flatten false t ∧ node_id n = Some id ∧
       node_type n = INTERACTION ∧ m = coerced n.
Proof.
  revert m. induction t as [t IH] using DomNode_children_ind. intros m.
  rewrite find_unfold. case_decide as Hid.
  - pose proof (to_interaction_node_cases h t) as H.
    destruct (to_interaction_node h t) as [e|m']; [done|].
    intros [= <-]. destruct H as (Hty & _ & ->).
    exists t. split; [apply elem_of_flatten_self|done].
  - clear Hid.
    assert (Hcs : ∀ c, c ∈ children t → ∀ m, find h c id = inr (Some m) →
              ∃ n, n ∈ flatten false t ∧ node_id n = Some id ∧
                   node_type n = INTERACTION ∧ m = coerced n).
    { intros c Hc m' Hm'.
      destruct (proj1 (Forall_forall _ _) IH c Hc m' Hm') as (n & Hn & Hrest).
      exists n. split; [by eapply elem_of_flatten_child|done]. }
    clear IH. induction (children t) as [|c cs IHcs]; simpl; [done|].
    destruct (find h c id) as [e|[found|]] eqn:Hfind; [done| |].
    + intros [= <-]. eapply Hcs; [apply list_elem_of_here|done].
    + intros Hm. apply IHcs; [|done].
      intros c' Hc'. apply Hcs. by apply list_elem_of_further.
Qed.

(** What a successful [compute_attributes] leaves behind: selectors on the
    node, from which the locator was built. *)
Lemma compute_attributes_success (node : DomNode NodeRole) snapshot w rl :
  (compute_attributes browser node snapshot w).1 = inr rl →
  ∃ sels,
    selectors (heap_get (heap (compute_attributes browser node snapshot w).2)
                 (computed_attributes node)) = Some sels ∧
    (∃ selector, rl_selector rl = with_primary sels selector) ∧
    rl_role rl = role node.
Proof.
  assert (Hres : ∀ sels w1 rl,
    (resolve_with_selectors browser node sels w1).1 = inr rl →
    heap (resolve_with_selectors browser node sels w1).2 = heap w1 ∧
    (∃ selector, rl_selector rl = with_primary sels selector) ∧
    rl_role rl = role node).
  { intros sels w1 rl1 H1. split.
    - by rewrite resolve_with_selectors_world.
    - rewrite resolve_with_selectors_result in H1.
      destruct (accepted_pair browser sels) as [[sel f]|]; [|done].
      destruct (locator_is_editable browser f sel) as [[|]|]; [| |done];
        destruct (locator_get_attribute_type browser f sel) as [t|];
        destruct (locator_is_visible browser f sel) as [[|]|];
        destruct (locator_is_enabled browser f sel) as [[|]|];
        simpl in H1; try done; injection H1 as <-; split; try done;
        by exists sel. }
  destruct (node_id node) as [i|] eqn:Hid;
    [|by unfold compute_attributes; rewrite Hid].
  destruct (selectors (heap_get (heap w) (computed_attributes node)))
    as [sels|] eqn:Hsel.
  - rewrite (compute_attributes_cached browser node snapshot w i sels Hid Hsel).
    intros H1. destruct (Hres sels w rl H1) as (Hheap & Hrest).
    exists sels. by rewrite Hheap.
  - assert (E : compute_attributes browser node snapshot w =
      match fill_node_selectors browser node snapshot w with
      | (inl e, w2) => (inl e, w2)
      | (inr _, w2) =>
          match selectors (heap_get (heap w2) (computed_attributes node)) with
          | None =>
              (inl (InvalidInternalCheckError NoSelectorsFound
                      (Some (metadata_url snapshot))), w2)
          | Some sels => resolve_with_selectors browser node sels w2
          end
      end).
    { unfold compute_attributes. rewrite Hid.
      unfold bind at 1. unfold read_heap at 1. simpl. rewrite Hsel.
      unfold bind at 1. unfold bind at 1.
      destruct (fill_node_selectors browser node snapshot w) as [[e|u] w2];
        [done|].
      unfold bind, read_heap, ret, raise. simpl.
      by destruct (selectors (heap_get (heap w2) (computed_attributes node))). }
    rewrite E.
    destruct (fill_node_selectors browser node snapshot w) as [[e|u] w2];
      [done|].
    destruct (selectors (heap_get (heap w2) (computed_attributes node)))
      as [sels|] eqn:Hsel2; [|done].
    intros H1. destruct (Hres sels w2 rl H1) as (Hheap & Hrest).
    exists sels. by rewrite Hheap.
Qed.

(** X15.  When [forward] returns an executable action, the action carries
    the id, description, category and parameters of the request with the
    status "valid" and no code; the graph has a node with the requested id
    whose kind is INTERACTION, the role of the locator is the role of that
    node, and after the call that node's computed attributes hold the
    selectors the locator was built from (the node is resolved for the
    calls that follow). *)
Theorem forward_success action params_values (context : ProcessedBrowserSnapshot)
    w ea :
  (forward browser action params_values context w).1 = inr ea →
  ea_id ea = action_id action ∧
  ea_description ea = action_description action ∧
  ea_category ea = action_category action ∧
  ea_params ea = action_params action ∧
  ea_params_values ea = params_values ∧
  ea_status ea = "valid"%string ∧ ea_code ea = None ∧
  ∃ n sels,
    n ∈ flatten false (context_node context) ∧
    node_id n = Some (action_id action) ∧ node_type n = INTERACTION ∧
    rl_role (ea_locator ea) = classify_role (role n) ∧
    selectors (heap_get (heap (forward browser action params_values context w).2)
                 (computed_attributes n)) = Some sels ∧
    ∃ selector, rl_selector (ea_locator ea) = with_primary sels selector.
Proof.
  assert (E : forward browser action params_values context w =
    match find (heap w) (context_node context) (action_id action) with
    | inl e => (inl e, w)
    | inr node => forward_found browser action params_values context node w
    end).
  { unfold forward, bind, read_heap, lift_result. simpl.
    by destruct (find (heap w) (context_node context) (action_id action)). }
  rewrite E. clear E.
  destruct (find (heap w) (context_node context) (action_id action))
    as [e|[m|]] eqn:Hfind; [done| |done].
  destruct (find_found_origin _ _ _ _ Hfind) as (n & Hn & Hid & Hty & ->).
  unfold forward_found.
  rewrite decide_False by (intros H; apply H; exact Hid).
  unfold bind, ret.
  pose proof (compute_attributes_success (coerced n) (context_snapshot context) w)
    as Hs.
  destruct (compute_attributes browser (coerced n) (context_snapshot context) w)
    as [[e|rl] w1]; simpl; [done|].
  intros [= <-]. simpl. split_and!; try done.
  destruct (Hs rl eq_refl) as (sels & Hsel & Hprim & Hrole).
  exists n, sels. by split_and!.
Qed.

(** X16.  [get_url] returns something only for a node whose cached bundle
    has a non-empty [notte_selector]; what it returns is the part of that
    selector before its first colon: it contains no colon, and the selector
    is either that part alone or that part, a colon and a rest.  A node that
    has no selectors, or selectors from the fallback resolution (which have
    an empty [notte_selector]), has no url. *)
Theorem get_url_spec h n :
  match get_url h n with
  | Some url =>
      ∃ sels, selectors (heap_get h (computed_attributes n)) = Some sels ∧
              notte_selector sels ≠ EmptyString ∧
              no_colon url ∧
              (notte_selector sels = url ∨
               ∃ rest, notte_selector sels = String.append url (String ":" rest))
  | None =>
      selectors (heap_get h (computed_attributes n)) = None ∨
      ∃ sels, selectors (heap_get h (computed_attributes n)) = Some sels ∧
              notte_selector sels = EmptyString
  end ∧
  (∀ hs, selectors (heap_get h (computed_attributes n)) = Some (fallback_bundle hs) →
         get_url h n = None).
Proof.
  unfold get_url. split.
  - destruct (selectors (heap_get h (computed_attributes n))) as [sels|]; [|by left].
    case_decide as Hlen.
    + right. exists sels. split; [done|].
      by destruct (notte_selector sels).
    + exists sels. split; [done|]. split.
      * intros Heq. by rewrite Heq in Hlen.
      * apply split_colon_head_spec.
  - intros hs Hsel. by rewrite Hsel.
Qed.

End ForwardSuccess.

Lemma forward_success_witness :
  ∃ ea, (forward sample_browser (sample_action "B1") []
           (sample_context page_with_button) (built_world page_with_button)).1
          = inr ea ∧
        ea_id ea = "B1"%string ∧ ea_status ea = "valid"%string.
Proof.
  eexists. split; [vm_compute; reflexivity|].
  destruct (forward_success sample_browser (sample_action "B1") []
              (sample_context page_with_button) (built_world page_with_button) _
              eq_refl) as (Hid & _ & _ & _ & _ & Hst & _).
  split; [exact Hid|exact Hst].
Defined.

(** ** Dictionaries *)

Lemma dict_get_set_eq {V} k (v : V) d : dict_get k (dict_set k v d) = Some v.
Proof.
  induction d as [|[k' v'] d IH]; simpl.
  - by rewrite decide_True.
  - destruct (decide (k' = k)) as [->|Hne]; simpl.
    + by rewrite decide_True.
    + by rewrite decide_False.
Qed.

Lemma dict_get_set_ne {V} k k' (v : V) d :
  k' ≠ k → dict_get k' (dict_set k v d) = dict_get k' d.
Proof.
  intros Hne. induction d as [|[k0 v0] d IH]; simpl.
  - by rewrite decide_False.
  - destruct (decide (k0 = k)) as [->|Hne0]; simpl.
    + by rewrite !decide_False.
    + by rewrite IH.
Qed.

Lemma dict_get_None {V} k (d : list (string * V)) :
  dict_get k d = None ↔ k ∉ dict_keys d.
Proof.
  unfold dict_keys. induction d as [|[k' v'] d IH]; simpl.
  - split; [intros _; apply not_elem_of_nil|done].
  - rewrite not_elem_of_cons. destruct (decide (k' = k)) as [->|Hne].
    + split; [done|]. by intros [? _].
    + rewrite IH. split; [by split|tauto].
Qed.

Lemma dict_get_Some_elem {V} k (v : V) d : dict_get k d = Some v → (k, v) ∈ d.
Proof.
  induction d as [|[k' v'] d IH]; simpl; [done|].
  destruct (decide (k' = k)) as [->|Hne].
  - intros [= ->]. apply list_elem_of_here.
  - intros H. apply list_elem_of_further. by apply IH.
Qed.

Lemma dict_get_is_Some {V} k (d : list (string * V)) :
  k ∈ dict_keys d → is_Some (dict_get k d).
Proof.
  intros Hk. destruct (dict_get k d) eqn:H; [done|].
  by apply dict_get_None in H.
Qed.

Lemma dict_get_unique {V} k (v : V) d :
  NoDup (dict_keys d) → (k, v) ∈ d → dict_get k d = Some v.
Proof.
  unfold dict_keys. induction d as [|[k' v'] d IH]; simpl.
  - intros _ H. by apply elem_of_nil in H.
  - rewrite NoDup_cons. intros [Hk' Hd] [Heq|Hin]%elem_of_cons.
    + injection Heq as -> ->. by rewrite decide_True.
    + rewrite decide_False; [by apply IH|].
      intros ->. apply Hk'. apply list_elem_of_fmap. by exists (k, v).
Qed.

Lemma dict_keys_set {V} k (v : V) d :
  dict_keys (dict_set k v d) =
    if decide (k ∈ dict_keys d) then dict_keys d else dict_keys d ++ [k].
Proof.
  unfold dict_keys. induction d as [|[k' v'] d IH].
  - rewrite decide_False; [done|apply not_elem_of_nil].
  - change (dict_set k v ((k', v') :: d))
      with (if decide (k' = k) then (k, v) :: d else (k', v') :: dict_set k v d).
    change (((k', v') :: d).*1) with (k' :: d.*1).
    destruct (decide (k' = k)) as [->|Hne].
    + rewrite decide_True; [done|apply list_elem_of_here].
    + change (((k', v') :: dict_set k v d).*1) with (k' :: (dict_set k v d).*1).
      rewrite IH. destruct (decide (k ∈ d.*1)) as [Hin|Hnin].
      * rewrite decide_True; [done|by apply list_elem_of_further].
      * rewrite decide_False; [done|].
        rewrite not_elem_of_cons. by split.
Qed.

Lemma dict_keys_set_elem {V} k k' (v : V) d :
  k' ∈ dict_keys (dict_set k v d) ↔ k' = k ∨ k' ∈ dict_keys d.
Proof.
  rewrite dict_keys_set. case_decide as Hk.
  - split; [by right|]. by intros [->|?].
  - rewrite elem_of_app, list_elem_of_singleton. tauto.
Qed.

Lemma dict_keys_set_NoDup {V} k (v : V) d :
  NoDup (dict_keys d) → NoDup (dict_keys (dict_set k v d)).
Proof.
  intros Hd. rewrite dict_keys_set. case_decide as Hk; [done|].
  apply NoDup_app. split_and!; [done| |apply NoDup_singleton].
  intros x Hx ->%list_elem_of_singleton. by apply Hk.
Qed.

Lemma dict_set_elem {V} k (v : V) d kv :
  kv ∈ dict_set k v d → kv = (k, v) ∨ kv ∈ d.
Proof.
  induction d as [|[k' v'] d IH]; simpl.
  - intros ->%list_elem_of_singleton. by left.
  - destruct (decide (k' = k)) as [->|Hne].
    + intros [->|Hin]%elem_of_cons; [by left|].
      right. by apply list_elem_of_further.
    + intros [->|Hin]%elem_of_cons; [right; apply list_elem_of_here|].
      destruct (IH Hin) as [->|Hd]; [by left|].
      right. by apply list_elem_of_further.
Qed.

Lemma dict_set_Forall {V} (P : string * V → Prop) k v d :
  Forall P d → P (k, v) → Forall P (dict_set k v d).
Proof.
  intros Hd Hkv. apply Forall_forall. intros kv Hin.
  destruct (dict_set_elem _ _ _ _ Hin) as [->|Hin']; [done|].
  by apply (proj1 (Forall_forall _ _) Hd).
Qed.

(** ** [DomErrorBuffer] *)

Lemma substring_length_le m s : String.length (substring 0 m s) ≤ m.
Proof.
  revert s. induction m as [|m IH]; intros [|c s]; simpl; try lia.
  specialize (IH s). lia.
Qed.

Lemma sample_of_length v : String.length (sample_of v) ≤ 50.
Proof. apply (substring_length_le 50). Qed.

Lemma recorded_ok values key samples :
  samples_ok samples → samples_ok (recorded values key samples).
Proof.
  intros (Hlen & Hnd & Hall). unfold recorded.
  destruct (dict_get key values) as [v|]; [|done].
  case_decide as Hc; [|done]. destruct Hc as [Hlt Hnew].
  unfold samples_ok, max_samples_per_key in *. split_and!.
  - rewrite length_app. simpl. lia.
  - apply NoDup_app. split_and!; [done| |apply NoDup_singleton].
    intros x Hx ->%list_elem_of_singleton. by apply Hnew.
  - apply Forall_app. split; [done|].
    apply Forall_singleton, sample_of_length.
Qed.

(** One turn of the loop of [add_error], seen from a key. *)
Lemma add_error_key_get values key buffer k :
  dict_get k (add_error_key values key buffer).2 =
    if decide (k = key)
    then Some (recorded values key (default [] (dict_get key buffer)))
    else dict_get k buffer.
Proof.
  unfold add_error_key, recorded, sample_of.
  set (buffer1 := if decide (key ∈ dict_keys buffer) then buffer
                  else dict_set key [] buffer).
  assert (H1 : ∀ k', dict_get k' buffer1 =
            if decide (k' = key) then Some (default [] (dict_get key buffer))
            else dict_get k' buffer).
  { intros k'. unfold buffer1. destruct (decide (key ∈ dict_keys buffer)) as [Hin|Hnin].
    - case_decide as Hk; [|done]. subst k'.
      by destruct (dict_get_is_Some _ _ Hin) as [l ->].
    - case_decide as Hk.
      + subst k'. rewrite dict_get_set_eq.
        apply dict_get_None in Hnin. by rewrite Hnin.
      + by rewrite dict_get_set_ne. }
  destruct (dict_get key values) as [v|]; simpl.
  - rewrite (H1 key), (decide_True (P := key = key)) by done. simpl.
    case_decide as Hc; simpl.
    + case_decide as Hk.
      * subst k. by rewrite dict_get_set_eq.
      * rewrite dict_get_set_ne by done. by rewrite H1, decide_False.
    + rewrite H1. by case_decide.
  - rewrite H1. by case_decide.
Qed.

Lemma add_error_key_keys values key buffer k :
  k ∈ dict_keys (add_error_key values key buffer).2 ↔
  k = key ∨ k ∈ dict_keys buffer.
Proof.
  pose proof (add_error_key_get values key buffer k) as Hget.
  split.
  - intros Hin. destruct (decide (k = key)) as [|Hne]; [by left|]. right.
    destruct (dict_get_is_Some _ _ Hin) as [l Hl].
    destruct (dict_get k buffer) eqn:Hb; [|congruence].
    destruct (decide (k ∈ dict_keys buffer)) as [|Hnin]; [done|].
    apply dict_get_None in Hnin. congruence.
  - intros Hor. destruct (decide (k ∈ dict_keys (add_error_key values key buffer).2))
      as [|Hnin]; [done|exfalso].
    apply dict_get_None in Hnin. rewrite Hnin in Hget.
    case_decide as Hk; [done|]. destruct Hor as [|Hin]; [done|].
    symmetry in Hget. by apply dict_get_None in Hget.
Qed.

Lemma add_error_key_ok values key buffer :
  buffer_ok buffer → buffer_ok (add_error_key values key buffer).2.
Proof.
  intros [Hnd Hall]. unfold add_error_key.
  set (buffer1 := if decide (key ∈ dict_keys buffer) then buffer
                  else dict_set key [] buffer).
  assert (H1 : buffer_ok buffer1).
  { unfold buffer1. case_decide; [done|]. split.
    - by apply dict_keys_set_NoDup.
    - apply dict_set_Forall; [done|]. simpl. unfold samples_ok. split_and!.
      + simpl. unfold max_samples_per_key. lia.
      + apply NoDup_nil_2.
      + apply Forall_nil_2. }
  destruct H1 as [Hnd1 Hall1].
  destruct (dict_get key values) as [v|]; simpl; [|done].
  assert (Hs : samples_ok (default [] (dict_get key buffer1))).
  { destruct (dict_get key buffer1) as [l|] eqn:Hl; simpl.
    - apply dict_get_Some_elem in Hl.
      by apply (proj1 (Forall_forall _ _) Hall1 _ Hl).
    - unfold samples_ok, max_samples_per_key. simpl. split_and!;
        [lia|apply NoDup_nil_2|apply Forall_nil_2]. }
  case_decide as Hc; simpl; [|done]. split.
  - by apply dict_keys_set_NoDup.
  - apply dict_set_Forall; [done|]. simpl.
    pose proof (recorded_ok [(key, v)] key _ Hs) as Hr.
    unfold recorded in Hr. simpl in Hr. rewrite decide_True in Hr by done.
    unfold sample_of in Hr. by rewrite decide_True in Hr.
Qed.

Lemma add_error_ok extra_keys values buffer :
  buffer_ok buffer → buffer_ok (add_error extra_keys values buffer).2.
Proof.
  revert buffer. induction extra_keys as [|key ks IH]; intros buffer Hb; [done|].
  simpl. pose proof (add_error_key_ok values key buffer Hb) as H1.
  destruct (add_error_key values key buffer) as [[e|u] b1]; [done|].
  by apply IH.
Qed.

Lemma add_error_key_returns values key buffer :
  key ∈ dict_keys values → (add_error_key values key buffer).1 = inr ().
Proof.
  intros Hin. unfold add_error_key.
  destruct (dict_get_is_Some _ _ Hin) as [v ->]. by case_decide.
Qed.

Lemma add_error_returns extra_keys values buffer :
  (∀ k, k ∈ extra_keys → k ∈ dict_keys values) →
  (add_error extra_keys values buffer).1 = inr ().
Proof.
  revert buffer. induction extra_keys as [|key ks IH]; intros buffer Hks; [done|].
  simpl. pose proof (add_error_key_returns values key buffer) as H1.
  destruct (add_error_key values key buffer) as [[e|u] b1].
  - simpl in H1. discriminate H1. apply Hks, list_elem_of_here.
  - apply IH. intros k Hk. by apply Hks, list_elem_of_further.
Qed.

Lemma add_error_keys extra_keys values buffer k :
  (∀ k, k ∈ extra_keys → k ∈ dict_keys values) →
  k ∈ dict_keys (add_error extra_keys values buffer).2 ↔
  k ∈ extra_keys ∨ k ∈ dict_keys buffer.
Proof.
  revert buffer. induction extra_keys as [|key ks IH]; intros buffer Hks; simpl.
  - split; [by right|]. intros [H|H]; [by apply elem_of_nil in H|done].
  - pose proof (add_error_key_returns values key buffer) as H1.
    pose proof (add_error_key_keys values key buffer k) as H2.
    destruct (add_error_key values key buffer) as [[e|u] b1].
    + simpl in H1. discriminate H1. apply Hks, list_elem_of_here.
    + rewrite IH by (intros k' Hk'; by apply Hks, list_elem_of_further).
      simpl in H2. rewrite H2, elem_of_cons. tauto.
Qed.

Lemma flush_ok buffer : buffer_ok buffer → buffer_ok (flush buffer).2.
Proof.
  intros Hb. unfold flush. case_decide; [done|]. simpl.
  split; [apply NoDup_nil_2|apply Forall_nil_2].
Qed.

Lemma DomAttributes_init_ok kwargs buffer :
  buffer_ok buffer → buffer_ok (DomAttributes_init kwargs buffer).2.
Proof.
  intros Hb. unfold DomAttributes_init.
  case_decide; [|done].
  match goal with
  | |- context [add_error ?ks ?vs buffer] =>
      pose proof (add_error_ok ks vs buffer Hb) as H1;
      destruct (add_error ks vs buffer) as [[e|u] b1]
  end; done.
Qed.

Lemma add_error_cons_returns key extra_keys values buffer :
  key ∈ dict_keys values →
  add_error (key :: extra_keys) values buffer =
    add_error extra_keys values (add_error_key values key buffer).2.
Proof.
  intros Hin. pose proof (add_error_key_returns values key buffer Hin) as H1.
  cbn [add_error]. by destruct (add_error_key values key buffer) as [[e|u] b1].
Qed.

Lemma add_error_key_missing values key buffer :
  key ∉ dict_keys values →
  (add_error_key values key buffer).1 = inl (mkKeyError key).
Proof.
  intros H%dict_get_None. unfold add_error_key. by rewrite H.
Qed.

(** X17.  Whatever calls of [add_error], [flush] and [DomAttributes.init]
    the buffer has gone through since the start of the program, it holds at
    most five samples for each key, no sample twice under one key, no sample
    longer than fifty characters, and no key twice. *)
Theorem error_buffer_bounded buffer : reachable buffer → buffer_ok buffer.
Proof.
  induction 1 as [|ks values b Hb IH|b Hb IH|kwargs b Hb IH].
  - split; [apply NoDup_nil_2|apply Forall_nil_2].
  - by apply add_error_ok.
  - by apply flush_ok.
  - by apply DomAttributes_init_ok.
Qed.

Lemma error_buffer_bounded_witness :
  let values i := [("onclick", VInt i); ("style", VStr "x")]%string in
  let buffer :=
    fold_right (λ i b, (add_error ["onclick"; "style"]%string (values i) b).2)
      [] [1; 2; 3; 4; 5; 6; 7]%Z in
  buffer = [("onclick", ["7"; "6"; "5"; "4"; "3"]); ("style", ["x"])]%string ∧
  buffer_ok buffer.
Proof.
  intros values buffer. split; [vm_compute; reflexivity|].
  apply error_buffer_bounded. unfold buffer. cbn [fold_right].
  repeat apply reachable_add_error. apply reachable_start.
Defined.

(** X18.  [add_error] with keys that all have a value returns, and key by
    key its effect is this: a key that is not among [extra_keys] keeps its
    samples; a key among them has the samples it had (none when it was
    new), followed by the first fifty characters of [str] of its value when
    there were fewer than five samples and this one was not among them.
    So the samples do not depend on the order in which the set
    [extra_keys] is gone through. *)
Theorem add_error_per_key extra_keys values buffer :
  NoDup extra_keys →
  (∀ k, k ∈ extra_keys → k ∈ dict_keys values) →
  (add_error extra_keys values buffer).1 = inr () ∧
  (∀ key,
     dict_get key (add_error extra_keys values buffer).2 =
       if decide (key ∈ extra_keys)
       then Some (recorded values key (default [] (dict_get key buffer)))
       else dict_get key buffer) ∧
  (∀ other_order key,
     other_order ≡ₚ extra_keys →
     dict_get key (add_error other_order values buffer).2 =
       dict_get key (add_error extra_keys values buffer).2).
Proof.
  assert (Hget : ∀ ks b, NoDup ks → (∀ k, k ∈ ks → k ∈ dict_keys values) →
    ∀ key, dict_get key (add_error ks values b).2 =
      if decide (key ∈ ks)
      then Some (recorded values key (default [] (dict_get key b)))
      else dict_get key b).
  { induction ks as [|k0 ks IH]; intros b Hnd Hks key.
    - rewrite decide_False; [done|apply not_elem_of_nil].
    - apply NoDup_cons in Hnd as [Hk0 Hnd].
      rewrite add_error_cons_returns by apply Hks, list_elem_of_here.
      rewrite IH; [|done|intros k' Hk'; by apply Hks, list_elem_of_further].
      rewrite !add_error_key_get.
      destruct (decide (key ∈ ks)) as [Hin|Hnin].
      + rewrite (decide_True (P := key ∈ k0 :: ks))
          by (by apply list_elem_of_further).
        rewrite (decide_False (P := key = k0)); [done|]. by intros ->.
      + destruct (decide (key = k0)) as [->|Hne].
        * rewrite (decide_True (P := k0 ∈ k0 :: ks)); [done|].
          apply list_elem_of_here.
        * rewrite (decide_False (P := key ∈ k0 :: ks)); [done|].
          rewrite not_elem_of_cons. by split. }
  intros Hnd Hks. split_and!.
  - by apply add_error_returns.
  - by apply Hget.
  - intros other key Hperm.
    assert (Hnd' : NoDup other) by (by rewrite Hperm).
    assert (Hks' : ∀ k, k ∈ other → k ∈ dict_keys values)
      by (intros k Hk; apply Hks; by rewrite <- Hperm).
    rewrite (Hget other buffer Hnd' Hks' key),
      (Hget extra_keys buffer Hnd Hks key).
    destruct (decide (key ∈ other)) as [Hin|Hnin].
    + rewrite decide_True; [done|]. by rewrite <- Hperm.
    + rewrite decide_False; [done|]. by rewrite <- Hperm.
Qed.

Lemma add_error_per_key_witness :
  let buffer := [("onclick", ["go()"])]%string in
  (add_error ["onclick"; "style"]%string sample_kwargs buffer).1 = inr () ∧
  dict_get "style"%string
    (add_error ["style"; "onclick"]%string sample_kwargs buffer).2 =
  dict_get "style"%string
    (add_error ["onclick"; "style"]%string sample_kwargs buffer).2.
Proof.
  intros buffer.
  destruct (add_error_per_key ["onclick"; "style"]%string sample_kwargs buffer)
    as (Hret & _ & Horder).
  - by apply NoDup_cons_2; [set_solver|apply NoDup_singleton].
  - intros k Hk. unfold sample_kwargs, dict_keys. simpl. set_solver.
  - split; [exact Hret|]. apply Horder, perm_swap.
Defined.

(** X19.  When a key of [extra_keys] has no value, [add_error] raises the
    [KeyError] of the first such key, and by then the key is in the buffer:
    with the samples it had, with none when it was new. *)
Theorem add_error_missing_value before key after values buffer :
  (∀ k, k ∈ before → k ∈ dict_keys values) →
  key ∉ dict_keys values →
  (add_error (before ++ key :: after) values buffer).1 = inl (mkKeyError key) ∧
  dict_get key (add_error (before ++ key :: after) values buffer).2 =
    Some (default [] (dict_get key buffer)).
Proof.
  intros Hbefore Hkey. revert buffer.
  induction before as [|k0 ks IH]; intros buffer.
  - change ([] ++ key :: after) with (key :: after). cbn [add_error].
    pose proof (add_error_key_missing values key buffer Hkey) as H1.
    pose proof (add_error_key_get values key buffer key) as H2.
    rewrite (decide_True (P := key = key)) in H2 by done.
    unfold recorded in H2. apply dict_get_None in Hkey. rewrite Hkey in H2.
    destruct (add_error_key values key buffer) as [[e|u] b1];
      cbn [fst snd] in H1, H2; [|done].
    split; [by rewrite H1|exact H2].
  - change ((k0 :: ks) ++ key :: after) with (k0 :: (ks ++ key :: after)).
    rewrite add_error_cons_returns by apply Hbefore, list_elem_of_here.
    assert (Hks : ∀ k, k ∈ ks → k ∈ dict_keys values)
      by (intros k Hk; by apply Hbefore, list_elem_of_further).
    destruct (IH Hks (add_error_key values k0 buffer).2) as [E1 E2].
    split; [exact E1|].
    rewrite E2, add_error_key_get, (decide_False (P := key = k0)); [done|].
    intros ->. apply Hkey, Hbefore, list_elem_of_here.
Qed.

Lemma add_error_missing_value_witness :
  (add_error ["style"; "lost"; "onclick"]%string sample_kwargs []).1
    = inl (mkKeyError "lost") ∧
  dict_get "lost"%string
    (add_error ["style"; "lost"; "onclick"]%string sample_kwargs []).2 = Some [].
Proof.
  apply (add_error_missing_value ["style"]%string "lost"%string
           ["onclick"]%string sample_kwargs []).
  - intros k Hk. unfold sample_kwargs, dict_keys. simpl. set_solver.
  - unfold sample_kwargs, dict_keys. simpl. set_solver.
Defined.

(** ** [DomAttributes.init] *)

Lemma filter_none {A} (P : A → Prop) `{!∀ x, Decision (P x)} (l : list A) :
  (∀ x, x ∈ l → ¬ P x) → filter P l = [].
Proof.
  intros Hnone. destruct (filter P l) as [|x l'] eqn:E; [done|].
  assert (Hx : x ∈ filter P l) by (rewrite E; apply list_elem_of_here).
  apply list_elem_of_filter in Hx as [HP Hin]. by destruct (Hnone x Hin).
Qed.

Lemma dict_keys_elem {V} k (d : list (string * V)) :
  k ∈ dict_keys d ↔ ∃ v, (k, v) ∈ d.
Proof.
  unfold dict_keys. rewrite list_elem_of_fmap. split.
  - intros ([k1 v] & Heq & Hin). cbn [fst] in Heq. subst k1. by exists v.
  - intros (v & Hin). by exists (k, v).
Qed.

Lemma dict_get_del_ne {V} k k' (d : list (string * V)) :
  k' ≠ k → dict_get k' (dict_del k d) = dict_get k' d.
Proof.
  intros Hne. unfold dict_del. induction d as [|[k0 v0] d IH]; [done|].
  cbn [dict_get]. destruct (decide (k0 = k)) as [->|H0].
  - rewrite filter_cons_False by (by intros H; apply H).
    rewrite (decide_False (P := k = k')) by done. exact IH.
  - rewrite filter_cons_True by done. cbn [dict_get].
    destruct (decide (k0 = k')); [done|exact IH].
Qed.

Lemma dict_del_elem {V} k (d : list (string * V)) kv :
  kv ∈ dict_del k d ↔ kv ∈ d ∧ kv.1 ≠ k.
Proof. unfold dict_del. rewrite list_elem_of_filter. tauto. Qed.

Lemma dict_del_NoDup {V} k (d : list (string * V)) :
  NoDup (dict_keys d) → NoDup (dict_keys (dict_del k d)).
Proof.
  unfold dict_keys, dict_del. induction d as [|[k0 v0] d IH]; [done|].
  rewrite fmap_cons, NoDup_cons. intros [Hk0 Hd]. rewrite filter_cons.
  case_decide; [|by apply IH].
  rewrite fmap_cons, NoDup_cons. split; [|by apply IH].
  intros ((k1 & v1) & Heq & Hin)%list_elem_of_fmap. cbn [fst] in Heq. subst k1.
  apply list_elem_of_filter in Hin as [_ Hin].
  apply Hk0, list_elem_of_fmap. by exists (k0, v1).
Qed.

Lemma dict_get_map_keys (g : string → PyValue) f fields :
  dict_get f (map (λ key, (key, g key)) fields) =
    if decide (f ∈ fields) then Some (g f) else None.
Proof.
  induction fields as [|f0 fs IH].
  - rewrite decide_False; [done|apply not_elem_of_nil].
  - cbn [map dict_get]. destruct (decide (f0 = f)) as [->|Hne].
    + rewrite decide_True; [done|apply list_elem_of_here].
    + rewrite IH. destruct (decide (f ∈ fs)) as [Hin|Hnin].
      * rewrite (decide_True (P := f ∈ f0 :: fs)); [done|].
        by apply list_elem_of_further.
      * rewrite (decide_False (P := f ∈ f0 :: fs)); [done|].
        rewrite not_elem_of_cons. by split.
Qed.

Lemma map_keys_elem (g : string → PyValue) f v fields :
  (f, v) ∈ map (λ key, (key, g key)) fields → f ∈ fields ∧ v = g f.
Proof.
  induction fields as [|f0 fs IH]; cbn [map].
  - intros H. by apply elem_of_nil in H.
  - intros [[= -> ->]|Hin]%elem_of_cons.
    + split; [apply list_elem_of_here|done].
    + destruct (IH Hin) as [Hf Hv]. split; [by apply list_elem_of_further|done].
Qed.

Lemma map_keys_keys (g : string → PyValue) fields :
  dict_keys (map (λ key, (key, g key)) fields) = fields.
Proof.
  unfold dict_keys. induction fields as [|f0 fs IH]; [done|].
  cbn [map]. rewrite fmap_cons. cbn [fst]. by rewrite IH.
Qed.

(** The comprehension, seen from a new key: the last item renamed to it. *)
Lemma renamed_items_get f kwargs :
  dict_get f (renamed_items kwargs) =
    match last (filter (renamed_to f) kwargs) with
    | Some kv => Some kv.2
    | None => None
    end.
Proof.
  unfold renamed_items.
  assert (H : ∀ d,
    dict_get f (fold_left
      (λ d kv, if skipped_key kv.1 then d
               else dict_set (replace_dash kv.1) kv.2 d) kwargs d) =
    match last (filter (renamed_to f) kwargs) with
    | Some kv => Some kv.2
    | None => dict_get f d
    end); [|by rewrite H].
  induction kwargs as [|[k v] kwargs IH]; intros d; [done|].
  cbn [fold_left fst snd]. rewrite IH, filter_cons.
  destruct (skipped_key k) eqn:Hs.
  - rewrite (decide_False (P := renamed_to f (k, v))); [done|].
    unfold renamed_to. cbn [fst]. rewrite Hs. by intros [? _].
  - destruct (decide (replace_dash k = f)) as [Hf|Hf].
    + rewrite (decide_True (P := renamed_to f (k, v))) by (by split).
      rewrite last_cons.
      destruct (last (filter (renamed_to f) kwargs)); [done|].
      cbn [snd]. by rewrite <- Hf, dict_get_set_eq.
    + rewrite (decide_False (P := renamed_to f (k, v))) by (by intros [_ ?]).
      destruct (last (filter (renamed_to f) kwargs)); [done|].
      by rewrite dict_get_set_ne.
Qed.

Lemma renamed_items_keys k kwargs :
  k ∈ dict_keys (renamed_items kwargs) ↔
  ∃ k0, k0 ∈ dict_keys kwargs ∧ skipped_key k0 = false ∧ replace_dash k0 = k.
Proof.
  pose proof (renamed_items_get k kwargs) as Hget.
  destruct (last (filter (renamed_to k) kwargs)) as [kv|] eqn:Hlast.
  - apply last_Some_elem_of, list_elem_of_filter in Hlast as [[Hs Hr] Hin].
    split.
    + intros _. exists kv.1. split_and!; [|done..].
      apply dict_keys_elem. exists kv.2. by destruct kv.
    + intros _. destruct (decide (k ∈ dict_keys (renamed_items kwargs)))
        as [|Hnin]; [done|].
      apply dict_get_None in Hnin. congruence.
  - apply dict_get_None in Hget. apply last_None in Hlast. split; [done|].
    intros (k0 & (v1 & Hin)%dict_keys_elem & Hs & Hr).
    assert (Hf : (k0, v1) ∈ filter (renamed_to k) kwargs).
    { apply list_elem_of_filter. by split. }
    rewrite Hlast in Hf. by apply elem_of_nil in Hf.
Qed.

(** With distinct keys, of which one only is renamed to [f], the
    comprehension has under [f] what the arguments had under that key. *)
Lemma renamed_items_get_unique f k0 kwargs :
  NoDup (dict_keys kwargs) →
  (∀ kv, kv ∈ kwargs → renamed_to f kv → kv.1 = k0) →
  skipped_key k0 = false → replace_dash k0 = f →
  dict_get f (renamed_items kwargs) = dict_get k0 kwargs.
Proof.
  intros Hnd Hall Hs Hr. rewrite renamed_items_get. unfold dict_keys in Hnd.
  induction kwargs as [|[k v] kwargs IH]; [done|].
  rewrite fmap_cons in Hnd. apply NoDup_cons in Hnd as [Hk Hnd].
  rewrite filter_cons. cbn [dict_get].
  destruct (decide (renamed_to f (k, v))) as [Hkv|Hkv].
  - assert (k = k0) as -> by (apply (Hall (k, v)); [apply list_elem_of_here|done]).
    rewrite (decide_True (P := k0 = k0)) by done.
    assert (Hnil : filter (renamed_to f) kwargs = []).
    { apply filter_none. intros [k1 v1] Hin Hkv1.
      assert (k1 = k0) as ->
        by (apply (Hall (k1, v1)); [by apply list_elem_of_further|done]).
      apply Hk, list_elem_of_fmap. by exists (k0, v1). }
    by rewrite Hnil.
  - rewrite (decide_False (P := k = k0)).
    + apply IH; [done|]. intros kv Hin. apply Hall. by apply list_elem_of_further.
    + intros ->. apply Hkv. by split.
Qed.

Lemma replace_dash_variants k : k ∈ dash_variants (replace_dash k).
Proof.
  induction k as [|c k IH]; cbn [replace_dash dash_variants].
  - apply list_elem_of_here.
  - destruct (Ascii.eqb c "-") eqn:Hc.
    + apply Ascii.eqb_eq in Hc as ->.
      change (Ascii.eqb "_" "_") with true. cbv iota.
      apply elem_of_app. right. apply list_elem_of_fmap. by exists k.
    + destruct (Ascii.eqb c "_") eqn:Hu.
      * apply Ascii.eqb_eq in Hu as ->.
        apply elem_of_app. left. apply list_elem_of_fmap. by exists k.
      * apply list_elem_of_fmap. by exists k.
Qed.

Lemma replace_dash_no_underscore k :
  no_underscore (replace_dash k) → replace_dash k = k.
Proof.
  induction k as [|c k IH]; cbn [replace_dash no_underscore]; [done|].
  destruct (Ascii.eqb c "-") eqn:Hc.
  - intros [H _]. by destruct H.
  - intros [_ Hk]. by rewrite IH.
Qed.

Lemma fields_not_skipped f : f ∈ dataclass_fields → skipped_key f = false.
Proof.
  assert (H : Forall (λ f, skipped_key f = false) dataclass_fields).
  { unfold dataclass_fields.
    repeat (apply Forall_cons_2; [reflexivity|]). apply Forall_nil_2. }
  apply (proj1 (Forall_forall _ _) H).
Qed.

Lemma fields_without_dash f : f ∈ dataclass_fields → replace_dash f = f.
Proof.
  assert (H : Forall (λ f, replace_dash f = f) dataclass_fields).
  { unfold dataclass_fields.
    repeat (apply Forall_cons_2; [reflexivity|]). apply Forall_nil_2. }
  apply (proj1 (Forall_forall _ _) H).
Qed.

Lemma class_not_field : "class"%string ∉ dataclass_fields.
Proof.
  unfold dataclass_fields.
  repeat (apply not_elem_of_cons; split; [done|]). apply not_elem_of_nil.
Qed.

Lemma class_moved_elem kwargs k v :
  (k, v) ∈ class_moved kwargs →
  (k, v) ∈ kwargs ∨ (k = "class_name"%string ∧ ("class"%string, v) ∈ kwargs).
Proof.
  unfold class_moved. destruct (dict_get "class" kwargs) as [c|] eqn:Hc; [|by left].
  intros [Hin _]%dict_del_elem.
  apply dict_set_elem in Hin as [[= -> ->]|Hin]; [|by left].
  right. split; [done|]. by apply dict_get_Some_elem.
Qed.

Lemma class_moved_keys kwargs k :
  k ∈ dict_keys (class_moved kwargs) →
  k ∈ dict_keys kwargs ∨ k = "class_name"%string.
Proof.
  intros (v & Hin)%dict_keys_elem.
  apply class_moved_elem in Hin as [Hin|[-> _]]; [|by right].
  left. apply dict_keys_elem. by exists v.
Qed.

Lemma class_moved_keeps kwargs k :
  k ∈ dict_keys kwargs → k ≠ "class"%string →
  k ∈ dict_keys (class_moved kwargs).
Proof.
  intros Hin Hne. unfold class_moved.
  destruct (dict_get "class" kwargs) as [c|]; [|done].
  assert (Hset : k ∈ dict_keys (dict_set "class_name" c kwargs))
    by (apply dict_keys_set_elem; by right).
  apply dict_keys_elem in Hset as (v & Hv).
  apply dict_keys_elem. exists v. apply dict_del_elem. by split.
Qed.

Lemma class_moved_NoDup kwargs :
  NoDup (dict_keys kwargs) → NoDup (dict_keys (class_moved kwargs)).
Proof.
  intros Hnd. unfold class_moved. destruct (dict_get "class" kwargs); [|done].
  by apply dict_del_NoDup, dict_keys_set_NoDup.
Qed.

Lemma class_moved_get_other kwargs f :
  f ≠ "class"%string → f ≠ "class_name"%string →
  dict_get f (class_moved kwargs) = dict_get f kwargs.
Proof.
  intros H1 H2. unfold class_moved. destruct (dict_get "class" kwargs); [|done].
  by rewrite dict_get_del_ne, dict_get_set_ne.
Qed.

Lemma class_moved_get_class_name kwargs v :
  dict_get "class" kwargs = Some v →
  dict_get "class_name" (class_moved kwargs) = Some v.
Proof.
  intros Hc. unfold class_moved. rewrite Hc.
  by rewrite dict_get_del_ne, dict_get_set_eq.
Qed.

(** [DomAttributes.init] in terms of the items after the comprehension. *)
Lemma DomAttributes_init_unfold kwargs buffer :
  DomAttributes_init kwargs buffer =
    let extra_keys :=
      filter (λ k, (k ∉ dataclass_fields) ∧ (k ∉ excluded_keys))
        (dict_keys (init_items kwargs)) in
    let instance :=
      map (λ key, (key, default VNone (dict_get key (init_items kwargs))))
        dataclass_fields in
    if decide (0 < length extra_keys)
    then match add_error extra_keys (init_items kwargs) buffer with
         | (inl e, buffer) => (inl e, buffer)
         | (inr _, buffer) => (inr instance, buffer)
         end
    else (inr instance, buffer).
Proof. reflexivity. Qed.

(** It does not raise, and its fields are looked up in those items. *)
Lemma DomAttributes_init_result kwargs buffer :
  (DomAttributes_init kwargs buffer).1 =
    inr (map (λ key, (key, default VNone (dict_get key (init_items kwargs))))
           dataclass_fields).
Proof.
  rewrite DomAttributes_init_unfold. cbv zeta. case_decide; [|done].
  match goal with
  | |- context [add_error ?ks ?vs buffer] =>
      pose proof (add_error_returns ks vs buffer) as H1;
      destruct (add_error ks vs buffer) as [[e|u] b1]
  end; [|done].
  exfalso. cbn [fst] in H1. discriminate H1.
  by intros k [_ Hk]%list_elem_of_filter.
Qed.

Lemma DomAttributes_init_field kwargs buffer instance f :
  (DomAttributes_init kwargs buffer).1 = inr instance →
  f ∈ dataclass_fields →
  field f instance = default VNone (dict_get f (init_items kwargs)).
Proof.
  rewrite DomAttributes_init_result. intros Hinit Hf.
  apply (inj inr) in Hinit. subst instance. unfold field.
  rewrite (dict_get_map_keys
             (λ key, default VNone (dict_get key (init_items kwargs)))).
  by rewrite decide_True.
Qed.

(** The keys of the buffer after [DomAttributes.init]. *)
Lemma DomAttributes_init_buffer_keys kwargs buffer k :
  k ∈ dict_keys (DomAttributes_init kwargs buffer).2 ↔
  ((k ∉ dataclass_fields) ∧ (k ∉ excluded_keys)
   ∧ k ∈ dict_keys (init_items kwargs))
  ∨ k ∈ dict_keys buffer.
Proof.
  rewrite DomAttributes_init_unfold. cbv zeta.
  set (ks := filter (λ k, (k ∉ dataclass_fields) ∧ (k ∉ excluded_keys))
               (dict_keys (init_items kwargs))).
  assert (Hks : k ∈ ks ↔ (k ∉ dataclass_fields) ∧ (k ∉ excluded_keys)
                         ∧ k ∈ dict_keys (init_items kwargs)).
  { unfold ks. rewrite list_elem_of_filter. tauto. }
  rewrite <- Hks. case_decide as Hlen.
  - pose proof (add_error_returns ks (init_items kwargs) buffer) as H1.
    pose proof (add_error_keys ks (init_items kwargs) buffer k) as H2.
    assert (Hsub : ∀ k, k ∈ ks → k ∈ dict_keys (init_items kwargs))
      by (by intros k' [_ Hk']%list_elem_of_filter).
    specialize (H1 Hsub). specialize (H2 Hsub).
    by destruct (add_error ks (init_items kwargs) buffer) as [[e|u] b1].
  - assert (ks = []) as -> by (destruct ks; [done|cbn [length] in Hlen; lia]).
    cbn [snd]. split; [by right|]. intros [H|H]; [|done].
    by apply elem_of_nil in H.
Qed.

(** X20.  [DomAttributes.init] does not raise; the instance has the fields
    of the dataclass; and a field that is not [None] holds the value of an
    argument whose key does not start with "data-", "js", "__" or "g-" and
    is the name of the field with dashes for some of its underscores, or
    the value of the argument "class" for the field [class_name]. *)
Theorem DomAttributes_init_provenance kwargs buffer :
  ∃ instance,
    (DomAttributes_init kwargs buffer).1 = inr instance ∧
    dict_keys instance = dataclass_fields ∧
    ∀ f v, (f, v) ∈ instance → v ≠ VNone →
      ∃ k, (k, v) ∈ kwargs ∧ skipped_key k = false ∧
           (replace_dash k = f ∨
            (k = "class"%string ∧ f = "class_name"%string)).
Proof.
  eexists. split; [apply DomAttributes_init_result|]. split.
  - apply map_keys_keys.
  - intros f v Hin Hv. apply map_keys_elem in Hin as [Hf ->].
    unfold init_items in Hv |- *. rewrite renamed_items_get in Hv |- *.
    destruct (last (filter (renamed_to f) (class_moved kwargs)))
      as [[k v]|] eqn:Hlast; [|done]. cbn [default snd].
    apply last_Some_elem_of, list_elem_of_filter in Hlast as [[Hs Hr] Hin].
    cbn [fst] in Hs, Hr.
    apply class_moved_elem in Hin as [Hin|[-> Hin]].
    + exists k. split_and!; [done..|by left].
    + exists "class"%string. split_and!; [done..|].
      right. split; [done|]. by rewrite <- Hr.
Qed.

(** X21.  For arguments with distinct keys, a field whose name has no
    underscore holds the value given under that name, and [None] when
    there is none: such are [hidden], [visible] and [enabled]. *)
Theorem DomAttributes_init_plain_field kwargs buffer instance f :
  NoDup (dict_keys kwargs) →
  (DomAttributes_init kwargs buffer).1 = inr instance →
  f ∈ dataclass_fields → no_underscore f →
  field f instance = default VNone (dict_get f kwargs).
Proof.
  intros Hnd Hinit Hf Hplain.
  rewrite (DomAttributes_init_field _ _ _ _ Hinit Hf). unfold init_items.
  rewrite (renamed_items_get_unique f f).
  - rewrite class_moved_get_other; [done| |].
    + intros ->. by apply class_not_field.
    + intros ->. destruct Hplain as (_ & _ & _ & _ & _ & H & _). by apply H.
  - by apply class_moved_NoDup.
  - intros [k v] _ [_ Hr]. cbn [fst] in Hr |- *. subst f.
    symmetry. by apply replace_dash_no_underscore.
  - by apply fields_not_skipped.
  - by apply fields_without_dash.
Qed.

Lemma DomAttributes_init_plain_field_witness :
  ∃ instance,
    (DomAttributes_init sample_kwargs []).1 = inr instance ∧
    field "hidden" instance = VBool false ∧
    field "visible" instance = VNone.
Proof.
  eexists. split; [apply DomAttributes_init_result|].
  assert (Hnd : NoDup (dict_keys sample_kwargs)).
  { unfold sample_kwargs, dict_keys. rewrite !fmap_cons. cbn [fst fmap list_fmap].
    repeat (apply NoDup_cons_2;
            [repeat (apply not_elem_of_cons; split; [done|]);
             apply not_elem_of_nil|]).
    apply NoDup_nil_2. }
  split.
  - apply (DomAttributes_init_plain_field sample_kwargs [] _ "hidden" Hnd
             (DomAttributes_init_result sample_kwargs [])).
    + unfold dataclass_fields.
      repeat (first [apply list_elem_of_here|apply list_elem_of_further]).
    + cbn [no_underscore]. by repeat split.
  - apply (DomAttributes_init_plain_field sample_kwargs [] _ "visible" Hnd
             (DomAttributes_init_result sample_kwargs [])).
    + unfold dataclass_fields.
      repeat (first [apply list_elem_of_here|apply list_elem_of_further]).
    + cbn [no_underscore]. by repeat split.
Defined.

(** X22.  For arguments with distinct keys that have "class" and no
    "class-name", the field [class_name] holds the value given under
    "class", also when the arguments have "class_name" as well. *)
Theorem DomAttributes_init_class kwargs buffer instance v :
  NoDup (dict_keys kwargs) →
  dict_get "class" kwargs = Some v →
  "class-name"%string ∉ dict_keys kwargs →
  (DomAttributes_init kwargs buffer).1 = inr instance →
  field "class_name" instance = v.
Proof.
  intros Hnd Hclass Hdash Hinit.
  rewrite (DomAttributes_init_field _ _ _ "class_name" Hinit).
  - unfold init_items.
    rewrite (renamed_items_get_unique "class_name" "class_name").
    + by rewrite (class_moved_get_class_name _ _ Hclass).
    + by apply class_moved_NoDup.
    + intros [k v0] Hin [_ Hr]. cbn [fst] in Hr |- *.
      pose proof (replace_dash_variants k) as Hv. rewrite Hr in Hv.
      change (dash_variants "class_name")
        with ["class_name"; "class-name"]%string in Hv.
      apply elem_of_cons in Hv as [->|Hv]; [done|].
      apply list_elem_of_singleton in Hv as ->.
      assert (Hk : "class-name"%string ∈ dict_keys (class_moved kwargs))
        by (apply dict_keys_elem; by exists v0).
      by apply class_moved_keys in Hk as [Hk|Hk].
    + reflexivity.
    + reflexivity.
  - unfold dataclass_fields.
    repeat (first [apply list_elem_of_here|apply list_elem_of_further]).
Qed.

Lemma DomAttributes_init_class_witness :
  let kwargs :=
    [("class_name", VStr "old"); ("class", VStr "btn")]%string in
  ∃ instance,
    (DomAttributes_init kwargs []).1 = inr instance ∧
    field "class_name" instance = VStr "btn".
Proof.
  intros kwargs. eexists. split; [apply DomAttributes_init_result|].
  apply (DomAttributes_init_class kwargs [] _ (VStr "btn")).
  - unfold kwargs, dict_keys. rewrite !fmap_cons. cbn [fst fmap list_fmap].
    repeat (apply NoDup_cons_2;
            [repeat (apply not_elem_of_cons; split; [done|]);
             apply not_elem_of_nil|]).
    apply NoDup_nil_2.
  - reflexivity.
  - unfold kwargs, dict_keys. rewrite !fmap_cons. cbn [fst fmap list_fmap].
    repeat (apply not_elem_of_cons; split; [done|]). apply not_elem_of_nil.
  - apply DomAttributes_init_result.
Defined.

(** X23.  The fields [data_src] and [data_srcset] are filled from arguments
    of these very names only: the keys "data-src" and "data-srcset" start
    with "data-" and are left out, so that without an argument named as the
    field, the field is [None]. *)
Theorem DomAttributes_init_data_fields kwargs buffer instance f :
  f = "data_src"%string ∨ f = "data_srcset"%string →
  f ∉ dict_keys kwargs →
  (DomAttributes_init kwargs buffer).1 = inr instance →
  field f instance = VNone.
Proof.
  intros Hf Hkey Hinit.
  assert (Hvariants : ∀ k, replace_dash k = f → skipped_key k = false → k = f).
  { intros k Hr Hs. pose proof (replace_dash_variants k) as Hv. rewrite Hr in Hv.
    destruct Hf as [->| ->].
    - change (dash_variants "data_src")
        with ["data_src"; "data-src"]%string in Hv.
      apply elem_of_cons in Hv as [->|Hv]; [done|].
      apply list_elem_of_singleton in Hv as ->. discriminate Hs.
    - change (dash_variants "data_srcset")
        with ["data_srcset"; "data-srcset"]%string in Hv.
      apply elem_of_cons in Hv as [->|Hv]; [done|].
      apply list_elem_of_singleton in Hv as ->. discriminate Hs. }
  rewrite (DomAttributes_init_field _ _ _ f Hinit).
  - unfold init_items. rewrite renamed_items_get.
    rewrite filter_none; [done|].
    intros [k v] Hin [Hs Hr]. cbn [fst] in Hs, Hr.
    assert (k = f) as -> by (by apply Hvariants).
    assert (Hk : f ∈ dict_keys (class_moved kwargs))
      by (apply dict_keys_elem; by exists v).
    apply class_moved_keys in Hk as [Hk|Hk]; [done|].
    by destruct Hf as [->| ->].
  - destruct Hf as [->| ->]; unfold dataclass_fields;
      repeat (first [apply list_elem_of_here|apply list_elem_of_further]).
Qed.

Lemma DomAttributes_init_data_fields_witness :
  ∃ instance,
    (DomAttributes_init sample_kwargs []).1 = inr instance ∧
    dict_get "data-src" sample_kwargs = Some (VStr "a.png") ∧
    field "data_src" instance = VNone.
Proof.
  eexists. split; [apply DomAttributes_init_result|]. split; [reflexivity|].
  apply (DomAttributes_init_data_fields sample_kwargs [] _ "data_src").
  - by left.
  - unfold sample_kwargs, dict_keys. rewrite !fmap_cons. cbn [fst fmap list_fmap].
    repeat (apply not_elem_of_cons; split; [done|]). apply not_elem_of_nil.
  - apply DomAttributes_init_result.
Defined.

(** X24.  After [DomAttributes.init] the buffer has the keys it had and,
    besides, exactly the new names of the arguments (dashes replaced, keys
    starting with "data-", "js", "__" or "g-" left out) that are neither a
    field of the dataclass nor one of the excluded keys.  Arguments whose
    new names are all fields or excluded keys leave the buffer as it is. *)
Theorem DomAttributes_init_reports kwargs buffer :
  (∀ k,
     k ∈ dict_keys (DomAttributes_init kwargs buffer).2 ↔
     k ∈ dict_keys buffer
     ∨ ((k ∉ dataclass_fields) ∧ (k ∉ excluded_keys)
        ∧ ∃ k0, k0 ∈ dict_keys kwargs ∧ skipped_key k0 = false
                ∧ replace_dash k0 = k)) ∧
  ((∀ k0, k0 ∈ dict_keys kwargs → skipped_key k0 = false →
          replace_dash k0 ∈ dataclass_fields ∨ replace_dash k0 ∈ excluded_keys) →
   (DomAttributes_init kwargs buffer).2 = buffer).
Proof.
  assert (Hitems : ∀ k, k ∉ dataclass_fields → k ∉ excluded_keys →
    (k ∈ dict_keys (init_items kwargs) ↔
     ∃ k0, k0 ∈ dict_keys kwargs ∧ skipped_key k0 = false ∧ replace_dash k0 = k)).
  { intros k Hfield Hexcl. unfold init_items. rewrite renamed_items_keys.
    split; intros (k0 & Hk0 & Hs & Hr); exists k0; (split_and!; [|done..]).
    - apply class_moved_keys in Hk0 as [Hk0| ->]; [done|].
      exfalso. apply Hfield. rewrite <- Hr. unfold dataclass_fields.
      repeat (first [apply list_elem_of_here|apply list_elem_of_further]).
    - apply class_moved_keeps; [done|]. intros ->.
      apply Hexcl. rewrite <- Hr. unfold excluded_keys.
      repeat (first [apply list_elem_of_here|apply list_elem_of_further]). }
  split.
  - intros k. rewrite DomAttributes_init_buffer_keys. split.
    + intros [(Hf & He & Hk)|Hb]; [right|by left].
      split_and!; [done..|]. by apply Hitems.
    + intros [Hb|(Hf & He & Hk)]; [by right|left].
      split_and!; [done..|]. by apply Hitems.
  - intros Hall. rewrite DomAttributes_init_unfold. cbv zeta.
    rewrite filter_none; [done|].
    intros k (k0 & Hk0 & Hs & Hr)%renamed_items_keys [Hf He].
    destruct (proj1 (Hitems k Hf He)) as (k1 & Hk1 & Hs1 & Hr1).
    { unfold init_items. apply renamed_items_keys. by exists k0. }
    destruct (Hall k1 Hk1 Hs1) as [H|H]; rewrite Hr1 in H;
      [by apply Hf|by apply He].
Qed.

Lemma DomAttributes_init_reports_witness :
  let kwargs := [("aria-label", VStr "Close"); ("style", VStr "x");
                 ("data-id", VInt 7)]%string in
  (DomAttributes_init kwargs [("onclick", ["go()"])]%string).2
    = [("onclick", ["go()"])]%string.
Proof.
  intros kwargs.
  apply (proj2 (DomAttributes_init_reports kwargs [("onclick", ["go()"])]%string)).
  intros k0 Hk0 Hs. unfold kwargs, dict_keys in Hk0.
  rewrite !fmap_cons in Hk0. cbn [fst fmap list_fmap] in Hk0.
  repeat (apply elem_of_cons in Hk0 as [->|Hk0]).
  - left. unfold dataclass_fields.
    repeat (first [apply list_elem_of_here|apply list_elem_of_further]).
  - right. unfold excluded_keys.
    repeat (first [apply list_elem_of_here|apply list_elem_of_further]).
  - discriminate Hs.
  - by apply elem_of_nil in Hk0.
Defined.

(** ** [DomAttributes.relevant_attrs] *)

Lemma dict_set_new {V} k (v : V) (d : list (string * V)) :
  k ∉ dict_keys d → dict_set k v d = d ++ [(k, v)].
Proof.
  unfold dict_keys. induction d as [|[k0 v0] d IH]; [done|].
  rewrite fmap_cons, not_elem_of_cons. cbn [fst]. intros [Hne Hd].
  cbn [dict_set]. rewrite (decide_False (P := k0 = k)) by done.
  by rewrite IH.
Qed.

Lemma string_length_append (s1 s2 : string) :
  String.length (s1 +:+ s2) = String.length s1 + String.length s2.
Proof.
  induction s1 as [|c s1 IH]; [done|].
  simpl. f_equal. exact IH.
Qed.

Lemma relevant_attrs_unfold self include_attributes max_len :
  relevant_attrs self include_attributes max_len =
    fold_left (attrs_step include_attributes max_len) self [].
Proof. reflexivity. Qed.

(** The three tests of the loop come to this: the key is selected and the
    value is there. *)
Lemma attrs_step_test include_attributes max_len attrs kv :
  attrs_step include_attributes max_len attrs kv =
    if decide (kept_attr include_attributes kv)
    then dict_set kv.1 (shortened max_len kv.2) attrs
    else attrs.
Proof.
  unfold attrs_step, kept_attr.
  assert (Hiff :
    ((kv.1 ∉ filter (λ k, k ∉ default ∅ include_attributes) disabled_by_default)
     ∧ (include_attributes = None ∨ kv.1 ∈ default ∅ include_attributes)
     ∧ kv.2 ≠ VNone)
    ↔ selected_attr include_attributes kv.1 ∧ kv.2 ≠ VNone).
  { rewrite list_elem_of_filter.
    destruct include_attributes as [included|]; cbn [default selected_attr].
    - split.
      + intros (_ & [H|H] & Hv); [done|by split].
      + intros [Hin Hv]. split_and!; [|by right|done].
        intros [Hn _]. by apply Hn.
    - split.
      + intros (Hd & _ & Hv). split; [|done].
        intros Hin. apply Hd. split; [apply not_elem_of_empty|done].
      + intros [Hd Hv]. split_and!; [|by left|done].
        intros [_ Hin]. by apply Hd. }
  destruct (decide (selected_attr include_attributes kv.1 ∧ kv.2 ≠ VNone))
    as [Hk|Hk].
  - rewrite decide_True; [done|by apply Hiff].
  - rewrite decide_False; [done|]. intros H. by apply Hk, Hiff.
Qed.

Lemma relevant_attrs_fold include_attributes max_len self acc :
  NoDup (dict_keys acc ++ dict_keys self) →
  fold_left (attrs_step include_attributes max_len) self acc =
    acc ++ ((λ kv, (kv.1, shortened max_len kv.2))
              <$> filter (kept_attr include_attributes) self).
Proof.
  revert acc. induction self as [|[k v] self IH]; intros acc Hnd.
  - cbn [fold_left]. rewrite filter_nil, fmap_nil. by rewrite app_nil_r.
  - assert (Hk : (k ∉ dict_keys acc) ∧ NoDup (dict_keys acc ++ dict_keys self)).
    { unfold dict_keys in Hnd |- *. rewrite fmap_cons in Hnd. cbn [fst] in Hnd.
      rewrite <- Permutation_middle in Hnd.
      apply NoDup_cons in Hnd as [Hnotin Hnd]. split; [|done].
      intros Hin. apply Hnotin, elem_of_app. by left. }
    destruct Hk as [Hk Hrest].
    cbn [fold_left]. rewrite attrs_step_test, filter_cons.
    destruct (decide (kept_attr include_attributes (k, v))) as [Hkept|Hkept].
    + cbn [fst snd]. rewrite dict_set_new by done. rewrite IH.
      * rewrite fmap_cons, <- app_assoc. done.
      * unfold dict_keys in Hnd |- *. rewrite fmap_app, fmap_cons, fmap_nil.
        rewrite fmap_cons in Hnd. cbn [fst] in Hnd |- *.
        by rewrite <- app_assoc.
    + by apply IH.
Qed.

Lemma relevant_attrs_fold_elem include_attributes max_len self acc kv :
  kv ∈ fold_left (attrs_step include_attributes max_len) self acc →
  kv ∈ acc ∨
  ∃ raw, (kv.1, raw) ∈ self ∧ kept_attr include_attributes (kv.1, raw)
         ∧ kv.2 = shortened max_len raw.
Proof.
  revert acc. induction self as [|[k v] self IH]; intros acc; cbn [fold_left].
  - by left.
  - intros Hin. apply IH in Hin as [Hin|(raw & Hraw & Hkept & Hv)].
    + rewrite attrs_step_test in Hin.
      destruct (decide (kept_attr include_attributes (k, v))) as [Hkept|Hkept];
        [|by left].
      apply dict_set_elem in Hin as [->|Hin]; [|by left].
      right. exists v. cbn [fst snd]. split_and!; [|done..].
      apply list_elem_of_here.
    + right. exists raw. split_and!; [|done..]. by apply list_elem_of_further.
Qed.

(** X25.  For an instance (its fields, each once), [relevant_attrs] returns
    in the order of the fields the attributes that are selected and not
    [None], each with its value shortened: selected are, without
    [include_attributes], the attributes outside the list left out by
    default, and with [include_attributes] exactly the attributes included,
    the list left out by default having no effect then.  With an empty
    [include_attributes] the result is empty. *)
Theorem relevant_attrs_spec self include_attributes max_len :
  NoDup (dict_keys self) →
  relevant_attrs self include_attributes max_len =
    ((λ kv, (kv.1, shortened max_len kv.2))
       <$> filter (kept_attr include_attributes) self) ∧
  (include_attributes = Some ∅ →
   relevant_attrs self include_attributes max_len = []).
Proof.
  intros Hnd.
  assert (E : relevant_attrs self include_attributes max_len =
    ((λ kv, (kv.1, shortened max_len kv.2))
       <$> filter (kept_attr include_attributes) self)).
  { rewrite relevant_attrs_unfold.
    by rewrite (relevant_attrs_fold include_attributes max_len self []). }
  split; [exact E|].
  intros ->. rewrite E, filter_none; [done|].
  intros [k v] _ [Hsel _]. cbn [selected_attr fst] in Hsel.
  by apply not_elem_of_empty in Hsel.
Qed.

Lemma relevant_attrs_spec_witness :
  let self := [("tag_name", VStr "a"); ("href", VStr "/x"); ("title", VNone);
               ("tabindex", VInt 3)]%string in
  relevant_attrs self None None
    = [("href", VStr "/x"); ("tabindex", VInt 3)]%string ∧
  relevant_attrs self (Some {["tag_name"; "title"]}%string) None
    = [("tag_name", VStr "a")]%string ∧
  relevant_attrs self (Some ∅) None = [].
Proof.
  intros self.
  assert (Hnd : NoDup (dict_keys self)).
  { unfold self, dict_keys. rewrite !fmap_cons. cbn [fst fmap list_fmap].
    repeat (apply NoDup_cons_2;
            [repeat (apply not_elem_of_cons; split; [done|]);
             apply not_elem_of_nil|]).
    apply NoDup_nil_2. }
  split_and!.
  - by vm_compute.
  - by vm_compute.
  - by apply (proj2 (relevant_attrs_spec self (Some ∅) None Hnd)).
Defined.

(** X26.  With a limit [max_len_per_attribute] that is not negative, no
    string among the values that [relevant_attrs] returns is longer than
    the limit plus the three dots; without a limit every item returned is
    an item of the instance. *)
Theorem relevant_attrs_bounded self include_attributes :
  (∀ n key s,
     (0 ≤ n)%Z →
     (key, VStr s) ∈ relevant_attrs self include_attributes (Some n) →
     String.length s ≤ Z.to_nat n + 3) ∧
  (∀ kv, kv ∈ relevant_attrs self include_attributes None → kv ∈ self).
Proof.
  split.
  - intros n key s Hn Hin. rewrite relevant_attrs_unfold in Hin.
    apply relevant_attrs_fold_elem in Hin as [Hin|(raw & _ & _ & Hv)];
      [by apply elem_of_nil in Hin|].
    cbn [snd] in Hv. destruct raw as [s0|z|b|]; cbn [shortened] in Hv;
      try discriminate Hv.
    case_decide as Hlen.
    + injection Hv as ->. rewrite string_length_append.
      unfold py_slice_to. rewrite decide_True by done.
      pose proof (substring_length_le (Z.to_nat n) s0) as Hle.
      cbn [String.length]. lia.
    + injection Hv as ->. lia.
  - intros [k v] Hin. rewrite relevant_attrs_unfold in Hin.
    apply relevant_attrs_fold_elem in Hin as [Hin|(raw & Hraw & _ & Hv)];
      [by apply elem_of_nil in Hin|].
    cbn [fst snd] in Hraw, Hv. rewrite Hv.
    by destruct raw.
Qed.

Lemma relevant_attrs_bounded_witness :
  let self := [("title", VStr "A very long title")]%string in
  relevant_attrs self None (Some 6%Z) = [("title", VStr "A very...")]%string ∧
  String.length "A very..." ≤ Z.to_nat 6 + 3.
Proof.
  intros self. split; [by vm_compute|].
  apply (proj1 (relevant_attrs_bounded self None) 6%Z "title"%string); [lia|].
  vm_compute. apply list_elem_of_here.
Defined.
